(** * KirkGolfGame: physics stepper, trajectory predictor, shot loop and
      game-phase machine

    A shallow embedding of [src/services/physicsEngine.ts], of the state
    logic of [src/App.tsx], of the camera, the projection, the shot of a drag
    and the pointer handlers of [src/components/GameCanvas.tsx], and of the
    last phase of [generateLevel].

    Numbers.  A JavaScript [number] is modelled as a real number ([R]): the
    arithmetic is exact and there is neither NaN nor an infinity.  Comparisons
    are the decidable order of [R]; [Math.sqrt] is [sqrt]; [Math.abs] is
    [Rabs]; [Math.round] (nearest integer, ties towards plus infinity) is
    [Zfloor (r + 1/2)].  A test of a computed number against 0 (the
    [m === 0] of [normalize]) decides in the source as it does here only
    where no intermediate result underflows or overflows; the properties
    that turn on such a test bound the numbers accordingly.

    Tile map.  The source keys a [Map<string, Tile>] by the string
    [`${x},${z}`] of two integers.  The key is modelled as the pair of
    integers itself, the map as a [gmap (Z * Z) Tile].

    State.  The handlers and the state updaters of [App.tsx] are functions
    on a record [Game] of the component's state.  The phase-transition
    effect is a function of its own, [phaseTransition].  A started
    [setTimeout(resetBall, 1000)] is counted in [pendingResets] and fires by
    [timerFires]; the embedding has no clock, so a started timer fires at
    some later step.  The steps of the game ([gameStep]) take any level on a
    restart, where the component takes the levels of [generateLevel]: every
    run of the component is a run of these steps, so what holds in every
    state they reach holds in the game, while a state they reach need not be
    one the game reaches.

    Canvas.  The state of the canvas component that its handlers read and
    write is a record [Canvas]; the properties it is rendered with are a
    record [CanvasProps].  [Math.cos], [Math.sin] and [Math.PI] are [cos],
    [sin] and [PI]; [Math.atan2] is [atan2] below; [Math.hypot] is the square
    root of the sum of the squares.

    Level generator.  [generateLevel] draws its terrain with [Math.random];
    only what it does after the last draw is embedded, as a function
    [finalizeLevel] of the arrays the random phases leave. *)

From Stdlib Require Import Reals Lra Lia ZArith String List.
From Stdlib Require Import Zfloor.
From stdpp Require Import base decidable option list strings gmap.

Local Open Scope R_scope.

(** ** Decidable comparisons on numbers *)

#[global] Instance Rlt_decision : RelDecision Rlt := Rlt_dec.
#[global] Instance Rle_decision : RelDecision Rle := Rle_dec.
#[global] Instance Rgt_decision : RelDecision Rgt := Rgt_dec.
#[global] Instance Req_decision : EqDecision R := Req_dec_T.

(** [Math.round] *)
Definition round (r : R) : Z := Zfloor (r + / 2).

(** [a || 0] on an optional number: [undefined] and [0] both give [0]. *)
Definition orZero (o : option R) : R :=
  match o with
  | Some h => if decide (h = 0) then 0 else h
  | None => 0
  end.

(** ** types.ts *)

Record Vector3 := mkVector3 { x : R; y : R; z : R }.

Inductive TileType :=
  FAIRWAY | ROUGH | SAND | WATER | GREEN | GRAVEL | TREE | OBSTACLE | EMPTY.

#[global] Instance TileType_eq_dec : EqDecision TileType.
Proof. solve_decision. Defined.

(** A tile; its grid coordinates are integers. *)
Record Tile := mkTile {
  tile_x : Z;
  tile_z : Z;
  height : R;
  type : TileType
}.

Record PhysicsConfig := mkPhysicsConfig {
  gravity : R;
  dragAir : R;
  frictionGround : R;
  frictionSand : R;
  frictionGreen : R;
  frictionGravel : R;
  frictionRough : R;
  restitution : R;
  maxVelocity : R;
  minVelocityToStop : R
}.

Record BallState := mkBallState {
  position : Vector3;
  velocity : Vector3;
  isMoving : bool;
  inHole : bool;
  lastStablePosition : Vector3
}.

Record Level := mkLevel {
  tiles : list Tile;
  startPosition : Vector3;
  holePosition : Vector3;
  par : R
}.

Inductive GamePhase :=
  AIMING | EXECUTING | IDLE | HOLED | LEVEL_COMPLETE | OUT_OF_BOUNDS
  | GAME_OVER.

#[global] Instance GamePhase_eq_dec : EqDecision GamePhase.
Proof. solve_decision. Defined.

(** ** constants.ts *)

Definition PHYSICS_CONFIG : PhysicsConfig := {|
  gravity := 35;
  dragAir := 0.8;
  frictionGround := 0.4;
  frictionSand := 8;
  frictionGreen := 0.15;
  frictionGravel := 5;
  frictionRough := 0.8;
  restitution := 0.4;
  maxVelocity := 80;
  minVelocityToStop := 0.2
|}.

(** ** physicsEngine.ts: vectors *)

Definition zeroVector : Vector3 := mkVector3 0 0 0.

Definition addVectors (v1 v2 : Vector3) : Vector3 :=
  mkVector3 (x v1 + x v2) (y v1 + y v2) (z v1 + z v2).

Definition scaleVector (v : Vector3) (s : R) : Vector3 :=
  mkVector3 (x v * s) (y v * s) (z v * s).

Definition magnitude (v : Vector3) : R :=
  sqrt (x v * x v + y v * y v + z v * z v).

Definition normalize (v : Vector3) : Vector3 :=
  let m := magnitude v in
  if decide (m = 0) then zeroVector else scaleVector v (1 / m).

(** ** physicsEngine.ts: the tile map *)

Definition tileKey (a b : Z) : Z * Z := (a, b).

(** [levelTiles.forEach(t => tileMap.set(`${t.x},${t.z}`, t))]: a later tile
    with the same coordinates replaces an earlier one. *)
Definition buildTileMap (levelTiles : list Tile) : gmap (Z * Z) Tile :=
  foldl (fun m t => <[tileKey (tile_x t) (tile_z t) := t]> m) ∅ levelTiles.

(** The tile under a position: [tileMap.get(`${round x},${round z}`)]. *)
Definition tileAt (tileMap : gmap (Z * Z) Tile) (p : Vector3) : option Tile :=
  tileMap !! tileKey (round (x p)) (round (z p)).

Definition getFrictionForTile (tileType : option TileType)
    (config : PhysicsConfig) : R :=
  match tileType with
  | Some SAND => frictionSand config
  | Some GREEN => frictionGreen config
  | Some ROUGH => frictionRough config
  | Some GRAVEL => frictionGravel config
  | Some FAIRWAY => frictionGround config
  | Some WATER => 0.5
  | _ => frictionGround config
  end.

(** ** physicsEngine.ts: calculateNextState *)

Record StepResult := mkStepResult {
  pos : Vector3;
  vel : Vector3;
  collision : option string
}.

(** Gravity and linear air drag. *)
Definition stepForces (vel0 : Vector3) (config : PhysicsConfig) : Vector3 :=
  mkVector3 (0 - x vel0 * dragAir config)
            (- gravity config - y vel0 * dragAir config)
            (0 - z vel0 * dragAir config).

(** Semi-implicit Euler: the velocity first, then the position with the new
    velocity. *)
Definition integrate (pos0 vel0 : Vector3) (dt : R) (config : PhysicsConfig)
    : Vector3 * Vector3 :=
  let newVel := addVectors vel0 (scaleVector (stepForces vel0 config) dt) in
  let newPos := addVectors pos0 (scaleVector newVel dt) in
  (newPos, newVel).

Definition checkRadius : Z := 2.

(** The offsets [(i, j)] in the order of the two nested loops. *)
Definition scanOffsets : list (Z * Z) :=
  i ← seqZ (- checkRadius) (2 * checkRadius + 1);
  j ← seqZ (- checkRadius) (2 * checkRadius + 1);
  [(i, j)].

Definition isCollider (t : TileType) : bool :=
  match t with TREE | OBSTACLE => true | _ => false end.

Definition colliderRadius (t : TileType) : R :=
  match t with TREE => 0.35 | _ => 0.45 end.

Definition ballRadius : R := 0.15.

Definition minDist (t : TileType) : R := colliderRadius t + ballRadius.

(** The horizontal collision normal against an obstacle tile. *)
Definition collisionNormal (obs : Tile) (newPos : Vector3) : R * R :=
  let dx := x newPos - IZR (tile_x obs) in
  let dz := z newPos - IZR (tile_z obs) in
  let dist := sqrt (dx * dx + dz * dz) in
  (if decide (dist > 0) then dx / dist else 1,
   if decide (dist > 0) then dz / dist else 0).

(** The response to one obstacle tile: the body of the inner loop once
    [obs] is known to be a TREE or an OBSTACLE. *)
Definition collideObstacle (obs : Tile) (st : Vector3 * Vector3)
    : Vector3 * Vector3 :=
  let '(newPos, newVel) := st in
  if decide (y newPos > height obs + 3) then st
  else
    let dx := x newPos - IZR (tile_x obs) in
    let dz := z newPos - IZR (tile_z obs) in
    let distSq := dx * dx + dz * dz in
    if decide (distSq < minDist (type obs) * minDist (type obs)) then
      let dist := sqrt distSq in
      let nx := if decide (dist > 0) then dx / dist else 1 in
      let nz := if decide (dist > 0) then dz / dist else 0 in
      let pushOutDist := (minDist (type obs) - dist) + 0.01 in
      let newPos' :=
        mkVector3 (x newPos + nx * pushOutDist) (y newPos)
                  (z newPos + nz * pushOutDist) in
      let dot := x newVel * nx + z newVel * nz in
      if decide (dot < 0) then
        (newPos',
         mkVector3 ((x newVel - 2 * dot * nx) * 0.7 * 0.9) (y newVel)
                   ((z newVel - 2 * dot * nz) * 0.7 * 0.9))
      else (newPos', newVel)
    else st.

(** One iteration of the inner loop, at offset [(i, j)] from [(cx, cz)]. *)
Definition scanCell (tileMap : gmap (Z * Z) Tile) (cx cz : Z)
    (st : Vector3 * Vector3) (ij : Z * Z) : Vector3 * Vector3 :=
  match tileMap !! tileKey (cx + ij.1) (cz + ij.2) with
  | Some obs => if isCollider (type obs) then collideObstacle obs st else st
  | None => st
  end.

(** The whole scan; [cx] and [cz] are taken once, before the loops. *)
Definition collideAll (tileMap : gmap (Z * Z) Tile) (st : Vector3 * Vector3)
    : Vector3 * Vector3 :=
  let cx := round (x st.1) in
  let cz := round (z st.1) in
  foldl (scanCell tileMap cx cz) st scanOffsets.

(** The floor under the final position: the tile's height, [-10] without a
    tile. *)
Definition floorHeight (finalTile : option Tile) : R :=
  match finalTile with Some t => height t | None => -10 end.

(** Ground friction on a ball whose vertical velocity is zero. *)
Definition groundFriction (mu : R) (config : PhysicsConfig) (dt : R)
    (newVel : Vector3) : Vector3 :=
  let frictionMag := mu * gravity config * dt in
  let speed := magnitude (mkVector3 (x newVel) 0 (z newVel)) in
  if decide (speed > 0) then
    if decide (speed <= frictionMag) then mkVector3 0 (y newVel) 0
    else
      let factor := (speed - frictionMag) / speed in
      mkVector3 (x newVel * factor) (y newVel) (z newVel * factor)
  else newVel.

(** Drag near the ground while the ball still bounces. *)
Definition nearGroundDrag (dt : R) (newVel : Vector3) : Vector3 :=
  let drag := 1.0 * dt in
  mkVector3 (x newVel * (1 - drag)) (y newVel) (z newVel * (1 - drag)).

(** The vertical bounce: reflect a fast vertical velocity, zero a slow one. *)
Definition bounce (config : PhysicsConfig) (newVel : Vector3) : Vector3 :=
  if decide (Rabs (y newVel) > 0.5)
  then mkVector3 (x newVel) (- y newVel * restitution config) (z newVel)
  else mkVector3 (x newVel) 0 (z newVel).

(** Friction or near-ground drag, by whether the bounce left a vertical
    velocity. *)
Definition frictionUpdate (finalTile : option Tile) (config : PhysicsConfig)
    (dt : R) (newVel : Vector3) : Vector3 :=
  if decide (y newVel = 0)
  then groundFriction (getFrictionForTile (type <$> finalTile) config)
                      config dt newVel
  else nearGroundDrag dt newVel.

(** Ground and terrain interaction on the state after the collision scan. *)
Definition groundResponse (tileMap : gmap (Z * Z) Tile)
    (config : PhysicsConfig) (dt : R) (st : Vector3 * Vector3) : StepResult :=
  let '(newPos, newVel) := st in
  let finalTile := tileAt tileMap newPos in
  let floor := floorHeight finalTile in
  if decide (y newPos <= floor) then
    let newPos' := mkVector3 (x newPos) floor (z newPos) in
    if decide (type <$> finalTile = Some WATER) then
      mkStepResult newPos' zeroVector (Some "WATER"%string)
    else
      mkStepResult newPos'
        (frictionUpdate finalTile config dt (bounce config newVel)) None
  else mkStepResult newPos newVel None.

(** The state on which the ground response works: after integration and the
    collision scan. *)
Definition scanned (pos0 vel0 : Vector3) (dt : R) (config : PhysicsConfig)
    (tileMap : gmap (Z * Z) Tile) : Vector3 * Vector3 :=
  collideAll tileMap (integrate pos0 vel0 dt config).

Definition calculateNextState (pos0 vel0 : Vector3) (dt : R)
    (config : PhysicsConfig) (tileMap : gmap (Z * Z) Tile) : StepResult :=
  groundResponse tileMap config dt (scanned pos0 vel0 dt config tileMap).

(** ** physicsEngine.ts: predictTrajectory *)

(** The floor the predictor and the shot loop use for their own checks:
    [currentTile?.height || 0]. *)
Definition checkFloor (tileMap : gmap (Z * Z) Tile) (p : Vector3) : R :=
  orZero (height <$> tileAt tileMap p).

(** The [for] loop of [predictTrajectory], from iteration [i] with [fuel]
    iterations left ([fuel = steps - i]). *)
Fixpoint predictLoop (config : PhysicsConfig) (tileMap : gmap (Z * Z) Tile)
    (dt : R) (fuel i : nat) (currentPos currentVel : Vector3)
    (path : list Vector3) : list Vector3 :=
  match fuel with
  | O => path
  | S fuel' =>
    let r := calculateNextState currentPos currentVel dt config tileMap in
    let floor := checkFloor tileMap currentPos in
    if decide (y (pos r) <= floor + 0.05 /\ y currentVel < 0) then
      path ++ [mkVector3 (x (pos r)) floor (z (pos r))]
    else
      let path' := path ++ [pos r] in
      if decide (y (pos r) <= floor /\ Rabs (y (vel r)) < 0.1 /\ (0 < i)%nat)
      then path'
      else predictLoop config tileMap dt fuel' (S i) (pos r) (vel r) path'
  end.

Definition predictTrajectory (startPos startVel : Vector3)
    (config : PhysicsConfig) (levelTiles : list Tile) (steps : nat) (dt : R)
    : list Vector3 :=
  predictLoop config (buildTileMap levelTiles) dt steps 0 startPos startVel
    [startPos].

(** ** App.tsx: the shot loop *)

Definition SUB_STEPS : nat := 8.

(** The rest check of a sub-step on the result [r] of its step. *)
Definition isBasicallyStopped (config : PhysicsConfig)
    (tileMap : gmap (Z * Z) Tile) (r : StepResult) : bool :=
  bool_decide (magnitude (vel r) < minVelocityToStop config
               /\ Rabs (y (pos r) - checkFloor tileMap (pos r)) < 0.1).

(** The horizontal distance from [p] to the hole. *)
Definition distToHole (hole p : Vector3) : R :=
  magnitude (mkVector3 (x p - x hole) 0 (z p - z hole)).

(** The local [inHole] of a sub-step: set by a capture, kept otherwise. *)
Definition holeReached (hole : Vector3) (r : StepResult) (holed : bool)
    : bool :=
  if decide (distToHole hole (pos r) < 0.3 /\ magnitude (vel r) < 5)
  then true else holed.

(** One pass through the body of the sub-step loop.  The boolean tells
    whether the body left the loop with [break]. *)
Definition subStep (config : PhysicsConfig) (tileMap : gmap (Z * Z) Tile)
    (hole : Vector3) (subDt : R) (currentState : BallState)
    : BallState * bool :=
  if negb (isMoving currentState) then (currentState, true)
  else if decide (y (position currentState) < -10) then
    (mkBallState (position currentState) zeroVector false
       (inHole currentState) (lastStablePosition currentState), true)
  else
    let r := calculateNextState (position currentState)
               (velocity currentState) subDt config tileMap in
    if decide (collision r = Some "WATER"%string) then
      (mkBallState (pos r) (vel r) false (inHole currentState)
         (lastStablePosition currentState), true)
    else
      let stopped := isBasicallyStopped config tileMap r in
      let inHole' := holeReached hole r (inHole currentState) in
      (mkBallState (if inHole' then hole else pos r)
         (if inHole' || stopped then zeroVector else vel r)
         (negb stopped && negb inHole')
         inHole'
         (lastStablePosition currentState),
       inHole').

(** The sub-step loop with [n] iterations left. *)
Fixpoint subSteps (config : PhysicsConfig) (tileMap : gmap (Z * Z) Tile)
    (hole : Vector3) (subDt : R) (n : nat) (currentState : BallState)
    : BallState :=
  match n with
  | O => currentState
  | S n' =>
    let '(s', stop) := subStep config tileMap hole subDt currentState in
    if stop then s' else subSteps config tileMap hole subDt n' s'
  end.

(** The frame delta in seconds, clamped:
    [Math.min((time - lastTime) / 1000, 0.1)]. *)
Definition frameDt (elapsedMs : R) : R := Rmin (elapsedMs / 1000) 0.1.

(** The state updater of one frame. *)
Definition shotLoop (config : PhysicsConfig) (tileMap : gmap (Z * Z) Tile)
    (hole : Vector3) (dt : R) (prev : BallState) : BallState :=
  subSteps config tileMap hole (dt / INR SUB_STEPS) SUB_STEPS prev.

(** ** App.tsx: the game state and its handlers *)

Definition STARTING_LIVES : Z := 5.

(** The state of the component.  [pendingResets] counts the [resetBall]
    timers that were started and have not fired yet. *)
Record Game := mkGame {
  level : Level;
  ballState : BallState;
  gamePhase : GamePhase;
  lives : Z;
  levelScore : Z;
  isPaused : bool;
  pendingResets : nat
}.

Definition gameTileMap (g : Game) : gmap (Z * Z) Tile :=
  buildTileMap (tiles (level g)).

Definition freshBall (l : Level) : BallState :=
  mkBallState (startPosition l) zeroVector false false (startPosition l).

Definition initialGame (l : Level) : Game :=
  mkGame l (freshBall l) AIMING STARTING_LIVES 0 false 0.

(** The state updater of [resetBall]. *)
Definition resetBallState (prev : BallState) : BallState :=
  mkBallState (lastStablePosition prev) zeroVector false (inHole prev)
    (lastStablePosition prev).

Definition resetBall (g : Game) : Game :=
  mkGame (level g) (resetBallState (ballState g)) AIMING (lives g)
    (levelScore g) (isPaused g) (pendingResets g).

Definition handleRestart (newLevel : Level) (g : Game) : Game :=
  mkGame newLevel (freshBall newLevel) AIMING STARTING_LIVES 0 false
    (pendingResets g).

Definition handleNextLevel (newLevel : Level) (g : Game) : Game :=
  mkGame newLevel (freshBall newLevel) AIMING STARTING_LIVES (levelScore g)
    false (pendingResets g).

(** The state updater of [handleShoot]. *)
Definition shootBallState (v : Vector3) (prev : BallState) : BallState :=
  mkBallState (position prev) v true (inHole prev) (position prev).

Definition handleShoot (v : Vector3) (g : Game) : Game :=
  if decide (gamePhase g = AIMING) then
    mkGame (level g) (shootBallState v (ballState g)) EXECUTING
      (lives g - 1)%Z (levelScore g) (isPaused g) (pendingResets g)
  else g.

(** One animation frame, [elapsedMs] after the previous one. *)
Definition updatePhysics (elapsedMs : R) (g : Game) : Game :=
  if negb (isPaused g) && isMoving (ballState g) then
    mkGame (level g)
      (shotLoop PHYSICS_CONFIG (gameTileMap g) (holePosition (level g))
         (frameDt elapsedMs) (ballState g))
      (gamePhase g) (lives g) (levelScore g) (isPaused g) (pendingResets g)
  else g.

(** Whether a stopped ball lies out of bounds: no tile, WATER, or deep. *)
Definition outOfBounds (tileMap : gmap (Z * Z) Tile) (b : BallState) : bool :=
  match tileAt tileMap (position b) with
  | None => true
  | Some currentTile =>
    bool_decide (type currentTile = WATER) || bool_decide (y (position b) < -5)
  end.

(** The phase-transition effect.  Starting the [setTimeout(resetBall, 1000)]
    timer is recorded in [pendingResets]. *)
Definition phaseTransition (g : Game) : Game :=
  if decide (gamePhase g = EXECUTING) then
    if inHole (ballState g) then
      mkGame (level g) (ballState g) LEVEL_COMPLETE (lives g)
        (levelScore g + 1)%Z (isPaused g) (pendingResets g)
    else if negb (isMoving (ballState g)) then
      if outOfBounds (gameTileMap g) (ballState g) then
        mkGame (level g) (ballState g) OUT_OF_BOUNDS (lives g) (levelScore g)
          (isPaused g) (S (pendingResets g))
      else if decide (lives g <= 0)%Z then
        mkGame (level g) (ballState g) GAME_OVER (lives g) (levelScore g)
          (isPaused g) (pendingResets g)
      else
        mkGame (level g) (ballState g) AIMING (lives g) (levelScore g)
          (isPaused g) (pendingResets g)
    else g
  else g.

(** A [resetBall] timer fires. *)
Definition timerFires (g : Game) : Game :=
  match pendingResets g with
  | O => g
  | S n =>
    resetBall (mkGame (level g) (ballState g) (gamePhase g) (lives g)
                 (levelScore g) (isPaused g) n)
  end.

Definition togglePause (g : Game) : Game :=
  mkGame (level g) (ballState g) (gamePhase g) (lives g) (levelScore g)
    (negb (isPaused g)) (pendingResets g).

(** ** physicsEngine.ts: calculateTrajectoryData *)

(** [Math.atan2(b, a)] on real numbers. *)
Definition atan2 (b a : R) : R :=
  if decide (a > 0) then atan (b / a)
  else if decide (a < 0) then
    if decide (b >= 0) then atan (b / a) + PI else atan (b / a) - PI
  else if decide (b > 0) then PI / 2
  else if decide (b < 0) then - (PI / 2)
  else 0.

Record TrajectoryData := mkTrajectoryData {
  points : list Vector3;
  maxHeight : R;
  range : R;
  launchAngle : R;
  duration : R
}.

(** The [forEach] that raises [maxHeight] to the highest point. *)
Definition raiseMaxHeight (maxHeight0 : R) (pts : list Vector3) : R :=
  foldl (fun mh p => if decide (y p > mh) then y p else mh) maxHeight0 pts.

(** The metrics over a computed path.  [points[points.length - 1]] of an
    empty path is [undefined], and reading its [x] throws: [None]. *)
Definition trajectoryMetrics (startPos startVel : Vector3) (dt : R)
    (pts : list Vector3) : option TrajectoryData :=
  let hSpeed := sqrt (x startVel * x startVel + z startVel * z startVel) in
  let angleRad := atan2 (y startVel) hSpeed in
  let launchAngle := angleRad * (180 / PI) in
  let maxHeight := raiseMaxHeight (y startPos) pts in
  match last pts with
  | Some lastPoint =>
    let range :=
      sqrt ((x lastPoint - x startPos) * (x lastPoint - x startPos)
            + (z lastPoint - z startPos) * (z lastPoint - z startPos)) in
    let duration := Rmax 0 (INR (length pts) - 1) * dt in
    Some (mkTrajectoryData pts maxHeight range launchAngle duration)
  | None => None
  end.

Definition calculateTrajectoryData (startPos startVel : Vector3)
    (config : PhysicsConfig) (levelTiles : list Tile) (maxSteps : nat)
    : option TrajectoryData :=
  let dt := 0.05 in
  trajectoryMetrics startPos startVel dt
    (predictTrajectory startPos startVel config levelTiles maxSteps dt).

(** ** constants.ts: the shot and the projection *)

Module PHYSICS_CONSTANTS.
Definition BALL_MASS : R := 0.0459.
Definition CONTACT_TIME : R := 0.0005.
End PHYSICS_CONSTANTS.

Definition TILE_SIZE : R := 40.

Definition MAX_DRAG_DISTANCE : R := 150.

(** ** types.ts: clubs and the camera *)

Inductive ClubType := DRIVER | IRON | WEDGE | PUTTER.

(** A point [{x, y}] of the screen. *)
Record Point2 := mkPoint2 { px : R; py : R }.

Record CameraState := mkCameraState {
  offset : Point2;
  zoom : R;
  rotation : R
}.

(** ** GameCanvas.tsx: clubs *)

Record ClubStats := mkClubStats {
  maxForce : R;
  minAngle : R;
  angleRange : R;
  guideLines : nat
}.

Definition CLUB_STATS (club : ClubType) : ClubStats :=
  match club with
  | DRIVER => mkClubStats 2200 18 12 100
  | IRON => mkClubStats 1400 30 15 80
  | WEDGE => mkClubStats 950 45 20 60
  | PUTTER => mkClubStats 1500 0 0 40
  end.

(** ** GameCanvas.tsx: the projection and the camera *)

Definition ISO_X_SCALE : R := TILE_SIZE * cos (PI / 6).

Definition ISO_Y_SCALE : R := TILE_SIZE * sin (PI / 6).

(** The result [{x, y, depth}] of [worldToScreen]. *)
Record Projected := mkProjected { screen_x : R; screen_y : R; depth : R }.

Definition worldToScreen (camera : CameraState) (v : Vector3) : Projected :=
  let cosR := cos (rotation camera) in
  let sinR := sin (rotation camera) in
  let rx := x v * cosR - z v * sinR in
  let rz := x v * sinR + z v * cosR in
  let isoX := (rx - rz) * ISO_X_SCALE in
  let isoY := (rx + rz) * ISO_Y_SCALE - y v * TILE_SIZE in
  mkProjected (isoX * zoom camera + px (offset camera))
    (isoY * zoom camera + py (offset camera))
    (rz + rx).

(** The ground point [{x, z}] under a screen point.  The division by the
    zoom is the division of real numbers. *)
Definition screenToWorldIso (camera : CameraState) (sx sy : R) : R * R :=
  let adjX := (sx - px (offset camera)) / zoom camera in
  let adjY := (sy - py (offset camera)) / zoom camera in
  let term1 := adjX / ISO_X_SCALE in
  let term2 := adjY / ISO_Y_SCALE in
  let rx := (term1 + term2) / 2 in
  let rz := (term2 - term1) / 2 in
  let cosR := cos (- rotation camera) in
  let sinR := sin (- rotation camera) in
  (rx * cosR - rz * sinR, rx * sinR + rz * cosR).

Inductive Direction := LEFT | RIGHT.

(** [rotateCamera] about the screen centre [(cx, cy)].  The pivot is read
    from the [camera] of the render, the update is applied to the state
    [prev] at the time it runs. *)
Definition rotateCamera (isPaused : bool) (camera : CameraState) (cx cy : R)
    (direction : Direction) (prev : CameraState) : CameraState :=
  if isPaused then prev
  else
    let angleDelta :=
      PI / 4 * (match direction with LEFT => 1 | RIGHT => -1 end) in
    let pivot := screenToWorldIso camera cx cy in
    let newRot := rotation prev + angleDelta in
    let cosR := cos newRot in
    let sinR := sin newRot in
    let rx := pivot.1 * cosR - pivot.2 * sinR in
    let rz := pivot.1 * sinR + pivot.2 * cosR in
    let isoX := (rx - rz) * ISO_X_SCALE in
    let isoY := (rx + rz) * ISO_Y_SCALE in
    let screenX := isoX * zoom prev + px (offset prev) in
    let screenY := isoY * zoom prev + py (offset prev) in
    mkCameraState
      (mkPoint2 (px (offset prev) + (cx - screenX))
         (py (offset prev) + (cy - screenY)))
      (zoom prev) newRot.

Definition handleZoom (isPaused : bool) (delta : R) (prev : CameraState)
    : CameraState :=
  if isPaused then prev
  else mkCameraState (offset prev) (Rmax 0.3 (Rmin 3 (zoom prev + delta)))
         (rotation prev).

(** The new zoom is computed from the [camera] of the render. *)
Definition handleWheel (isPaused : bool) (camera : CameraState) (deltaY : R)
    (p : CameraState) : CameraState :=
  if isPaused then p
  else
    let newZoom := Rmax 0.5 (Rmin 3 (zoom camera - deltaY * 0.001)) in
    mkCameraState (offset p) newZoom (rotation p).

(** ** GameCanvas.tsx: the shot of a drag *)

(** The result of [calculateShotPhysics]. *)
Record ShotPhysics := mkShotPhysics {
  shot_velocity : Vector3;
  shot_force : R;
  shot_maxForce : R;
  shot_powerRatio : R;
  shot_launchAngle : R;
  shot_mass : R;
  shot_contactTime : R
}.

Definition calculateShotPhysics (camera : CameraState)
    (selectedClub : ClubType) (dragStart dragCurrent : option Point2)
    : option ShotPhysics :=
  match dragStart, dragCurrent with
  | Some ds, Some dc =>
    let sx := px ds - px dc in
    let sy := py ds - py dc in
    let term1 := sx / ISO_X_SCALE in
    let term2 := sy / ISO_Y_SCALE in
    let rx := (term1 + term2) / 2 in
    let rz := (term2 - term1) / 2 in
    let invRot := - rotation camera in
    let vx := rx * cos invRot - rz * sin invRot in
    let vz := rx * sin invRot + rz * cos invRot in
    let dragLen := sqrt (sx * sx + sy * sy) in
    let powerRatio := Rmin dragLen MAX_DRAG_DISTANCE / MAX_DRAG_DISTANCE in
    let club := CLUB_STATS selectedClub in
    let force := powerRatio * maxForce club in
    let velocityMag :=
      force * PHYSICS_CONSTANTS.CONTACT_TIME / PHYSICS_CONSTANTS.BALL_MASS in
    let angleDeg := minAngle club + (1 - powerRatio) * angleRange club in
    let angleRad := angleDeg * (PI / 180) in
    let vY := velocityMag * sin angleRad in
    let vH := velocityMag * cos angleRad in
    let worldLen := sqrt (vx * vx + vz * vz) in
    let dirX := if decide (worldLen = 0) then 0 else vx / worldLen in
    let dirZ := if decide (worldLen = 0) then 0 else vz / worldLen in
    Some (mkShotPhysics (mkVector3 (dirX * vH) vY (dirZ * vH)) force
            (maxForce club) powerRatio angleDeg
            PHYSICS_CONSTANTS.BALL_MASS PHYSICS_CONSTANTS.CONTACT_TIME)
  | _, _ => None
  end.

(** ** GameCanvas.tsx: the pointer handlers *)

Inductive DragMode := NONE | PAN | AIM.

#[global] Instance DragMode_eq_dec : EqDecision DragMode.
Proof. solve_decision. Defined.

(** The state of the canvas component that the handlers read and write. *)
Record Canvas := mkCanvas {
  camera : CameraState;
  dragMode : DragMode;
  dragStart : option Point2;
  dragCurrent : option Point2;
  isHoveringBall : bool
}.

(** The properties the component is rendered with. *)
Record CanvasProps := mkCanvasProps {
  prop_ballPosition : Vector3;
  prop_gamePhase : GamePhase;
  prop_selectedClub : ClubType;
  prop_isPaused : bool
}.

(** Whether the pointer at [(clientX, clientY)] is over the ball while
    AIMING. *)
Definition overBall (props : CanvasProps) (c : Canvas) (clientX clientY : R)
    : bool :=
  let ballScreen := worldToScreen (camera c) (prop_ballPosition props) in
  let dist :=
    sqrt ((clientX - screen_x ballScreen) * (clientX - screen_x ballScreen)
          + (clientY - screen_y ballScreen) * (clientY - screen_y ballScreen))
  in
  bool_decide (dist < 60 * zoom (camera c) /\ prop_gamePhase props = AIMING).

Definition handlePointerDown (props : CanvasProps) (clientX clientY : R)
    (c : Canvas) : Canvas :=
  if prop_isPaused props then c
  else
    mkCanvas (camera c)
      (if overBall props c clientX clientY then AIM else PAN)
      (Some (mkPoint2 clientX clientY)) (Some (mkPoint2 clientX clientY))
      (isHoveringBall c).

(** [None] is the TypeError of [dragCurrent!.x] on a [dragCurrent] that is
    [null]. *)
Definition handlePointerMove (props : CanvasProps) (clientX clientY : R)
    (c : Canvas) : option Canvas :=
  if prop_isPaused props then Some c
  else
    let hover := overBall props c clientX clientY in
    match dragMode c with
    | NONE =>
      Some (mkCanvas (camera c) (dragMode c) (dragStart c) (dragCurrent c)
              hover)
    | PAN =>
      match dragCurrent c with
      | None => None
      | Some cur =>
        let dx := clientX - px cur in
        let dy := clientY - py cur in
        let p := camera c in
        Some (mkCanvas
                (mkCameraState
                   (mkPoint2 (px (offset p) + dx) (py (offset p) + dy))
                   (zoom p) (rotation p))
                (dragMode c) (dragStart c) (Some (mkPoint2 clientX clientY))
                hover)
      end
    | AIM =>
      Some (mkCanvas (camera c) (dragMode c) (dragStart c)
              (Some (mkPoint2 clientX clientY)) hover)
    end.

(** The new state and the velocity handed to [onShoot], if any. *)
Definition handlePointerUp (props : CanvasProps) (c : Canvas)
    : Canvas * option Vector3 :=
  if prop_isPaused props then (c, None)
  else
    let shot :=
      match dragMode c with
      | AIM =>
        match calculateShotPhysics (camera c) (prop_selectedClub props)
                (dragStart c) (dragCurrent c) with
        | Some phys =>
          if decide (shot_powerRatio phys > 0.1)
          then Some (shot_velocity phys) else None
        | None => None
        end
      | _ => None
      end in
    (mkCanvas (camera c) NONE None None (isHoveringBall c), shot).

(** The camera the component starts with. *)
Definition initialCamera : CameraState :=
  mkCameraState (mkPoint2 0 0) 1 (- PI / 4).

Definition initialCanvas : Canvas :=
  mkCanvas initialCamera NONE None None false.

(** The camera set on the first render with tiles: it looks from the ball
    towards the hole. *)
Definition initializedCamera (ballPosition holePosition : Vector3)
    (innerWidth innerHeight : R) : CameraState :=
  let dx := x holePosition - x ballPosition in
  let dz := z holePosition - z ballPosition in
  let targetAngle := atan2 dz dx in
  let startRotation := - targetAngle - PI / 4 in
  mkCameraState (mkPoint2 (innerWidth / 2) (innerHeight * 0.5)) 1
    startRotation.

(** ** levelGenerator.ts: the last phase of generateLevel *)

(** [generateLevel] draws its terrain with [Math.random]; what it does after
    the last random draw (step 5, "Finalize Start/End", and the flattening
    into the tile array) is a function of the two arrays, of the ground of
    the biome and of the places of the tee and the hole. *)

Inductive Biome := MEADOW | DESERT | ALPINE.

(** [baseGround] as set from the biome. *)
Definition baseGroundOf (biome : Biome) : TileType :=
  match biome with
  | DESERT => SAND
  | ALPINE => GRAVEL
  | MEADOW => ROUGH
  end.

(** [const size = 32] *)
Definition gridSize : Z := 32.

(** The arrays [grid] and [heightMap], as functions of the two indices. *)
Record Terrain := mkTerrain {
  grid : Z -> Z -> TileType;
  heightMap : Z -> Z -> R
}.

(** [arr[a][b] = v] *)
Definition setCell {A : Type} (arr : Z -> Z -> A) (a b : Z) (v : A)
    : Z -> Z -> A :=
  fun a' b' => if decide (a' = a /\ b' = b) then v else arr a' b'.

(** The body of the loops of [clearRadius] at the cell [(tx, tz)]. *)
Definition clearCell (baseGround : TileType) (t : Terrain) (c : Z * Z)
    : Terrain :=
  if decide ((0 <= c.1 < gridSize)%Z /\ (0 <= c.2 < gridSize)%Z) then
    if decide (grid t c.1 c.2 = TREE \/ grid t c.1 c.2 = OBSTACLE
               \/ grid t c.1 c.2 = WATER)
    then mkTerrain (setCell (grid t) c.1 c.2 baseGround)
           (setCell (heightMap t) c.1 c.2 0)
    else t
  else t.

(** The cells [(cx + i, cz + j)] in the order of the two nested loops. *)
Definition cellsAround (cx cz r : Z) : list (Z * Z) :=
  i ← seqZ (- r) (2 * r + 1);
  j ← seqZ (- r) (2 * r + 1);
  [((cx + i)%Z, (cz + j)%Z)].

Definition clearRadius (baseGround : TileType) (cx cz r : Z) (t : Terrain)
    : Terrain :=
  foldl (clearCell baseGround) t (cellsAround cx cz r).

(** "Flatten to Tile Array": one tile per cell, [x] in the outer loop. *)
Definition flattenTiles (t : Terrain) : list Tile :=
  a ← seqZ 0 gridSize;
  b ← seqZ 0 gridSize;
  [mkTile a b (heightMap t a b) (grid t a b)].

(** The level returned for the terrain [t] that the random phases left. *)
Definition finalizeLevel (baseGround : TileType) (startX startZ endX endZ : Z)
    (t : Terrain) : Level :=
  let t1 := clearRadius baseGround startX startZ 2 t in
  let t2 := clearRadius baseGround endX endZ 2 t1 in
  let grid3 := setCell (grid t2) startX startZ GREEN in
  let grid4 := setCell grid3 endX endZ GREEN in
  mkLevel (flattenTiles (mkTerrain grid4 (heightMap t2)))
    (mkVector3 (IZR startX) 0.15 (IZR startZ))
    (mkVector3 (IZR endX) 0 (IZR endZ))
    4.

(** * Vocabulary of the properties *)

(** ** Speeds, normals and collisions *)

(** The horizontal speed of a velocity. *)
Definition horizontalSpeed (v : Vector3) : R :=
  magnitude (mkVector3 (x v) 0 (z v)).

(** The component of the horizontal velocity along a horizontal normal. *)
Definition normalDot (n : R * R) (v : Vector3) : R := x v * n.1 + z v * n.2.

(** The collision with [obs] fires on a ball at [p]: low enough, and inside
    the collider radius. *)
Definition fires (obs : Tile) (p : Vector3) : Prop :=
  ~ y p > height obs + 3
  /\ (x p - IZR (tile_x obs)) * (x p - IZR (tile_x obs))
     + (z p - IZR (tile_z obs)) * (z p - IZR (tile_z obs))
     < minDist (type obs) * minDist (type obs).

(** [obs] is the only TREE or OBSTACLE among the 25 cells that the scan
    around [p] visits. *)
Definition onlyColliderNear (tileMap : gmap (Z * Z) Tile) (obs : Tile)
    (p : Vector3) : Prop :=
  forall i j t,
    (-2 <= i <= 2)%Z -> (-2 <= j <= 2)%Z ->
    tileMap !! tileKey (round (x p) + i) (round (z p) + j) = Some t ->
    isCollider (type t) = true ->
    tileKey (round (x p) + i) (round (z p) + j)
    = tileKey (tile_x obs) (tile_z obs).

(** No TREE or OBSTACLE other than [obs], among the 25 cells that the scan
    around [p] visits, fires on a ball at [p] or on a ball at [p']. *)
Definition noOtherFires (tileMap : gmap (Z * Z) Tile) (obs : Tile)
    (p p' : Vector3) : Prop :=
  forall i j t,
    (-2 <= i <= 2)%Z -> (-2 <= j <= 2)%Z ->
    tileMap !! tileKey (round (x p) + i) (round (z p) + j) = Some t ->
    isCollider (type t) = true ->
    tileKey (round (x p) + i) (round (z p) + j)
    <> tileKey (tile_x obs) (tile_z obs) ->
    ~ fires t p /\ ~ fires t p'.

(** The factor by which the friction update scales the horizontal
    velocity. *)
Definition frictionFactor (finalTile : option Tile) (config : PhysicsConfig)
    (dt : R) (newVel : Vector3) : R :=
  if decide (y newVel = 0) then
    let frictionMag :=
      getFrictionForTile (type <$> finalTile) config * gravity config * dt in
    let speed := horizontalSpeed newVel in
    if decide (speed > 0) then
      if decide (speed <= frictionMag) then 0
      else (speed - frictionMag) / speed
    else 1
  else 1 - 1.0 * dt.

(** Two configurations that agree on every field but [maxVelocity]. *)
Definition sameExceptMaxVelocity (c1 c2 : PhysicsConfig) : Prop :=
  gravity c1 = gravity c2
  /\ dragAir c1 = dragAir c2
  /\ frictionGround c1 = frictionGround c2
  /\ frictionSand c1 = frictionSand c2
  /\ frictionGreen c1 = frictionGreen c2
  /\ frictionGravel c1 = frictionGravel c2
  /\ frictionRough c1 = frictionRough c2
  /\ restitution c1 = restitution c2
  /\ minVelocityToStop c1 = minVelocityToStop c2.

(** ** The prediction loop, iteration by iteration *)

(** The state of the prediction loop at the head of an iteration. *)
Record LoopState := mkLoopState {
  fuel : nat;
  iteration : nat;
  currentPos : Vector3;
  currentVel : Vector3;
  path : list Vector3
}.

(** The rest of the loop from a state. *)
Definition runLoop (config : PhysicsConfig) (tileMap : gmap (Z * Z) Tile)
    (dt : R) (st : LoopState) : list Vector3 :=
  predictLoop config tileMap dt (fuel st) (iteration st) (currentPos st)
    (currentVel st) (path st).

(** One iteration that neither breaks nor runs out of steps. *)
Inductive loopStep (config : PhysicsConfig) (tileMap : gmap (Z * Z) Tile)
    (dt : R) : LoopState -> LoopState -> Prop :=
| loopStep_continue n i cp cv l :
    let r := calculateNextState cp cv dt config tileMap in
    let floor := checkFloor tileMap cp in
    ~ (y (pos r) <= floor + 0.05 /\ y cv < 0) ->
    ~ (y (pos r) <= floor /\ Rabs (y (vel r)) < 0.1 /\ (0 < i)%nat) ->
    loopStep config tileMap dt (mkLoopState (S n) i cp cv l)
      (mkLoopState n (S i) (pos r) (vel r) (l ++ [pos r])).

(** The loop states that a call of [predictTrajectory] goes through. *)
Definition loopReaches (startPos startVel : Vector3) (config : PhysicsConfig)
    (levelTiles : list Tile) (steps : nat) (dt : R) (st : LoopState) : Prop :=
  rtc (loopStep config (buildTileMap levelTiles) dt)
    (mkLoopState steps 0 startPos startVel [startPos]) st.

(** ** The phase machine and the BallState invariant *)

(** The three ways a stopped ball is out of bounds. *)
Definition offCourse (tileMap : gmap (Z * Z) Tile) (b : BallState) : Prop :=
  tileAt tileMap (position b) = None
  \/ (exists t, tileAt tileMap (position b) = Some t /\ type t = WATER)
  \/ y (position b) < -5.

(** What the data model asks of a ball state, for the hole of the level. *)
Definition stoppedInv (b : BallState) : Prop :=
  isMoving b = false -> velocity b = zeroVector.

Definition holedInv (hole : Vector3) (b : BallState) : Prop :=
  inHole b = true -> position b = hole /\ velocity b = zeroVector.

Definition ballInvariant (g : Game) : Prop :=
  stoppedInv (ballState g) /\ holedInv (holePosition (level g)) (ballState g).

(** The operations of the game: the handlers, the animation frame, the
    phase-transition effect and the firing of a reset timer. *)
Inductive gameStep : Game -> Game -> Prop :=
| step_shoot v g : gameStep g (handleShoot v g)
| step_frame elapsedMs g : gameStep g (updatePhysics elapsedMs g)
| step_phase g : gameStep g (phaseTransition g)
| step_timer g : gameStep g (timerFires g)
| step_restart newLevel g : gameStep g (handleRestart newLevel g)
| step_nextLevel newLevel g : gameStep g (handleNextLevel newLevel g)
| step_pause g : gameStep g (togglePause g).

(** The states of a session that starts on level [l]. *)
Definition reachable (l : Level) (g : Game) : Prop :=
  rtc gameStep (initialGame l) g.

(** The ball invariant together with "a holed ball does not move". *)
Definition ballOK (hole : Vector3) (b : BallState) : Prop :=
  stoppedInv b /\ holedInv hole b /\ (inHole b = true -> isMoving b = false).

(** The operations of the game, with a restart or a level change only when
    no reset timer is pending. *)
Inductive safeStep : Game -> Game -> Prop :=
| safe_shoot v g : safeStep g (handleShoot v g)
| safe_frame elapsedMs g : safeStep g (updatePhysics elapsedMs g)
| safe_phase g : safeStep g (phaseTransition g)
| safe_timer g : safeStep g (timerFires g)
| safe_restart newLevel g :
    pendingResets g = O -> safeStep g (handleRestart newLevel g)
| safe_nextLevel newLevel g :
    pendingResets g = O -> safeStep g (handleNextLevel newLevel g)
| safe_pause g : safeStep g (togglePause g).

(** The invariant of the runs of [safeStep]: the ball invariant; while
    AIMING the ball is neither holed nor moving; a pending reset timer is the
    only one, the phase is OUT_OF_BOUNDS and the ball lies still outside the
    hole. *)
Definition gameInv (g : Game) : Prop :=
  ballOK (holePosition (level g)) (ballState g)
  /\ (gamePhase g = AIMING ->
      inHole (ballState g) = false /\ isMoving (ballState g) = false)
  /\ (pendingResets g <> O ->
      gamePhase g = OUT_OF_BOUNDS /\ inHole (ballState g) = false
      /\ isMoving (ballState g) = false /\ pendingResets g = 1%nat).

(** ** Tiles, maps, levels and runs of the examples *)

Definition fairwayTile : Tile := mkTile 0 0 0 FAIRWAY.

Definition waterTile : Tile := mkTile 0 0 0 WATER.

(** A single fairway tile, and a single water tile, at the origin. *)
Definition fairway : gmap (Z * Z) Tile := {[ tileKey 0 0 := fairwayTile ]}.

Definition pond : gmap (Z * Z) Tile := {[ tileKey 0 0 := waterTile ]}.

(** A rock at the origin, alone and with water to its east. *)
Definition rock : Tile := mkTile 0 0 0 OBSTACLE.

Definition rockAlone : gmap (Z * Z) Tile := {[ tileKey 0 0 := rock ]}.

Definition rockByWater : gmap (Z * Z) Tile :=
  <[tileKey 0 0 := rock]> {[ tileKey 1 0 := mkTile 1 0 0 WATER ]}.

(** A rock at the origin with a tree two cells to its east, and with a
    second rock on the next cell to its east. *)
Definition rockAndTree : gmap (Z * Z) Tile :=
  <[tileKey 0 0 := rock]> {[ tileKey 2 0 := mkTile 2 0 1 TREE ]}.

Definition rockPair : gmap (Z * Z) Tile :=
  <[tileKey 0 0 := rock]> {[ tileKey 1 0 := mkTile 1 0 0 OBSTACLE ]}.

(** The configuration of the game with another speed limit. *)
Definition slowConfig : PhysicsConfig :=
  mkPhysicsConfig 35 0.8 0.4 8 0.15 5 0.8 0.4 1 0.2.

(** A level of one fairway tile with the hole five tiles away. *)
Definition fairwayLevel : Level :=
  mkLevel [fairwayTile] (mkVector3 0 0.15 0) (mkVector3 5 0 0) 4.

(** A level whose tee lies just above a water tile, and a level whose tee
    lies 0.1 from the hole. *)
Definition pondLevel : Level :=
  mkLevel [waterTile] (mkVector3 0 0.003 0) (mkVector3 5 0 0) 4.

Definition puttLevel : Level :=
  mkLevel [fairwayTile] (mkVector3 0.1 0.15 0) zeroVector 4.

(** The race: a shot into the water starts the reset timer; the player
    restarts before it fires and holes the next shot; then the timer
    fires. *)
Definition afterSink : Game :=
  phaseTransition
    (updatePhysics 80 (handleShoot (mkVector3 1 0 0) (initialGame pondLevel))).

Definition afterPutt : Game :=
  phaseTransition
    (updatePhysics 80
       (handleShoot (mkVector3 2 0 0) (handleRestart puttLevel afterSink))).

Definition afterStaleReset : Game := timerFires afterPutt.

(** A fairway tile of height 1 at the origin, with nothing around it. *)
Definition plateauTile : Tile := mkTile 0 0 1 FAIRWAY.

(** ** Further notions *)

(** The coordinates under which [buildTileMap] files a tile. *)
Definition tileCoords (t : Tile) : Z * Z := tileKey (tile_x t) (tile_z t).

(** The horizontal position [p] lies outside the collider radius of every
    TREE and OBSTACLE among the 25 cells scanned around it. *)
Definition outsideColliders (tileMap : gmap (Z * Z) Tile) (p : Vector3)
    : Prop :=
  forall i j t,
    (-2 <= i <= 2)%Z -> (-2 <= j <= 2)%Z ->
    tileMap !! tileKey (round (x p) + i) (round (z p) + j) = Some t ->
    isCollider (type t) = true ->
    minDist (type t) * minDist (type t)
    <= (x p - IZR (tile_x t)) * (x p - IZR (tile_x t))
       + (z p - IZR (tile_z t)) * (z p - IZR (tile_z t)).

(** The square of the horizontal distance from [p] to the centre of a
    tile. *)
Definition distSqTo (obs : Tile) (p : Vector3) : R :=
  (x p - IZR (tile_x obs)) * (x p - IZR (tile_x obs))
  + (z p - IZR (tile_z obs)) * (z p - IZR (tile_z obs)).

(** ** Further notions of the game *)

(** The operations that happen without the player shooting, restarting or
    changing level: a frame, the phase effect, a reset timer firing, and
    pausing. *)
Inductive playStep : Game -> Game -> Prop :=
| play_frame elapsedMs g : playStep g (updatePhysics elapsedMs g)
| play_phase g : playStep g (phaseTransition g)
| play_timer g : playStep g (timerFires g)
| play_pause g : playStep g (togglePause g).

(** What the phase machine keeps of phase, lives and score. *)
Definition phaseInv (g : Game) : Prop :=
  gamePhase g <> IDLE /\ gamePhase g <> HOLED
  /\ (lives g <= STARTING_LIVES)%Z
  /\ (0 <= levelScore g)%Z
  /\ (gamePhase g = GAME_OVER -> (lives g <= 0)%Z)
  /\ (gamePhase g = LEVEL_COMPLETE -> (1 <= levelScore g)%Z).

(** ** The events of the canvas *)

(** [setCamera] with a new camera. *)
Definition setCamera (cam : CameraState) (c : Canvas) : Canvas :=
  mkCanvas cam (dragMode c) (dragStart c) (dragCurrent c) (isHoveringBall c).

(** The events of the canvas: the first render with tiles, the rotation and
    zoom controls, the wheel, and the pointer handlers; the properties may
    differ from one event to the next. *)
Inductive canvasStep : Canvas -> Canvas -> Prop :=
| canvas_init ball hole innerWidth innerHeight c :
    canvasStep c
      (setCamera (initializedCamera ball hole innerWidth innerHeight) c)
| canvas_rotate paused cx cy dir c :
    canvasStep c
      (setCamera (rotateCamera paused (camera c) cx cy dir (camera c)) c)
| canvas_zoom paused delta c :
    canvasStep c (setCamera (handleZoom paused delta (camera c)) c)
| canvas_wheel paused deltaY c :
    canvasStep c
      (setCamera (handleWheel paused (camera c) deltaY (camera c)) c)
| canvas_down props clientX clientY c :
    canvasStep c (handlePointerDown props clientX clientY c)
| canvas_move props clientX clientY c c' :
    handlePointerMove props clientX clientY c = Some c' -> canvasStep c c'
| canvas_up props c : canvasStep c (handlePointerUp props c).1.

Definition canvasReachable (c : Canvas) : Prop :=
  rtc canvasStep initialCanvas c.

(** The zoom stays within its limits, and a drag in progress has its start
    and its current point. *)
Definition canvasInv (c : Canvas) : Prop :=
  0.3 <= zoom (camera c) <= 3
  /\ (dragMode c <> NONE -> is_Some (dragStart c) /\ is_Some (dragCurrent c)).

(** ** Further notions of the level *)

(** The tile types that [clearRadius] removes. *)
Definition hazard (ty : TileType) : Prop :=
  ty = TREE \/ ty = OBSTACLE \/ ty = WATER.

(** A cell of the grid. *)
Definition inGrid (a b : Z) : Prop :=
  (0 <= a < gridSize)%Z /\ (0 <= b < gridSize)%Z.

(** The cell [(a, b)] is at most [r] rows and [r] columns from [(cx, cz)]. *)
Definition around (cx cz r a b : Z) : Prop :=
  (cx - r <= a <= cx + r)%Z /\ (cz - r <= b <= cz + r)%Z.

(** * Properties *)

(** ** Numbers and vectors *)

Lemma round_eq (k : Z) (r : R) : IZR k - / 2 <= r < IZR k + / 2 -> round r = k.
Proof. intros H. unfold round. apply Zfloor_eq. lra. Qed.

Lemma round_bound (r : R) : IZR (round r) - / 2 <= r < IZR (round r) + / 2.
Proof. unfold round. pose proof (Zfloor_bound (r + / 2)). lra. Qed.

Lemma magnitude_nonneg (v : Vector3) : 0 <= magnitude v.
Proof. apply sqrt_pos. Qed.

Lemma magnitude_zero : magnitude zeroVector = 0.
Proof.
  unfold magnitude, zeroVector; cbn [x y z].
  replace (0 * 0 + 0 * 0 + 0 * 0) with 0 by lra. apply sqrt_0.
Qed.

(** A bound on the squares bounds the magnitude. *)
Lemma magnitude_lt (v : Vector3) (c : R) :
  0 < c -> x v * x v + y v * y v + z v * z v < c * c -> magnitude v < c.
Proof.
  intros Hc H. unfold magnitude.
  rewrite <- (sqrt_square c) by lra.
  apply sqrt_lt_1_alt. split; [nra | exact H].
Qed.


Lemma horizontalSpeed_scale (v : Vector3) (k yv : R) :
  horizontalSpeed (mkVector3 (x v * k) yv (z v * k))
  = Rabs k * horizontalSpeed v.
Proof.
  unfold horizontalSpeed, magnitude; cbn [x y z].
  replace (x v * k * (x v * k) + 0 * 0 + z v * k * (z v * k))
    with (Rsqr k * (x v * x v + 0 * 0 + z v * z v)) by (unfold Rsqr; lra).
  rewrite sqrt_mult_alt by apply Rle_0_sqr.
  now rewrite sqrt_Rsqr_abs.
Qed.

(** ** The collision scan *)

Lemma foldl_fixed {A B} (f : A -> B -> A) (l : list B) (a : A) :
  (forall b, b ∈ l -> f a b = a) -> foldl f a l = a.
Proof.
  induction l as [|b l IH]; intros H; [reflexivity|]. cbn [foldl].
  rewrite (H b) by (left). apply IH. intros b' Hb'. apply H. now right.
Qed.

(** Without a TREE or an OBSTACLE in the map the scan changes nothing. *)
Lemma collideAll_no_collider (tileMap : gmap (Z * Z) Tile)
    (st : Vector3 * Vector3) :
  (forall k t, tileMap !! k = Some t -> isCollider (type t) = false) ->
  collideAll tileMap st = st.
Proof.
  intros H. unfold collideAll. apply foldl_fixed. intros ij _.
  unfold scanCell.
  destruct (tileMap !! _) as [obs|] eqn:E; [|reflexivity].
  now rewrite (H _ _ E).
Qed.

(** The scan never touches the height of the ball or its vertical
    velocity. *)
Lemma collideObstacle_y (obs : Tile) (st : Vector3 * Vector3) :
  y (collideObstacle obs st).1 = y st.1
  /\ y (collideObstacle obs st).2 = y st.2.
Proof.
  destruct st as [p v]. unfold collideObstacle.
  repeat case_decide; cbn [fst snd y]; auto.
Qed.

Lemma collideAll_y (tileMap : gmap (Z * Z) Tile) (st : Vector3 * Vector3) :
  y (collideAll tileMap st).1 = y st.1 /\ y (collideAll tileMap st).2 = y st.2.
Proof.
  unfold collideAll.
  generalize (round (x st.1)) (round (z st.1)). intros cx cz.
  generalize scanOffsets. intros l. revert st.
  induction l as [|ij l IH]; intros st; [auto|]. cbn [foldl].
  destruct (IH (scanCell tileMap cx cz st ij)) as [-> ->].
  unfold scanCell. destruct (tileMap !! _) as [obs|]; [|auto].
  destruct (isCollider _); [apply collideObstacle_y|auto].
Qed.

(** ** The ground response *)

Lemma groundResponse_airborne (tileMap : gmap (Z * Z) Tile)
    (config : PhysicsConfig) (dt : R) (p v : Vector3) :
  floorHeight (tileAt tileMap p) < y p ->
  groundResponse tileMap config dt (p, v) = mkStepResult p v None.
Proof.
  intros H. unfold groundResponse. case_decide; [lra|reflexivity].
Qed.

Lemma groundResponse_water (tileMap : gmap (Z * Z) Tile)
    (config : PhysicsConfig) (dt : R) (p v : Vector3) :
  y p <= floorHeight (tileAt tileMap p) ->
  type <$> tileAt tileMap p = Some WATER ->
  groundResponse tileMap config dt (p, v)
  = mkStepResult (mkVector3 (x p) (floorHeight (tileAt tileMap p)) (z p))
      zeroVector (Some "WATER"%string).
Proof.
  intros H W. unfold groundResponse.
  case_decide; [|lra]. case_decide; [reflexivity|contradiction].
Qed.

Lemma groundResponse_ground (tileMap : gmap (Z * Z) Tile)
    (config : PhysicsConfig) (dt : R) (p v : Vector3) :
  y p <= floorHeight (tileAt tileMap p) ->
  type <$> tileAt tileMap p <> Some WATER ->
  groundResponse tileMap config dt (p, v)
  = mkStepResult (mkVector3 (x p) (floorHeight (tileAt tileMap p)) (z p))
      (frictionUpdate (tileAt tileMap p) config dt (bounce config v)) None.
Proof.
  intros H W. unfold groundResponse.
  case_decide; [|lra]. case_decide; [contradiction|reflexivity].
Qed.

(** The step reports WATER exactly from the water branch. *)
Lemma groundResponse_collision (tileMap : gmap (Z * Z) Tile)
    (config : PhysicsConfig) (dt : R) (st : Vector3 * Vector3) :
  collision (groundResponse tileMap config dt st) = Some "WATER"%string
  <-> y st.1 <= floorHeight (tileAt tileMap st.1)
      /\ type <$> tileAt tileMap st.1 = Some WATER.
Proof.
  destruct st as [p v]. unfold groundResponse; cbn [fst].
  repeat case_decide; cbn [collision]; split; try tauto; try discriminate;
    intros []; try contradiction; lra.
Qed.

(** ** C7 *)

(** C7 (Scenario A, integration order): one step from (0, 0.15, 0) at rest,
    with gravity 35 and dt = 1/60, over a map whose tiles are all FAIRWAY of
    height 0, returns a velocity with negative y and a position with
    y < 0.15. *)
Theorem C7_scenario_A (config : PhysicsConfig) (tileMap : gmap (Z * Z) Tile) :
  gravity config = 35 ->
  (forall k t, tileMap !! k = Some t -> type t = FAIRWAY /\ height t = 0) ->
  let r := calculateNextState (mkVector3 0 0.15 0) zeroVector (1 / 60)
             config tileMap in
  y (vel r) < 0 /\ y (pos r) < 0.15.
Proof.
  intros Hg Hflat r. subst r. unfold calculateNextState, scanned.
  rewrite collideAll_no_collider.
  2:{ intros k t E. destruct (Hflat k t E) as [-> _]. reflexivity. }
  unfold integrate, stepForces, addVectors, scaleVector, zeroVector;
    cbn [x y z]. rewrite Hg.
  rewrite groundResponse_airborne; cbn [x y z vel pos]; [lra|].
  unfold tileAt. destruct (tileMap !! _) as [t|] eqn:E; cbn [floorHeight].
  - destruct (Hflat _ _ E) as [_ ->]. lra.
  - lra.
Qed.

Lemma C7_scenario_A_witness :
  y (vel (calculateNextState (mkVector3 0 0.15 0) zeroVector (1 / 60)
            PHYSICS_CONFIG {[ tileKey 0 0 := fairwayTile ]})) < 0
  /\ y (pos (calculateNextState (mkVector3 0 0.15 0) zeroVector (1 / 60)
               PHYSICS_CONFIG {[ tileKey 0 0 := fairwayTile ]})) < 0.15.
Proof.
  apply (C7_scenario_A PHYSICS_CONFIG {[ tileKey 0 0 := fairwayTile ]}).
  - reflexivity.
  - intros k t E. apply lookup_singleton_Some in E as [_ <-].
    split; reflexivity.
Defined.

(** ** The step, by branch *)

(** The ground response keeps the horizontal position, so the tile under the
    returned position is the step's [finalTile]. *)
Lemma groundResponse_tileAt (tileMap : gmap (Z * Z) Tile)
    (config : PhysicsConfig) (dt : R) (st : Vector3 * Vector3) :
  tileAt tileMap (pos (groundResponse tileMap config dt st))
  = tileAt tileMap st.1.
Proof.
  destruct st as [p v]. unfold groundResponse; cbn [fst].
  repeat case_decide; reflexivity.
Qed.

Lemma step_tileAt (pos0 vel0 : Vector3) (dt : R) (config : PhysicsConfig)
    (tileMap : gmap (Z * Z) Tile) :
  tileAt tileMap (pos (calculateNextState pos0 vel0 dt config tileMap))
  = tileAt tileMap (scanned pos0 vel0 dt config tileMap).1.
Proof. unfold calculateNextState. apply groundResponse_tileAt. Qed.

(** ** The sub-step loop *)

Lemma subStep_stopped (config : PhysicsConfig) (tileMap : gmap (Z * Z) Tile)
    (hole : Vector3) (subDt : R) (s : BallState) :
  isMoving s = false -> subStep config tileMap hole subDt s = (s, true).
Proof. intros H. unfold subStep. now rewrite H. Qed.

(** A ball that does not move is left alone by the loop. *)
Lemma subSteps_stopped (config : PhysicsConfig) (tileMap : gmap (Z * Z) Tile)
    (hole : Vector3) (subDt : R) (n : nat) (s : BallState) :
  isMoving s = false -> subSteps config tileMap hole subDt n s = s.
Proof.
  intros H. destruct n; [reflexivity|]. cbn [subSteps].
  now rewrite subStep_stopped.
Qed.

(** A sub-step that breaks ends the loop of the frame. *)
Lemma subSteps_break (config : PhysicsConfig) (tileMap : gmap (Z * Z) Tile)
    (hole : Vector3) (subDt : R) (n : nat) (s s' : BallState) :
  subStep config tileMap hole subDt s = (s', true) ->
  subSteps config tileMap hole subDt (S n) s = s'.
Proof. intros H. cbn [subSteps]. now rewrite H. Qed.

(** ** C4 *)

(** C4 (water is terminal): when the ball, after integration and the
    collision scan, is at or below the floor and the tile under it is WATER,
    the step returns the event WATER, the zero velocity and the position
    clamped to the floor; a sub-step of the shot loop that made this step
    stores that state with isMoving = false and breaks, so the loop of the
    frame runs no further sub-step. *)
Theorem C4_water_terminal (config : PhysicsConfig)
    (tileMap : gmap (Z * Z) Tile) (pos0 vel0 : Vector3) (dt : R) :
  let st := scanned pos0 vel0 dt config tileMap in
  let floor := floorHeight (tileAt tileMap st.1) in
  y st.1 <= floor ->
  type <$> tileAt tileMap st.1 = Some WATER ->
  let r := calculateNextState pos0 vel0 dt config tileMap in
  collision r = Some "WATER"%string
  /\ vel r = zeroVector
  /\ pos r = mkVector3 (x st.1) floor (z st.1)
  /\ forall (hole lastStable : Vector3) (holed : bool) (n : nat),
       ~ y pos0 < -10 ->
       let s := mkBallState pos0 vel0 true holed lastStable in
       let s' := mkBallState (pos r) zeroVector false holed lastStable in
       subStep config tileMap hole dt s = (s', true)
       /\ subSteps config tileMap hole dt (S n) s = s'.
Proof.
  intros st floor Hy Hw r.
  assert (Hr : r = mkStepResult (mkVector3 (x st.1) floor (z st.1)) zeroVector
                     (Some "WATER"%string)).
  { subst r. unfold calculateNextState. fold st.
    destruct st as [p v] eqn:E. now apply groundResponse_water. }
  rewrite Hr; cbn [collision vel pos]. repeat split; try reflexivity.
  - unfold subStep; cbn [isMoving negb position velocity inHole
                           lastStablePosition].
    case_decide; [contradiction|]. fold r. rewrite Hr; cbn [collision vel pos].
    case_decide; [reflexivity|congruence].
  - apply subSteps_break.
    unfold subStep; cbn [isMoving negb position velocity inHole
                           lastStablePosition].
    case_decide; [contradiction|]. fold r. rewrite Hr; cbn [collision vel pos].
    case_decide; [reflexivity|congruence].
Qed.

Lemma pond_no_collider (k : Z * Z) (t : Tile) :
  pond !! k = Some t -> isCollider (type t) = false.
Proof.
  unfold pond. intros E. apply lookup_singleton_Some in E as [_ <-].
  reflexivity.
Qed.

(** A ball dropped on the pond: the state after integration and scan. *)
Lemma pond_scanned :
  scanned zeroVector zeroVector 0.01 PHYSICS_CONFIG pond
  = (mkVector3 0 (-0.0035) 0, mkVector3 0 (-0.35) 0).
Proof.
  unfold scanned. rewrite collideAll_no_collider by apply pond_no_collider.
  unfold integrate, stepForces, addVectors, scaleVector, zeroVector,
    PHYSICS_CONFIG; cbn [x y z gravity dragAir].
  f_equal; f_equal; lra.
Qed.

Lemma round_0 : round 0 = 0%Z.
Proof. apply round_eq. simpl. lra. Qed.

Lemma pond_tileAt (h : R) : tileAt pond (mkVector3 0 h 0) = Some waterTile.
Proof.
  unfold tileAt, pond; cbn [x z]. rewrite round_0. apply lookup_singleton_eq.
Qed.

Lemma C4_water_terminal_witness :
  collision (calculateNextState zeroVector zeroVector 0.01 PHYSICS_CONFIG pond)
  = Some "WATER"%string
  /\ vel (calculateNextState zeroVector zeroVector 0.01 PHYSICS_CONFIG pond)
     = zeroVector.
Proof.
  assert (H := C4_water_terminal PHYSICS_CONFIG pond zeroVector zeroVector
                 0.01).
  cbv zeta in H. rewrite pond_scanned in H. cbn [fst] in H.
  rewrite pond_tileAt in H. cbn [floorHeight waterTile height type fmap
    option_fmap option_map] in H.
  destruct H as (H1 & H2 & _); [cbn [y]; lra|reflexivity|]. split; assumption.
Defined.

(** ** The checks of a sub-step after a step without WATER *)

Lemma subStep_checks (config : PhysicsConfig) (tileMap : gmap (Z * Z) Tile)
    (hole : Vector3) (subDt : R) (s : BallState) :
  isMoving s = true ->
  ~ y (position s) < -10 ->
  let r := calculateNextState (position s) (velocity s) subDt config tileMap in
  collision r <> Some "WATER"%string ->
  subStep config tileMap hole subDt s
  = (mkBallState
       (if holeReached hole r (inHole s) then hole else pos r)
       (if holeReached hole r (inHole s) || isBasicallyStopped config tileMap r
        then zeroVector else vel r)
       (negb (isBasicallyStopped config tileMap r)
        && negb (holeReached hole r (inHole s)))
       (holeReached hole r (inHole s))
       (lastStablePosition s),
     holeReached hole r (inHole s)).
Proof.
  intros Hm Hv r Hw. unfold subStep. rewrite Hm; cbn [negb].
  case_decide; [contradiction|]. fold r.
  case_decide; [contradiction|]. reflexivity.
Qed.

(** Without a TREE or an OBSTACLE, a ball that ends the step above the floor
    gets the integrated state. *)
Lemma step_airborne (config : PhysicsConfig) (tileMap : gmap (Z * Z) Tile)
    (pos0 vel0 : Vector3) (dt : R) :
  (forall k t, tileMap !! k = Some t -> isCollider (type t) = false) ->
  floorHeight (tileAt tileMap (integrate pos0 vel0 dt config).1)
  < y (integrate pos0 vel0 dt config).1 ->
  calculateNextState pos0 vel0 dt config tileMap
  = mkStepResult (integrate pos0 vel0 dt config).1
      (integrate pos0 vel0 dt config).2 None.
Proof.
  intros Hn Hy. unfold calculateNextState, scanned.
  rewrite collideAll_no_collider by exact Hn.
  destruct (integrate pos0 vel0 dt config) as [p v].
  now apply groundResponse_airborne.
Qed.

Lemma tileAt_empty (p : Vector3) : tileAt ∅ p = None.
Proof. apply lookup_empty. Qed.

Ltac unfold_integrate :=
  unfold integrate, stepForces, addVectors, scaleVector, zeroVector,
    PHYSICS_CONFIG;
  cbn [x y z fst snd gravity dragAir].

(** A step in the void: no tile anywhere. *)
Lemma step_void (pos0 vel0 : Vector3) (dt : R) (p v : Vector3) :
  integrate pos0 vel0 dt PHYSICS_CONFIG = (p, v) ->
  -10 < y p ->
  calculateNextState pos0 vel0 dt PHYSICS_CONFIG ∅ = mkStepResult p v None.
Proof.
  intros E Hy. rewrite step_airborne.
  - now rewrite E.
  - intros k t H. now rewrite lookup_empty in H.
  - rewrite E; cbn [fst]. now rewrite tileAt_empty.
Qed.

(** A sub-step whose step ends near the hole at low speed captures the
    ball. *)
Lemma subStep_capture (config : PhysicsConfig) (tileMap : gmap (Z * Z) Tile)
    (hole : Vector3) (subDt : R) (s : BallState) :
  isMoving s = true ->
  ~ y (position s) < -10 ->
  let r := calculateNextState (position s) (velocity s) subDt config tileMap in
  collision r <> Some "WATER"%string ->
  distToHole hole (pos r) < 0.3 ->
  magnitude (vel r) < 5 ->
  subStep config tileMap hole subDt s
  = (mkBallState hole zeroVector false true (lastStablePosition s), true).
Proof.
  intros Hm Hv r Hw Hd Hs.
  rewrite subStep_checks by assumption. fold r.
  assert (Hh : holeReached hole r (inHole s) = true).
  { unfold holeReached. case_decide as H; [reflexivity|].
    exfalso. apply H. now split. }
  rewrite Hh; cbn [orb negb andb]. now rewrite andb_false_r.
Qed.

(** ** The WATER break and the hole check *)

(** The step of the pond example: the ball lands in the water. *)
Lemma pond_step :
  calculateNextState zeroVector zeroVector 0.01 PHYSICS_CONFIG pond
  = mkStepResult zeroVector zeroVector (Some "WATER"%string).
Proof.
  unfold calculateNextState. rewrite pond_scanned.
  rewrite groundResponse_water; rewrite ?pond_tileAt; cbn [y floorHeight];
    try reflexivity.
  cbn [waterTile height]. lra.
Qed.

(** The WATER break of the sub-step comes before its hole check: on a tile
    map with a WATER tile under the hole centre (the level generator never
    builds one: it makes the hole tile GREEN), a ball that lands in the
    water at the hole centre is within 0.3 of the centre with speed 0 after
    the step, and the sub-step leaves inHole false. *)
Lemma water_break_precedes_hole_check :
  let s := mkBallState zeroVector zeroVector true false zeroVector in
  let r := calculateNextState (position s) (velocity s) 0.01 PHYSICS_CONFIG
             pond in
  isMoving s = true
  /\ ~ y (position s) < -10
  /\ distToHole zeroVector (pos r) < 0.3
  /\ magnitude (vel r) < 5
  /\ inHole (subStep PHYSICS_CONFIG pond zeroVector 0.01 s).1 = false.
Proof.
  cbv zeta; cbn [position velocity isMoving].
  unfold subStep; cbn [position velocity isMoving negb inHole].
  rewrite pond_step; cbn [pos vel collision].
  assert (Hd : distToHole zeroVector zeroVector = 0).
  { unfold distToHole, zeroVector; cbn [x z].
    replace (0 - 0) with 0 by lra. apply magnitude_zero. }
  rewrite Hd, magnitude_zero.
  repeat split; try lra.
  - unfold zeroVector; cbn [y]. lra.
  - case_decide as Hv; [unfold zeroVector in Hv; cbn [y] in Hv; lra|].
    case_decide; [reflexivity|congruence].
Qed.

(** ** C10 *)

(** C10 (rest detection over an absent tile): in a sub-step of a moving ball
    that passed the void guard, if no tile lies under the position after the
    step, the speed is below minVelocityToStop and |y| < 0.1, then the rest
    check takes the floor as 0 and declares the ball at rest (isMoving =
    false, zero velocity), while the step itself took the floor of that same
    absent tile as -10. *)
Theorem C10_rest_over_absent_tile (config : PhysicsConfig)
    (tileMap : gmap (Z * Z) Tile) (hole : Vector3) (subDt : R)
    (s : BallState) :
  isMoving s = true ->
  ~ y (position s) < -10 ->
  let r := calculateNextState (position s) (velocity s) subDt config tileMap in
  tileAt tileMap (pos r) = None ->
  magnitude (vel r) < minVelocityToStop config ->
  Rabs (y (pos r)) < 0.1 ->
  checkFloor tileMap (pos r) = 0
  /\ isMoving (subStep config tileMap hole subDt s).1 = false
  /\ velocity (subStep config tileMap hole subDt s).1 = zeroVector
  /\ floorHeight
       (tileAt tileMap
          (scanned (position s) (velocity s) subDt config tileMap).1) = -10.
Proof.
  intros Hm Hv r Ht Hs Hy.
  assert (Hf : checkFloor tileMap (pos r) = 0).
  { unfold checkFloor. now rewrite Ht. }
  assert (Ht' : tileAt tileMap
                  (scanned (position s) (velocity s) subDt config tileMap).1
                = None).
  { rewrite <- step_tileAt. exact Ht. }
  assert (Hw : collision r <> Some "WATER"%string).
  { unfold r, calculateNextState. rewrite groundResponse_collision.
    intros [_ W]. rewrite Ht' in W. discriminate. }
  assert (Hb : isBasicallyStopped config tileMap r = true).
  { unfold isBasicallyStopped. apply bool_decide_eq_true. split; [exact Hs|].
    rewrite Hf. now replace (y (pos r) - 0) with (y (pos r)) by lra. }
  rewrite subStep_checks by assumption. fold r. rewrite Hb.
  cbn [fst isMoving velocity negb andb]. rewrite orb_true_r.
  repeat split; try assumption. now rewrite Ht'.
Qed.

Lemma voidRest_step :
  calculateNextState (mkVector3 0 0.05 0) zeroVector 0.002 PHYSICS_CONFIG ∅
  = mkStepResult (mkVector3 0 0.04986 0) (mkVector3 0 (-0.07) 0) None.
Proof.
  apply step_void.
  - unfold_integrate. f_equal; f_equal; lra.
  - cbn [y]. lra.
Qed.

Lemma C10_rest_over_absent_tile_witness :
  isMoving (subStep PHYSICS_CONFIG ∅ zeroVector 0.002
              (mkBallState (mkVector3 0 0.05 0) zeroVector true false
                 (mkVector3 0 0.05 0))).1 = false.
Proof.
  apply (C10_rest_over_absent_tile PHYSICS_CONFIG ∅ zeroVector 0.002
           (mkBallState (mkVector3 0 0.05 0) zeroVector true false
              (mkVector3 0 0.05 0)));
    cbn [position velocity isMoving]; rewrite ?voidRest_step;
    cbn [pos vel collision].
  - reflexivity.
  - cbn [y]. lra.
  - apply tileAt_empty.
  - apply magnitude_lt; cbn [x y z minVelocityToStop PHYSICS_CONFIG]; lra.
  - cbn [y]. unfold Rabs. destruct (Rcase_abs _); lra.
Defined.

(** ** C2 *)

Lemma outOfBounds_spec (tileMap : gmap (Z * Z) Tile) (b : BallState) :
  outOfBounds tileMap b = true <-> offCourse tileMap b.
Proof.
  unfold outOfBounds, offCourse.
  destruct (tileAt tileMap (position b)) as [t|].
  - rewrite orb_true_iff, !bool_decide_eq_true. split.
    + intros [H|H]; [right; left; eauto|right; right; exact H].
    + intros [H|[(t' & E & W)|H]]; [discriminate| |right; exact H].
      left. congruence.
  - split; [intros _; now left|reflexivity].
Qed.

(** C2 (phase machine, stopped branch): in phase EXECUTING with the ball
    stopped and not in the hole, the next phase is OUT_OF_BOUNDS exactly
    when the tile under the ball is absent or WATER or y < -5, and then a
    reset timer is started whose firing restores the position to
    lastStablePosition and returns to AIMING; otherwise the next phase is
    GAME_OVER exactly when lives <= 0, and AIMING otherwise. *)
Theorem C2_stopped_branch (g : Game) :
  gamePhase g = EXECUTING ->
  isMoving (ballState g) = false ->
  inHole (ballState g) = false ->
  let g' := phaseTransition g in
  (gamePhase g' = OUT_OF_BOUNDS <-> offCourse (gameTileMap g) (ballState g))
  /\ (offCourse (gameTileMap g) (ballState g) ->
        pendingResets g' = S (pendingResets g)
        /\ ballState g' = ballState g
        /\ position (ballState (timerFires g'))
           = lastStablePosition (ballState g)
        /\ gamePhase (timerFires g') = AIMING)
  /\ (~ offCourse (gameTileMap g) (ballState g) ->
        (gamePhase g' = GAME_OVER <-> (lives g <= 0)%Z)
        /\ (gamePhase g' = AIMING <-> (0 < lives g)%Z)).
Proof.
  intros Hp Hm Hh g'. subst g'. unfold phaseTransition.
  rewrite Hp, Hm, Hh. cbn [negb].
  case_decide; [|congruence].
  destruct (outOfBounds (gameTileMap g) (ballState g)) eqn:E.
  - apply outOfBounds_spec in E. cbn [gamePhase pendingResets ballState].
    split; [tauto|]. split; [|tauto]. intros _.
    unfold timerFires; cbn [pendingResets]. unfold resetBall, resetBallState;
      cbn [ballState gamePhase position]. auto.
  - assert (N : ~ offCourse (gameTileMap g) (ballState g)).
    { rewrite <- outOfBounds_spec. congruence. }
    split; [|split; [tauto|]].
    + case_decide; cbn [gamePhase]; split; (discriminate || tauto).
    + intros _. case_decide; cbn [gamePhase]; split; split;
        intros; (discriminate || lia || reflexivity).
Qed.

Lemma C2_stopped_branch_witness :
  gamePhase
    (phaseTransition
       (mkGame fairwayLevel (freshBall fairwayLevel) EXECUTING 4 0 false 0))
  = AIMING <-> (0 < 4)%Z.
Proof.
  apply (C2_stopped_branch
           (mkGame fairwayLevel (freshBall fairwayLevel) EXECUTING 4 0 false
              0)).
  - reflexivity.
  - reflexivity.
  - reflexivity.
  - unfold offCourse, gameTileMap, tileAt, buildTileMap;
      cbn [level tiles fairwayLevel ballState freshBall position startPosition
           foldl x y z fairwayTile tile_x tile_z tileKey].
    rewrite round_0, lookup_insert_eq.
    intros [H|[(t & E & W)|H]]; [discriminate| |lra].
    injection E as <-. discriminate.
Defined.

(** ** The prediction loop *)

Lemma loopStep_runLoop (config : PhysicsConfig) (tileMap : gmap (Z * Z) Tile)
    (dt : R) (st st' : LoopState) :
  loopStep config tileMap dt st st' ->
  runLoop config tileMap dt st = runLoop config tileMap dt st'.
Proof.
  intros H. destruct H as [n i cp cv l r floor H1 H2].
  unfold runLoop; cbn [fuel iteration currentPos currentVel path predictLoop].
  fold r floor. case_decide; [contradiction|]. case_decide; [contradiction|].
  reflexivity.
Qed.

(** The result of the call is the result of the loop from any state it
    goes through. *)
Lemma loopReaches_result (startPos startVel : Vector3) (config : PhysicsConfig)
    (levelTiles : list Tile) (steps : nat) (dt : R) (st : LoopState) :
  loopReaches startPos startVel config levelTiles steps dt st ->
  predictTrajectory startPos startVel config levelTiles steps dt
  = runLoop config (buildTileMap levelTiles) dt st.
Proof.
  unfold loopReaches, predictTrajectory.
  change (predictLoop config (buildTileMap levelTiles) dt steps 0 startPos
            startVel [startPos])
    with (runLoop config (buildTileMap levelTiles) dt
            (mkLoopState steps 0 startPos startVel [startPos])).
  induction 1 as [|a b c Hab _ IH]; [reflexivity|].
  rewrite <- IH. now apply loopStep_runLoop.
Qed.

Lemma orZero_Some (h : R) : orZero (Some h) = h.
Proof. unfold orZero. case_decide; congruence. Qed.

(** Under a tile the check floor is the height of the tile; without a tile it
    is 0. *)
Lemma checkFloor_tile (tileMap : gmap (Z * Z) Tile) (p : Vector3) (t : Tile) :
  tileAt tileMap p = Some t -> checkFloor tileMap p = height t.
Proof. intros E. unfold checkFloor. rewrite E. apply orZero_Some. Qed.

Lemma checkFloor_absent (tileMap : gmap (Z * Z) Tile) (p : Vector3) :
  tileAt tileMap p = None -> checkFloor tileMap p = 0.
Proof. intros E. unfold checkFloor. now rewrite E. Qed.

(** ** C9 *)

Section MaxVelocity.
Variables c1 c2 : PhysicsConfig.
Hypothesis Hsame : sameExceptMaxVelocity c1 c2.

Lemma step_maxVelocity (pos0 vel0 : Vector3) (dt : R)
    (tileMap : gmap (Z * Z) Tile) :
  calculateNextState pos0 vel0 dt c1 tileMap
  = calculateNextState pos0 vel0 dt c2 tileMap.
Proof using Hsame.
  destruct Hsame as (Hg & Hd & H1 & H2 & H3 & H4 & H5 & Hr & _).
  unfold calculateNextState, scanned, integrate, stepForces.
  rewrite Hg, Hd.
  generalize (collideAll tileMap
    (addVectors pos0
       (scaleVector
          (addVectors vel0
             (scaleVector
                {| x := 0 - x vel0 * dragAir c2;
                   y := - gravity c2 - y vel0 * dragAir c2;
                   z := 0 - z vel0 * dragAir c2 |} dt)) dt),
     addVectors vel0
       (scaleVector
          {| x := 0 - x vel0 * dragAir c2;
             y := - gravity c2 - y vel0 * dragAir c2;
             z := 0 - z vel0 * dragAir c2 |} dt))).
  intros [p v]. unfold groundResponse, frictionUpdate, bounce,
    groundFriction, getFrictionForTile.
  now rewrite Hg, H1, H2, H3, H4, H5, Hr.
Qed.

Lemma predictLoop_maxVelocity (tileMap : gmap (Z * Z) Tile) (dt : R)
    (n i : nat) (cp cv : Vector3) (l : list Vector3) :
  predictLoop c1 tileMap dt n i cp cv l
  = predictLoop c2 tileMap dt n i cp cv l.
Proof using Hsame.
  revert i cp cv l. induction n as [|n IH]; intros i cp cv l;
    [reflexivity|].
  cbn [predictLoop]. rewrite step_maxVelocity.
  repeat case_decide; auto.
Qed.

Lemma subStep_maxVelocity (tileMap : gmap (Z * Z) Tile) (hole : Vector3)
    (subDt : R) (s : BallState) :
  subStep c1 tileMap hole subDt s = subStep c2 tileMap hole subDt s.
Proof using Hsame.
  unfold subStep, isBasicallyStopped. rewrite step_maxVelocity.
  destruct Hsame as (_ & _ & _ & _ & _ & _ & _ & _ & ->). reflexivity.
Qed.

Lemma subSteps_maxVelocity (tileMap : gmap (Z * Z) Tile) (hole : Vector3)
    (subDt : R) (n : nat) (s : BallState) :
  subSteps c1 tileMap hole subDt n s = subSteps c2 tileMap hole subDt n s.
Proof using Hsame.
  revert s. induction n as [|n IH]; intros s; [reflexivity|].
  cbn [subSteps]. rewrite subStep_maxVelocity.
  destruct (subStep c2 tileMap hole subDt s) as [s' []]; auto.
Qed.
End MaxVelocity.

(** C9 (maxVelocity has no effect): for two configurations that differ only
    in maxVelocity, the physics step, the trajectory predictor and the shot
    loop of a frame return the same results on every input. *)
Theorem C9_maxVelocity_unused (c1 c2 : PhysicsConfig) :
  sameExceptMaxVelocity c1 c2 ->
  (forall pos0 vel0 dt tileMap,
     calculateNextState pos0 vel0 dt c1 tileMap
     = calculateNextState pos0 vel0 dt c2 tileMap)
  /\ (forall startPos startVel levelTiles steps dt,
        predictTrajectory startPos startVel c1 levelTiles steps dt
        = predictTrajectory startPos startVel c2 levelTiles steps dt)
  /\ (forall tileMap hole dt prev,
        shotLoop c1 tileMap hole dt prev = shotLoop c2 tileMap hole dt prev).
Proof.
  intros H. split; [|split].
  - intros. now apply step_maxVelocity.
  - intros. unfold predictTrajectory. now apply predictLoop_maxVelocity.
  - intros. unfold shotLoop. now apply subSteps_maxVelocity.
Qed.

Lemma C9_maxVelocity_unused_witness :
  maxVelocity PHYSICS_CONFIG <> maxVelocity slowConfig
  /\ calculateNextState zeroVector zeroVector 0.01 PHYSICS_CONFIG pond
     = calculateNextState zeroVector zeroVector 0.01 slowConfig pond.
Proof.
  split; [cbn [maxVelocity PHYSICS_CONFIG slowConfig]; lra|].
  apply (C9_maxVelocity_unused PHYSICS_CONFIG slowConfig).
  repeat split; reflexivity.
Defined.

(** ** Friction as a scaling of the horizontal velocity *)

Lemma horizontalSpeed_nonneg (v : Vector3) : 0 <= horizontalSpeed v.
Proof. apply magnitude_nonneg. Qed.


Lemma bounce_horizontal (config : PhysicsConfig) (v : Vector3) :
  x (bounce config v) = x v /\ z (bounce config v) = z v.
Proof. unfold bounce. case_decide; cbn [x z]; auto. Qed.

Lemma frictionUpdate_factor (finalTile : option Tile) (config : PhysicsConfig)
    (dt : R) (v : Vector3) :
  frictionUpdate finalTile config dt v
  = mkVector3 (x v * frictionFactor finalTile config dt v) (y v)
      (z v * frictionFactor finalTile config dt v).
Proof.
  unfold frictionUpdate, frictionFactor, groundFriction, nearGroundDrag.
  fold (horizontalSpeed v).
  repeat case_decide; destruct v as [a b c]; cbn [x y z]; f_equal; lra.
Qed.


(** ** C6 *)

Lemma fairway_no_collider (k : Z * Z) (t : Tile) :
  fairway !! k = Some t -> isCollider (type t) = false.
Proof.
  unfold fairway. intros E. apply lookup_singleton_Some in E as [_ <-].
  reflexivity.
Qed.

Lemma fairway_tileAt (a h : R) :
  - / 2 <= a < / 2 -> tileAt fairway (mkVector3 a h 0) = Some fairwayTile.
Proof.
  intros H. unfold tileAt, fairway; cbn [x z].
  rewrite round_0, (round_eq 0 a) by (simpl; lra). apply lookup_singleton_eq.
Qed.





(** ** The collision response *)

Lemma collisionNormal_unit (obs : Tile) (p : Vector3) :
  (collisionNormal obs p).1 * (collisionNormal obs p).1
  + (collisionNormal obs p).2 * (collisionNormal obs p).2 = 1.
Proof.
  unfold collisionNormal; cbn [fst snd].
  set (dx := x p - IZR (tile_x obs)). set (dz := z p - IZR (tile_z obs)).
  case_decide as Hd; [|lra].
  assert (Hs : sqrt (dx * dx + dz * dz) * sqrt (dx * dx + dz * dz)
               = dx * dx + dz * dz) by (apply sqrt_sqrt; nra).
  set (d := sqrt (dx * dx + dz * dz)) in *.
  unfold Rdiv.
  replace (dx * / d * (dx * / d) + dz * / d * (dz * / d))
    with ((d * d) * (/ d * / d)) by (rewrite Hs; lra).
  replace (d * d * (/ d * / d)) with ((d * / d) * (d * / d)) by lra.
  rewrite Rinv_r by lra. lra.
Qed.

(** A collision that fires against an approaching ball reflects the normal
    component of the velocity and scales it by 0.7 * 0.9. *)
Lemma collideObstacle_bounce (obs : Tile) (p v : Vector3) :
  fires obs p ->
  normalDot (collisionNormal obs p) v < 0 ->
  normalDot (collisionNormal obs p) (collideObstacle obs (p, v)).2
  = - (0.7 * 0.9) * normalDot (collisionNormal obs p) v.
Proof.
  intros [Hlow Hin] Hdot.
  pose proof (collisionNormal_unit obs p) as Hu.
  unfold collideObstacle.
  case_decide; [contradiction|]. case_decide; [|contradiction].
  unfold normalDot, collisionNormal in *; cbn [fst snd] in *.
  set (dx := x p - IZR (tile_x obs)) in *.
  set (dz := z p - IZR (tile_z obs)) in *.
  set (d := sqrt (dx * dx + dz * dz)) in *.
  set (nx := if decide (d > 0) then dx / d else 1) in *.
  set (nz := if decide (d > 0) then dz / d else 0) in *.
  case_decide; [|contradiction]. cbn [snd x z]. nra.
Qed.

(** ** The scan against a single obstacle *)

Lemma foldl_single {A B} (f : A -> B -> A) (l : list B) (b : B) (a : A) :
  NoDup l -> b ∈ l ->
  (forall b' a', b' ∈ l -> b' <> b -> f a' b' = a') ->
  foldl f a l = f a b.
Proof.
  induction l as [|c l IH]; intros Hnd Hin Hid.
  - now apply elem_of_nil in Hin.
  - apply NoDup_cons in Hnd as [Hc Hnd]. cbn [foldl].
    apply elem_of_cons in Hin as [->|Hin].
    + apply foldl_fixed. intros b' Hb'. apply Hid; [now right|].
      intros ->. contradiction.
    + rewrite (Hid c a) by (first [left | intros ->; contradiction]).
      apply IH; auto. intros b' a' Hb' Hne. apply Hid; [now right|exact Hne].
Qed.

Lemma scanOffsets_NoDup : NoDup scanOffsets.
Proof. apply (bool_decide_unpack _). vm_compute. reflexivity. Qed.

Lemma scanOffsets_elem (i j : Z) :
  (-1 <= i <= 1)%Z -> (-1 <= j <= 1)%Z -> (i, j) ∈ scanOffsets.
Proof.
  intros Hi Hj.
  assert (Hi' : i = (-1)%Z \/ i = 0%Z \/ i = 1%Z) by lia.
  assert (Hj' : j = (-1)%Z \/ j = 0%Z \/ j = 1%Z) by lia.
  destruct Hi' as [-> | [-> | ->]]; destruct Hj' as [-> | [-> | ->]];
    apply (bool_decide_unpack _); vm_compute; reflexivity.
Qed.

Lemma scanOffsets_bounds (i j : Z) :
  (i, j) ∈ scanOffsets -> (-2 <= i <= 2)%Z /\ (-2 <= j <= 2)%Z.
Proof.
  unfold scanOffsets, checkRadius. intros H.
  apply list_elem_of_bind in H as (i' & H & Hi).
  apply list_elem_of_bind in H as (j' & H & Hj).
  apply list_elem_of_singleton in H. injection H as -> ->.
  apply elem_of_seqZ in Hi, Hj. lia.
Qed.

(** A value within 0.6 of an integer rounds to that integer or to one of its
    neighbours. *)
Lemma round_near (k : Z) (a : R) :
  (a - IZR k) * (a - IZR k) < 0.6 * 0.6 -> (-1 <= round a - k <= 1)%Z.
Proof.
  intros H. pose proof (round_bound a) as Hb.
  assert (Ha : -0.6 < a - IZR k < 0.6) by nra.
  assert (H1 : IZR (round a - k) < IZR 2) by (rewrite minus_IZR; simpl; lra).
  assert (H2 : IZR (-2) < IZR (round a - k)) by (rewrite minus_IZR; simpl; lra).
  apply lt_IZR in H1, H2. lia.
Qed.

Lemma minDist_bound (t : TileType) : 0 < minDist t <= 0.6.
Proof. unfold minDist, colliderRadius, ballRadius. destruct t; lra. Qed.

(** With a single TREE or OBSTACLE in reach, a scan in which the collision
    with it fires is one collision response. *)
Lemma collideAll_single (tileMap : gmap (Z * Z) Tile) (obs : Tile)
    (p v : Vector3) :
  tileMap !! tileKey (tile_x obs) (tile_z obs) = Some obs ->
  isCollider (type obs) = true ->
  onlyColliderNear tileMap obs p ->
  fires obs p ->
  collideAll tileMap (p, v) = collideObstacle obs (p, v).
Proof.
  intros Hobs Hcol Honly [_ Hin]. unfold collideAll; cbn [fst].
  pose proof (minDist_bound (type obs)) as Hm.
  set (dx := x p - IZR (tile_x obs)) in *.
  set (dz := z p - IZR (tile_z obs)) in *.
  assert (Hx : (-1 <= round (x p) - tile_x obs <= 1)%Z).
  { apply round_near. fold dx. nra. }
  assert (Hz : (-1 <= round (z p) - tile_z obs <= 1)%Z).
  { apply round_near. fold dz. nra. }
  rewrite (foldl_single _ _
             ((tile_x obs - round (x p))%Z, (tile_z obs - round (z p))%Z)).
  - unfold scanCell; cbn [fst snd].
    replace (round (x p) + (tile_x obs - round (x p)))%Z with (tile_x obs)
      by lia.
    replace (round (z p) + (tile_z obs - round (z p)))%Z with (tile_z obs)
      by lia.
    now rewrite Hobs, Hcol.
  - apply scanOffsets_NoDup.
  - apply scanOffsets_elem; lia.
  - intros [i j] st Hij Hne. unfold scanCell; cbn [fst snd].
    destruct (tileMap !! tileKey (round (x p) + i) (round (z p) + j))
      as [t|] eqn:E; [|reflexivity].
    destruct (isCollider (type t)) eqn:Ht; [|reflexivity].
    exfalso. apply Hne. apply scanOffsets_bounds in Hij as [Hi Hj].
    pose proof (Honly i j t Hi Hj E Ht) as Hk.
    unfold tileKey in Hk. injection Hk as Hki Hkj. f_equal; lia.
Qed.

(** ** C8: the bounce and the ground response of the same step *)

(** The response to an obstacle due west of the ball, on the same row. *)
Lemma collisionNormal_east (obs : Tile) (p : Vector3) :
  z p = IZR (tile_z obs) -> IZR (tile_x obs) < x p ->
  collisionNormal obs p = (1, 0).
Proof.
  intros Hz Hx. unfold collisionNormal. rewrite Hz.
  set (dx := x p - IZR (tile_x obs)).
  replace (dx * dx + (IZR (tile_z obs) - IZR (tile_z obs))
                     * (IZR (tile_z obs) - IZR (tile_z obs)))
    with (Rsqr dx) by (unfold Rsqr; lra).
  rewrite sqrt_Rsqr by (unfold dx; lra).
  case_decide; [|unfold dx in *; lra].
  f_equal; unfold dx in *; field; lra.
Qed.

Lemma collideObstacle_east (obs : Tile) (p v : Vector3) :
  fires obs p ->
  z p = IZR (tile_z obs) -> IZR (tile_x obs) < x p -> x v < 0 ->
  collideObstacle obs (p, v)
  = (mkVector3 (IZR (tile_x obs) + minDist (type obs) + 0.01) (y p) (z p),
     mkVector3 (- x v * (0.7 * 0.9)) (y v) (z v * (0.7 * 0.9))).
Proof.
  intros [Hlow Hin] Hz Hx Hv.
  pose proof (collisionNormal_east obs p Hz Hx) as Hn.
  unfold collisionNormal in Hn. injection Hn as Hnx Hnz.
  unfold collideObstacle.
  destruct (decide (y p > height obs + 3)); [contradiction|].
  destruct (decide (_ < minDist (type obs) * minDist (type obs)));
    [|contradiction].
  rewrite Hnx, Hnz. clear Hnx Hnz.
  assert (Hd : sqrt ((x p - IZR (tile_x obs)) * (x p - IZR (tile_x obs))
                     + (z p - IZR (tile_z obs)) * (z p - IZR (tile_z obs)))
               = x p - IZR (tile_x obs)).
  { rewrite Hz.
    replace ((x p - IZR (tile_x obs)) * (x p - IZR (tile_x obs))
             + (IZR (tile_z obs) - IZR (tile_z obs))
               * (IZR (tile_z obs) - IZR (tile_z obs)))
      with (Rsqr (x p - IZR (tile_x obs))) by (unfold Rsqr; lra).
    apply sqrt_Rsqr. lra. }
  rewrite Hd. destruct (decide (x v * 1 + z v * 0 < 0)); [|lra].
  f_equal; f_equal; lra.
Qed.

Lemma rockByWater_only (p : Vector3) : onlyColliderNear rockByWater rock p.
Proof.
  unfold onlyColliderNear, rockByWater. intros i j t _ _ E Hc.
  apply lookup_insert_Some in E as [[<- _]|[_ E]]; [reflexivity|].
  apply lookup_singleton_Some in E as [_ <-]. discriminate.
Qed.

Lemma rockAlone_only (p : Vector3) : onlyColliderNear rockAlone rock p.
Proof.
  unfold onlyColliderNear, rockAlone. intros i j t _ _ E _.
  now apply lookup_singleton_Some in E as [<- _].
Qed.

(** The ball flies west into the rock. *)
Lemma intoRock_integrate (h : R) :
  integrate (mkVector3 0.69 h 0) (mkVector3 (-10) 0 0) 0.01 PHYSICS_CONFIG
  = (mkVector3 0.5908 (h - 0.0035) 0, mkVector3 (-9.92) (-0.35) 0).
Proof. unfold_integrate. f_equal; f_equal; lra. Qed.

Lemma intoRock_fires (h : R) :
  h <= 3 -> fires rock (mkVector3 0.5908 (h - 0.0035) 0).
Proof.
  intros Hh. unfold fires, rock, minDist, colliderRadius, ballRadius;
    cbn [x y z tile_x tile_z height type]. split; lra.
Qed.

Lemma intoRock_response (h : R) :
  h <= 3 ->
  collideObstacle rock
    (mkVector3 0.5908 (h - 0.0035) 0, mkVector3 (-9.92) (-0.35) 0)
  = (mkVector3 0.61 (h - 0.0035) 0, mkVector3 6.2496 (-0.35) 0).
Proof.
  intros Hh. rewrite collideObstacle_east.
  - unfold rock, minDist, colliderRadius, ballRadius;
      cbn [x y z tile_x tile_z type]. f_equal; f_equal; lra.
  - now apply intoRock_fires.
  - reflexivity.
  - cbn [x rock tile_x]. lra.
  - cbn [x]. lra.
Qed.

Lemma round_061 : round 0.61 = 1%Z.
Proof. apply round_eq. simpl. lra. Qed.

(** Counterexample to C8 as stated: the collision with the rock fires
    against an approaching ball, the push-out moves the ball over the water
    tile, the ball is at the floor, and the step returns the zero velocity:
    its component along the normal is 0, not of reversed sign. *)
Lemma C8_counterexample :
  let p := (integrate (mkVector3 0.69 0 0) (mkVector3 (-10) 0 0) 0.01
              PHYSICS_CONFIG).1 in
  let v := (integrate (mkVector3 0.69 0 0) (mkVector3 (-10) 0 0) 0.01
              PHYSICS_CONFIG).2 in
  let n := collisionNormal rock p in
  let r := calculateNextState (mkVector3 0.69 0 0) (mkVector3 (-10) 0 0) 0.01
             PHYSICS_CONFIG rockByWater in
  rockByWater !! tileKey (tile_x rock) (tile_z rock) = Some rock
  /\ type rock = OBSTACLE
  /\ fires rock p
  /\ normalDot n v < 0
  /\ normalDot n (vel r) = 0.
Proof.
  cbv zeta. unfold calculateNextState, scanned.
  rewrite (intoRock_integrate 0); cbn [fst snd].
  assert (Hf : fires rock (mkVector3 0.5908 (0 - 0.0035) 0))
    by (apply intoRock_fires; lra).
  assert (Hl : rockByWater !! tileKey (tile_x rock) (tile_z rock) = Some rock)
    by apply lookup_insert_eq.
  rewrite (collideAll_single rockByWater rock);
    [|exact Hl|reflexivity|apply rockByWater_only|exact Hf].
  rewrite intoRock_response by lra.
  rewrite collisionNormal_east
    by (cbn [x z rock tile_x tile_z]; (reflexivity || lra)).
  assert (Ht : tileAt rockByWater (mkVector3 0.61 (0 - 0.0035) 0)
               = Some (mkTile 1 0 0 WATER)).
  { unfold tileAt, rockByWater; cbn [x z]. rewrite round_061, round_0.
    rewrite lookup_insert_ne by discriminate. apply lookup_singleton_eq. }
  rewrite groundResponse_water; rewrite ?Ht;
    cbn [floorHeight height type fmap option_fmap option_map y]; try lra;
    try reflexivity.
  unfold normalDot; cbn [vel zeroVector x z fst snd].
  split; [exact Hl|]. split; [reflexivity|]. split; [exact Hf|]. split; lra.
Qed.

(** ** The BallState invariant *)

(** The step returns the zero velocity with the WATER event. *)
Lemma step_water_vel (pos0 vel0 : Vector3) (dt : R) (config : PhysicsConfig)
    (tileMap : gmap (Z * Z) Tile) :
  collision (calculateNextState pos0 vel0 dt config tileMap)
  = Some "WATER"%string ->
  vel (calculateNextState pos0 vel0 dt config tileMap) = zeroVector.
Proof.
  unfold calculateNextState.
  destruct (scanned pos0 vel0 dt config tileMap) as [p v].
  unfold groundResponse. repeat case_decide; cbn [collision vel];
    (reflexivity || discriminate).
Qed.

(** A sub-step keeps "stopped balls have no velocity", whatever the state it
    starts from. *)
Lemma subStep_stoppedInv (config : PhysicsConfig) (tileMap : gmap (Z * Z) Tile)
    (hole : Vector3) (subDt : R) (s : BallState) :
  stoppedInv s -> stoppedInv (subStep config tileMap hole subDt s).1.
Proof.
  intros Hs. unfold subStep.
  destruct (isMoving s) eqn:Hm; cbn [negb]; [|exact Hs].
  case_decide; [intros _; reflexivity|].
  case_decide as Hw.
  - intros _; cbn [fst velocity]. now apply step_water_vel.
  - unfold stoppedInv; cbn [fst isMoving velocity].
    destruct (holeReached _ _ _); cbn [orb]; [reflexivity|].
    destruct (isBasicallyStopped _ _ _); cbn [negb andb];
      [reflexivity|discriminate].
Qed.

Lemma subSteps_stoppedInv (config : PhysicsConfig) (tileMap : gmap (Z * Z) Tile)
    (hole : Vector3) (subDt : R) (n : nat) (s : BallState) :
  stoppedInv s -> stoppedInv (subSteps config tileMap hole subDt n s).
Proof.
  revert s. induction n as [|n IH]; intros s Hs; [exact Hs|].
  cbn [subSteps].
  pose proof (subStep_stoppedInv config tileMap hole subDt s Hs) as H.
  destruct (subStep config tileMap hole subDt s) as [s' []]; cbn [fst] in H;
    auto.
Qed.

(** "A stopped ball has no velocity" holds in every reachable state. *)
Lemma stoppedInv_reachable (l : Level) (g : Game) :
  reachable l g -> stoppedInv (ballState g).
Proof.
  unfold reachable. revert g.
  apply (rtc_ind_r (fun g => stoppedInv (ballState g))).
  - intros _. reflexivity.
  - intros g g' _ Hstep IH. destruct Hstep as [v g|ms g|g|g|nl g|nl g|g].
    + unfold handleShoot. case_decide; [|exact IH]. intros Hm. discriminate.
    + unfold updatePhysics.
      destruct (negb (isPaused g) && isMoving (ballState g)); [|exact IH].
      cbn [ballState]. now apply subSteps_stoppedInv.
    + unfold phaseTransition. repeat case_decide;
        repeat (destruct (inHole _) || destruct (negb _)
                || destruct (outOfBounds _ _)); exact IH.
    + unfold timerFires. destruct (pendingResets g); [exact IH|].
      intros _. reflexivity.
    + intros _. reflexivity.
    + intros _. reflexivity.
    + exact IH.
Qed.

(** ** A reset timer that outlives a restart *)

(** The first sub-step of a frame that breaks gives the state of the frame. *)
Lemma shotLoop_break (config : PhysicsConfig) (tileMap : gmap (Z * Z) Tile)
    (hole : Vector3) (dt : R) (s s' : BallState) :
  subStep config tileMap hole (dt / INR SUB_STEPS) s = (s', true) ->
  shotLoop config tileMap hole dt s = s'.
Proof. intros H. unfold shotLoop. now apply subSteps_break. Qed.

(** A frame 80 ms after the previous one has sub-steps of 0.01 s. *)
Lemma frameDt_80 : frameDt 80 / INR SUB_STEPS = 0.01.
Proof.
  unfold frameDt, SUB_STEPS. rewrite Rmin_left by lra.
  rewrite INR_IZR_INZ. change (IZR (Z.of_nat 8)) with 8. lra.
Qed.

Lemma pondLevel_map : buildTileMap (tiles pondLevel) = pond.
Proof. apply insert_empty. Qed.

Lemma puttLevel_map : buildTileMap (tiles puttLevel) = fairway.
Proof. apply insert_empty. Qed.

Lemma sink_step :
  calculateNextState (mkVector3 0 0.003 0) (mkVector3 1 0 0) 0.01
    PHYSICS_CONFIG pond
  = mkStepResult (mkVector3 0.00992 0 0) zeroVector (Some "WATER"%string).
Proof.
  assert (E : scanned (mkVector3 0 0.003 0) (mkVector3 1 0 0) 0.01
                PHYSICS_CONFIG pond
              = (mkVector3 0.00992 (-0.0005) 0, mkVector3 0.992 (-0.35) 0)).
  { unfold scanned. rewrite collideAll_no_collider by apply pond_no_collider.
    unfold_integrate. f_equal; f_equal; lra. }
  assert (Ht : tileAt pond (mkVector3 0.00992 (-0.0005) 0) = Some waterTile).
  { unfold tileAt, pond; cbn [x z].
    rewrite round_0, (round_eq 0 0.00992) by (simpl; lra).
    apply lookup_singleton_eq. }
  unfold calculateNextState. rewrite E.
  rewrite groundResponse_water; rewrite ?Ht;
    cbn [floorHeight waterTile height x y z]; (reflexivity || lra).
Qed.

Lemma putt_step :
  calculateNextState (mkVector3 0.1 0.15 0) (mkVector3 2 0 0) 0.01
    PHYSICS_CONFIG fairway
  = mkStepResult (mkVector3 0.11984 0.1465 0) (mkVector3 1.984 (-0.35) 0) None.
Proof.
  assert (E : integrate (mkVector3 0.1 0.15 0) (mkVector3 2 0 0) 0.01
                PHYSICS_CONFIG
              = (mkVector3 0.11984 0.1465 0, mkVector3 1.984 (-0.35) 0)).
  { unfold_integrate. f_equal; f_equal; lra. }
  rewrite step_airborne; rewrite ?E; cbn [fst snd]; try reflexivity.
  - apply fairway_no_collider.
  - rewrite fairway_tileAt by lra. cbn [floorHeight fairwayTile height y]. lra.
Qed.

(** The handlers and the effect, by case. *)
Lemma handleShoot_aiming (v : Vector3) (g : Game) :
  gamePhase g = AIMING ->
  handleShoot v g
  = mkGame (level g) (shootBallState v (ballState g)) EXECUTING
      (lives g - 1)%Z (levelScore g) (isPaused g) (pendingResets g).
Proof. intros H. unfold handleShoot. now rewrite decide_True. Qed.

Lemma phaseTransition_holed (g : Game) :
  gamePhase g = EXECUTING -> inHole (ballState g) = true ->
  phaseTransition g
  = mkGame (level g) (ballState g) LEVEL_COMPLETE (lives g)
      (levelScore g + 1)%Z (isPaused g) (pendingResets g).
Proof.
  intros Hp Hh. unfold phaseTransition. now rewrite decide_True, Hh.
Qed.

Lemma phaseTransition_outOfBounds (g : Game) :
  gamePhase g = EXECUTING -> inHole (ballState g) = false ->
  isMoving (ballState g) = false ->
  outOfBounds (gameTileMap g) (ballState g) = true ->
  phaseTransition g
  = mkGame (level g) (ballState g) OUT_OF_BOUNDS (lives g) (levelScore g)
      (isPaused g) (S (pendingResets g)).
Proof.
  intros Hp Hh Hm Ho. unfold phaseTransition.
  now rewrite decide_True, Hh, Hm, Ho.
Qed.

Lemma updatePhysics_moving (elapsedMs : R) (g : Game) :
  isPaused g = false -> isMoving (ballState g) = true ->
  updatePhysics elapsedMs g
  = mkGame (level g)
      (shotLoop PHYSICS_CONFIG (gameTileMap g) (holePosition (level g))
         (frameDt elapsedMs) (ballState g))
      (gamePhase g) (lives g) (levelScore g) (isPaused g) (pendingResets g).
Proof. intros Hp Hm. unfold updatePhysics. now rewrite Hp, Hm. Qed.

Lemma afterSink_eval :
  afterSink
  = mkGame pondLevel
      (mkBallState (mkVector3 0.00992 0 0) zeroVector false false
         (mkVector3 0 0.003 0))
      OUT_OF_BOUNDS 4 0 false 1.
Proof.
  unfold afterSink.
  rewrite handleShoot_aiming by reflexivity.
  rewrite updatePhysics_moving by reflexivity.
  cbn [initialGame level ballState gamePhase lives levelScore isPaused
       pendingResets freshBall shootBallState position inHole pondLevel
       startPosition holePosition].
  unfold shootBallState, freshBall;
    cbn [position inHole pondLevel startPosition holePosition].
  unfold gameTileMap; cbn [level]. rewrite pondLevel_map.
  rewrite (shotLoop_break _ _ _ _ _
             (mkBallState (mkVector3 0.00992 0 0) zeroVector false false
                (mkVector3 0 0.003 0))).
  - rewrite phaseTransition_outOfBounds; try reflexivity.
    unfold outOfBounds, gameTileMap; cbn [level ballState position].
    rewrite pondLevel_map.
    assert (Ht : tileAt pond (mkVector3 0.00992 0 0) = Some waterTile).
    { unfold tileAt, pond; cbn [x z].
      rewrite round_0, (round_eq 0 0.00992) by (simpl; lra).
      apply lookup_singleton_eq. }
    rewrite Ht. reflexivity.
  - rewrite frameDt_80. unfold subStep;
      cbn [isMoving negb position velocity inHole lastStablePosition].
    rewrite decide_False by (cbn [y]; lra).
    rewrite sink_step; cbn [collision pos vel].
    now rewrite decide_True.
Qed.

Lemma afterPutt_eval :
  afterPutt
  = mkGame puttLevel
      (mkBallState zeroVector zeroVector false true (mkVector3 0.1 0.15 0))
      LEVEL_COMPLETE 4 1 false 1.
Proof.
  unfold afterPutt. rewrite afterSink_eval.
  rewrite handleShoot_aiming by reflexivity.
  rewrite updatePhysics_moving by reflexivity.
  cbn [handleRestart level ballState gamePhase lives levelScore isPaused
       pendingResets freshBall shootBallState position inHole puttLevel
       startPosition holePosition].
  unfold shootBallState, freshBall;
    cbn [position inHole puttLevel startPosition holePosition].
  unfold gameTileMap; cbn [level]. rewrite puttLevel_map.
  rewrite (shotLoop_break _ _ _ _ _
             (mkBallState zeroVector zeroVector false true
                (mkVector3 0.1 0.15 0))).
  - rewrite phaseTransition_holed; reflexivity.
  - rewrite frameDt_80. apply subStep_capture;
      cbn [isMoving position velocity]; rewrite ?putt_step;
      cbn [pos vel collision].
    + reflexivity.
    + cbn [y]. lra.
    + discriminate.
    + apply magnitude_lt; unfold zeroVector; cbn [x y z]; lra.
    + apply magnitude_lt; cbn [x y z]; lra.
Qed.

Lemma afterStaleReset_eval :
  afterStaleReset
  = mkGame puttLevel
      (mkBallState (mkVector3 0.1 0.15 0) zeroVector false true
         (mkVector3 0.1 0.15 0))
      AIMING 4 1 false 0.
Proof. unfold afterStaleReset. rewrite afterPutt_eval. reflexivity. Qed.

(** A restart leaves a pending reset timer pending. *)
Lemma handleRestart_pending (newLevel : Level) (g : Game) :
  pendingResets (handleRestart newLevel g) = pendingResets g.
Proof. reflexivity. Qed.

(** A reset timer that fires on a holed ball whose checkpoint is not the
    hole centre breaks the invariant, whatever the level. *)
Lemma timerFires_holed (g : Game) :
  pendingResets g <> O ->
  inHole (ballState g) = true ->
  lastStablePosition (ballState g) <> holePosition (level g) ->
  ~ ballInvariant (timerFires g).
Proof.
  intros Hp Hh Hne [_ H]. unfold timerFires in H.
  destruct (pendingResets g); [contradiction|].
  unfold resetBall, resetBallState, holedInv in H;
    cbn [ballState level inHole position] in H.
  destruct (H Hh) as [E _]. contradiction.
Qed.

(** The operations of the game taken without a clock (a reset timer may
    fire at any later step) and on any level do not keep the second half of
    the BallState invariant: after a reset timer that outlived a restart
    fires on a holed ball, inHole is true while the ball lies on the tee,
    not on the hole centre, and the phase is AIMING again.  The run needs a
    tee over WATER and a hole next to the tee, which the level generator
    does not build, and a ball holed while the timer is pending; whether the
    running game can do that within the 1000 ms of the timer is a question
    of real time, which this embedding does not carry. *)
Lemma stale_reset_breaks_invariant :
  reachable pondLevel afterStaleReset
  /\ inHole (ballState afterStaleReset) = true
  /\ position (ballState afterStaleReset) = mkVector3 0.1 0.15 0
  /\ holePosition (level afterStaleReset) = zeroVector
  /\ gamePhase afterStaleReset = AIMING
  /\ ~ ballInvariant afterStaleReset.
Proof.
  split.
  { unfold reachable, afterStaleReset, afterPutt, afterSink.
    repeat (eapply rtc_r; [|constructor]). apply rtc_refl. }
  rewrite afterStaleReset_eval; cbn [ballState inHole position level
    holePosition puttLevel gamePhase].
  repeat split; try reflexivity.
  intros [_ H]. cbn [ballState level holePosition puttLevel] in H.
  destruct H as [H _]; [reflexivity|].
  cbn [position] in H. unfold zeroVector in H. injection H as Hx Hy. lra.
Qed.

(** ** The invariant on runs without a stale reset timer *)

Ltac split_all :=
  repeat (try intros ?; match goal with |- _ /\ _ => split end).

Ltac unfold_inv :=
  unfold ballOK, stoppedInv, holedInv;
  cbn [fst ballState level gamePhase pendingResets position velocity
       isMoving inHole lastStablePosition holePosition].

Lemma subStep_ballOK (config : PhysicsConfig) (tileMap : gmap (Z * Z) Tile)
    (hole : Vector3) (subDt : R) (s : BallState) :
  ballOK hole s -> ballOK hole (subStep config tileMap hole subDt s).1.
Proof.
  intros (Hs & Hh & Hm).
  destruct (isMoving s) eqn:Em.
  2:{ rewrite subStep_stopped by exact Em. cbn [fst]. now split. }
  assert (Eh : inHole s = false).
  { destruct (inHole s); [|reflexivity]. now specialize (Hm eq_refl). }
  unfold subStep. rewrite Em, Eh; cbn [negb].
  destruct (decide (y (position s) < -10)).
  { unfold_inv. split_all; intros; (reflexivity || discriminate). }
  destruct (decide (collision _ = Some "WATER"%string)) as [Hw|Hw].
  { unfold_inv. split_all; intros; try discriminate.
    now apply step_water_vel. }
  set (r := calculateNextState _ _ _ _ _).
  destruct (holeReached hole r false) eqn:Hc.
  - cbn [orb negb]. rewrite andb_false_r.
    unfold_inv. split_all; intros; reflexivity.
  - cbn [orb negb]. rewrite andb_true_r.
    destruct (isBasicallyStopped _ _ _); cbn [negb];
      unfold_inv; split_all; intros; (reflexivity || discriminate).
Qed.

Lemma subSteps_ballOK (config : PhysicsConfig) (tileMap : gmap (Z * Z) Tile)
    (hole : Vector3) (subDt : R) (n : nat) (s : BallState) :
  ballOK hole s -> ballOK hole (subSteps config tileMap hole subDt n s).
Proof.
  revert s. induction n as [|n IH]; intros s Hs; [exact Hs|].
  cbn [subSteps].
  pose proof (subStep_ballOK config tileMap hole subDt s Hs) as H.
  destruct (subStep config tileMap hole subDt s) as [s' []]; cbn [fst] in H;
    auto.
Qed.

Lemma gameInv_initial (l : Level) : gameInv (initialGame l).
Proof.
  unfold gameInv, initialGame, freshBall. unfold_inv.
  split_all; intros; (reflexivity || discriminate || congruence).
Qed.

Lemma gameInv_step (g g' : Game) : safeStep g g' -> gameInv g -> gameInv g'.
Proof.
  intros Hstep (Hb & Ha & Hp). destruct Hstep as [v g|ms g|g|g|nl g E|nl g E|g].
  - (* shot launch *)
    unfold handleShoot. destruct (decide (gamePhase g = AIMING)) as [Hph|Hph];
      [|now split].
    destruct (Ha Hph) as [Hh Hm]. destruct Hb as (Hs & Hho & Hmo).
    split; [|split].
    + unfold shootBallState. unfold_inv. rewrite Hh.
      split_all; intros; discriminate.
    + cbn [gamePhase]. discriminate.
    + cbn [pendingResets gamePhase]. intros Hn.
      destruct (Hp Hn) as [Hoob _]. congruence.
  - (* frame *)
    unfold updatePhysics.
    destruct (isPaused g) in |- *; cbn [negb andb]; [now split|].
    destruct (isMoving (ballState g)) eqn:Hm in |- *; [|now split].
    split; [|split].
    + cbn [ballState level]. now apply subSteps_ballOK.
    + cbn [gamePhase]. intros Hph. destruct (Ha Hph). congruence.
    + cbn [pendingResets]. intros Hn. destruct (Hp Hn) as (_ & _ & ? & _).
      congruence.
  - (* phase effect *)
    unfold phaseTransition.
    destruct (decide (gamePhase g = EXECUTING)) as [Hph|Hph];
      [|now split].
    assert (Hz : pendingResets g = O).
    { destruct (pendingResets g) eqn:En; [reflexivity|].
      destruct Hp as [Hoob _]; congruence. }
    destruct (inHole (ballState g)) eqn:Hh in |- *.
    { unfold gameInv; cbn [ballState level gamePhase pendingResets].
      split_all; try exact Hb; intros; (congruence || discriminate). }
    destruct (isMoving (ballState g)) eqn:Hm in |- *; cbn [negb];
      [now split|].
    destruct (outOfBounds _ _).
    { unfold gameInv; cbn [ballState level gamePhase pendingResets].
      split_all; try exact Hb; intros; (congruence || discriminate). }
    destruct (decide (lives g <= 0)%Z);
      unfold gameInv; cbn [ballState level gamePhase pendingResets];
      split_all; try exact Hb; intros; (congruence || discriminate).
  - (* a timer fires *)
    unfold timerFires. destruct (pendingResets g) as [|n] eqn:En;
      [now split|].
    destruct Hp as (_ & Hh & _ & H1); [congruence|].
    assert (n = O) by congruence. subst n.
    unfold gameInv, resetBall, resetBallState. unfold_inv.
    split_all; intros; (reflexivity || congruence).
  - (* restart *)
    unfold gameInv, handleRestart, freshBall. rewrite E. unfold_inv.
    split_all; intros; (reflexivity || discriminate || congruence).
  - (* next level *)
    unfold gameInv, handleNextLevel, freshBall. rewrite E. unfold_inv.
    split_all; intros; (reflexivity || discriminate || congruence).
  - (* pause *)
    split; [exact Hb|split; [exact Ha|exact Hp]].
Qed.

(** Along runs in which the player never restarts or changes level while a
    reset timer is pending, the BallState invariant holds throughout. *)
Lemma ballInvariant_safe (l : Level) (g : Game) :
  rtc safeStep (initialGame l) g -> ballInvariant g.
Proof.
  intros H.
  assert (Hi : gameInv g).
  { revert g H. apply (rtc_ind_r gameInv).
    - apply gameInv_initial.
    - intros g g' _ Hstep IH. now apply (gameInv_step g g'). }
  destruct Hi as ((Hs & Hh & _) & _). now split.
Qed.

(** * Further properties *)

(** ** Vectors *)

Lemma magnitude_scale (v : Vector3) (s : R) :
  magnitude (scaleVector v s) = Rabs s * magnitude v.
Proof.
  unfold magnitude, scaleVector; cbn [x y z].
  replace (x v * s * (x v * s) + y v * s * (y v * s) + z v * s * (z v * s))
    with (Rsqr s * (x v * x v + y v * y v + z v * z v))
    by (unfold Rsqr; lra).
  rewrite sqrt_mult_alt by apply Rle_0_sqr.
  now rewrite sqrt_Rsqr_abs.
Qed.

Lemma magnitude_3_4 : magnitude (mkVector3 3 0 4) = 5.
Proof.
  unfold magnitude; cbn [x y z].
  replace (3 * 3 + 0 * 0 + 4 * 4) with (5 * 5) by lra.
  apply sqrt_square. lra.
Qed.

(** X2 (normalize): a vector whose length lies between 1e-100 and 1e100
    (where neither the squares of its components nor their sum leave the
    range of the numbers) is normalized to length 1 and keeps its direction:
    it is the normalized vector scaled back by its length; and the zero
    vector is normalized to the zero vector. *)
Theorem X2_normalize (v : Vector3) :
  1e-100 <= magnitude v <= 1e100 ->
  magnitude (normalize v) = 1
  /\ scaleVector (normalize v) (magnitude v) = v
  /\ normalize zeroVector = zeroVector.
Proof.
  intros [Hlo Hhi].
  assert (Hp : 0 < magnitude v) by lra.
  assert (Hm : magnitude v <> 0) by lra.
  split; [|split].
  - unfold normalize. rewrite decide_False by exact Hm.
    rewrite magnitude_scale, Rabs_right.
    + field. exact Hm.
    + apply Rle_ge. apply Rlt_le. apply Rdiv_lt_0_compat; lra.
  - unfold normalize. rewrite decide_False by exact Hm.
    destruct v as [a b c]. unfold scaleVector; cbn [x y z].
    f_equal; field; exact Hm.
  - unfold normalize. now rewrite decide_True by apply magnitude_zero.
Qed.

Lemma X2_normalize_witness : magnitude (normalize (mkVector3 3 0 4)) = 1.
Proof.
  refine (proj1 (X2_normalize (mkVector3 3 0 4) _)).
  rewrite magnitude_3_4. lra.
Defined.

(** ** The tile map *)

Lemma buildTileMap_snoc (ts : list Tile) (t : Tile) :
  buildTileMap (ts ++ [t]) = <[tileCoords t := t]> (buildTileMap ts).
Proof. unfold buildTileMap. now rewrite foldl_app. Qed.

Lemma buildTileMap_lookup_Some (ts : list Tile) (k : Z * Z) (t : Tile) :
  buildTileMap ts !! k = Some t -> t ∈ ts /\ tileCoords t = k.
Proof.
  induction ts as [|t' ts IH] using rev_ind.
  - unfold buildTileMap; cbn [foldl]. now rewrite lookup_empty.
  - rewrite buildTileMap_snoc. intros H.
    apply lookup_insert_Some in H as [[<- <-]|[_ H]].
    + split; [|reflexivity]. apply elem_of_app. right. now left.
    + destruct (IH H) as [Hin Hk]. split; [|exact Hk].
      apply elem_of_app. now left.
Qed.

Lemma buildTileMap_lookup_None (ts : list Tile) (k : Z * Z) :
  buildTileMap ts !! k = None <-> forall t, t ∈ ts -> tileCoords t <> k.
Proof.
  induction ts as [|t' ts IH] using rev_ind.
  - unfold buildTileMap; cbn [foldl]. rewrite lookup_empty. split; [|easy].
    intros _ t Ht. now apply elem_of_nil in Ht.
  - rewrite buildTileMap_snoc, lookup_insert_None, IH. split.
    + intros [H Hne] t Ht. apply elem_of_app in Ht as [Ht|Ht].
      * now apply H.
      * apply list_elem_of_singleton in Ht. now subst.
    + intros H. split.
      * intros t Ht. apply H. apply elem_of_app. now left.
      * apply H. apply elem_of_app. right. now left.
Qed.

(** X3 (tile map, lookups): a lookup in the map built from a tile list
    returns only tiles of the list, filed under their own coordinates; it
    misses exactly when no tile of the list has the coordinates; and of
    several tiles with the same coordinates the last one of the list is the
    one found. *)
Theorem X3_buildTileMap_lookup (ts : list Tile) (k : Z * Z) :
  (forall t, buildTileMap ts !! k = Some t -> t ∈ ts /\ tileCoords t = k)
  /\ (buildTileMap ts !! k = None <-> forall t, t ∈ ts -> tileCoords t <> k)
  /\ (forall ts1 ts2 t,
        ts = ts1 ++ t :: ts2 -> tileCoords t = k ->
        (forall t', t' ∈ ts2 -> tileCoords t' <> k) ->
        buildTileMap ts !! k = Some t).
Proof.
  split; [intros t; apply buildTileMap_lookup_Some|].
  split; [apply buildTileMap_lookup_None|].
  intros ts1 ts2 t -> Hk. revert ts1.
  induction ts2 as [|t2 ts2 IH] using rev_ind; intros ts1 Hlast.
  - rewrite buildTileMap_snoc, Hk. apply lookup_insert_eq.
  - rewrite app_comm_cons, app_assoc, buildTileMap_snoc.
    rewrite lookup_insert_ne.
    + apply IH. intros t' Ht'. apply Hlast. apply elem_of_app. now left.
    + apply Hlast. apply elem_of_app. right. now left.
Qed.

Lemma buildTileMap_lookup_NoDup (ts : list Tile) (t : Tile) :
  NoDup (tileCoords <$> ts) -> t ∈ ts ->
  buildTileMap ts !! tileCoords t = Some t.
Proof.
  intros Hnd Hin.
  destruct (buildTileMap ts !! tileCoords t) as [t'|] eqn:E.
  - apply buildTileMap_lookup_Some in E as [Hin' Hk].
    f_equal. symmetry.
    apply list_elem_of_lookup in Hin as [i Hi].
    apply list_elem_of_lookup in Hin' as [j Hj].
    assert (i = j).
    { apply (NoDup_lookup _ i j (tileCoords t) Hnd);
        rewrite list_lookup_fmap; [now rewrite Hi|rewrite Hj; cbn].
      now rewrite Hk. }
    subst j. congruence.
  - exfalso. rewrite buildTileMap_lookup_None in E. now apply (E t).
Qed.

(** X4 (tile map, round trip): when the tiles of a list have pairwise
    distinct coordinates, every tile of the list is found under its own
    coordinates, and a ball within half a cell of a tile's centre has that
    tile under it. *)
Theorem X4_buildTileMap_roundtrip (ts : list Tile) (t : Tile) (p : Vector3) :
  NoDup (tileCoords <$> ts) ->
  t ∈ ts ->
  buildTileMap ts !! tileCoords t = Some t
  /\ (IZR (tile_x t) - / 2 <= x p < IZR (tile_x t) + / 2 ->
      IZR (tile_z t) - / 2 <= z p < IZR (tile_z t) + / 2 ->
      tileAt (buildTileMap ts) p = Some t).
Proof.
  intros Hnd Hin.
  assert (H : buildTileMap ts !! tileCoords t = Some t)
    by now apply buildTileMap_lookup_NoDup.
  split; [exact H|].
  intros Hx Hz. unfold tileAt.
  now rewrite (round_eq (tile_x t)), (round_eq (tile_z t)).
Qed.

Lemma X4_buildTileMap_roundtrip_witness :
  tileAt (buildTileMap [fairwayTile; mkTile 1 0 0 WATER]) (mkVector3 0.7 0 0.2)
  = Some (mkTile 1 0 0 WATER).
Proof.
  apply (X4_buildTileMap_roundtrip [fairwayTile; mkTile 1 0 0 WATER]
           (mkTile 1 0 0 WATER) (mkVector3 0.7 0 0.2)).
  - apply (bool_decide_unpack _). vm_compute. reflexivity.
  - right. left.
  - cbn [x tile_x]. lra.
  - cbn [z tile_z]. lra.
Defined.

(** ** The collision response, once more *)

(** The state after a collision that fires, in terms of the normal. *)
Lemma collideObstacle_fires (obs : Tile) (p v : Vector3) :
  fires obs p ->
  let n := collisionNormal obs p in
  let push := minDist (type obs) - sqrt (distSqTo obs p) + 0.01 in
  let dot := normalDot n v in
  collideObstacle obs (p, v)
  = (mkVector3 (x p + n.1 * push) (y p) (z p + n.2 * push),
     if decide (dot < 0)
     then mkVector3 ((x v - 2 * dot * n.1) * 0.7 * 0.9) (y v)
            ((z v - 2 * dot * n.2) * 0.7 * 0.9)
     else v).
Proof.
  intros [Hlow Hin]. cbv zeta.
  unfold collideObstacle, collisionNormal, normalDot, distSqTo; cbn [fst snd].
  destruct (decide (y p > height obs + 3)); [contradiction|].
  destruct (decide (_ < minDist (type obs) * minDist (type obs)));
    [|contradiction].
  destruct (decide (_ < 0)); reflexivity.
Qed.

Lemma collideObstacle_misses (obs : Tile) (p v : Vector3) :
  ~ fires obs p -> collideObstacle obs (p, v) = (p, v).
Proof.
  intros H. unfold collideObstacle, fires in *.
  destruct (decide (y p > height obs + 3)); [reflexivity|].
  destruct (decide (_ < minDist (type obs) * minDist (type obs)));
    [|reflexivity].
  exfalso. apply H. now split.
Qed.

Lemma fires_dec (obs : Tile) (p : Vector3) : {fires obs p} + {~ fires obs p}.
Proof.
  unfold fires. destruct (decide (y p > height obs + 3)); [right; tauto|].
  destruct (decide ((x p - IZR (tile_x obs)) * (x p - IZR (tile_x obs))
                    + (z p - IZR (tile_z obs)) * (z p - IZR (tile_z obs))
                    < minDist (type obs) * minDist (type obs)));
    [left|right]; tauto.
Qed.

(** Reflecting about a unit normal keeps the horizontal speed. *)
Lemma reflect_speed (v : Vector3) (nx nz k yv : R) :
  nx * nx + nz * nz = 1 ->
  horizontalSpeed
    (mkVector3 ((x v - 2 * (x v * nx + z v * nz) * nx) * k) yv
       ((z v - 2 * (x v * nx + z v * nz) * nz) * k))
  = Rabs k * horizontalSpeed v.
Proof.
  intros Hu.
  pose proof (horizontalSpeed_scale
                (mkVector3 (x v - 2 * (x v * nx + z v * nz) * nx) 0
                   (z v - 2 * (x v * nx + z v * nz) * nz)) k yv) as E.
  cbn [x z] in E. rewrite E. clear E.
  f_equal. unfold horizontalSpeed, magnitude; cbn [x y z]. f_equal.
  set (d := x v * nx + z v * nz).
  replace ((x v - 2 * d * nx) * (x v - 2 * d * nx) + 0 * 0
           + (z v - 2 * d * nz) * (z v - 2 * d * nz))
    with (x v * x v + 0 * 0 + z v * z v
          + 4 * d * d * (nx * nx + nz * nz - 1))
    by (unfold d; ring).
  rewrite Hu. ring.
Qed.

Lemma collideObstacle_speed (obs : Tile) (st : Vector3 * Vector3) :
  horizontalSpeed (collideObstacle obs st).2 <= horizontalSpeed st.2.
Proof.
  destruct st as [p v]. destruct (fires_dec obs p) as [Hf|Hf].
  - rewrite collideObstacle_fires by exact Hf. cbn [snd].
    destruct (decide (_ < 0)); [|lra].
    replace ((x v - 2 * normalDot (collisionNormal obs p) v
                        * (collisionNormal obs p).1) * 0.7 * 0.9)
      with ((x v - 2 * normalDot (collisionNormal obs p) v
                       * (collisionNormal obs p).1) * (0.7 * 0.9)) by ring.
    replace ((z v - 2 * normalDot (collisionNormal obs p) v
                        * (collisionNormal obs p).2) * 0.7 * 0.9)
      with ((z v - 2 * normalDot (collisionNormal obs p) v
                       * (collisionNormal obs p).2) * (0.7 * 0.9)) by ring.
    unfold normalDot. rewrite reflect_speed by apply collisionNormal_unit.
    rewrite Rabs_right by lra. pose proof (horizontalSpeed_nonneg v). lra.
  - rewrite collideObstacle_misses by exact Hf. cbn [snd]. lra.
Qed.

(** A property of the state that every collision response keeps is kept by
    the scan. *)
Lemma collideAll_ind (P : Vector3 * Vector3 -> Prop)
    (tileMap : gmap (Z * Z) Tile) (st : Vector3 * Vector3) :
  (forall obs st', P st' -> P (collideObstacle obs st')) ->
  P st -> P (collideAll tileMap st).
Proof.
  intros Hstep. unfold collideAll.
  generalize (round (x st.1)) (round (z st.1)). intros cx cz.
  generalize scanOffsets. intros l. revert st.
  induction l as [|ij l IH]; intros st H; [exact H|]. cbn [foldl].
  apply IH. unfold scanCell. destruct (tileMap !! _) as [obs|]; [|exact H].
  destruct (isCollider _); [now apply Hstep|exact H].
Qed.

Lemma collideAll_speed (tileMap : gmap (Z * Z) Tile) (st : Vector3 * Vector3) :
  horizontalSpeed (collideAll tileMap st).2 <= horizontalSpeed st.2.
Proof.
  apply (collideAll_ind
           (fun st' => horizontalSpeed st'.2 <= horizontalSpeed st.2));
    [|lra].
  intros obs st' H. pose proof (collideObstacle_speed obs st'). lra.
Qed.

(** X5 (scan and speed): the obstacle scan of a step never raises the
    horizontal speed of the ball and never changes its height or its vertical
    velocity, whatever the tiles around it. *)
Theorem X5_scan_never_speeds_up (tileMap : gmap (Z * Z) Tile)
    (st : Vector3 * Vector3) :
  horizontalSpeed (collideAll tileMap st).2 <= horizontalSpeed st.2
  /\ y (collideAll tileMap st).1 = y st.1
  /\ y (collideAll tileMap st).2 = y st.2.
Proof.
  split; [apply collideAll_speed|apply collideAll_y].
Qed.

(** X6 (push-out): a collision that fires leaves the ball at the horizontal
    distance minDist + 0.01 from the centre of the obstacle, at its old
    height: outside the collider, so the same obstacle does not fire on the
    new position. *)
Theorem X6_push_out (obs : Tile) (p v : Vector3) :
  fires obs p ->
  let p' := (collideObstacle obs (p, v)).1 in
  distSqTo obs p'
  = (minDist (type obs) + 0.01) * (minDist (type obs) + 0.01)
  /\ y p' = y p
  /\ ~ fires obs p'.
Proof.
  intros Hf p'.
  assert (Hd : distSqTo obs p'
               = (minDist (type obs) + 0.01) * (minDist (type obs) + 0.01)).
  { subst p'. rewrite collideObstacle_fires by exact Hf. cbn [fst].
    unfold distSqTo, collisionNormal; cbn [x z fst snd].
    set (dx := x p - IZR (tile_x obs)). set (dz := z p - IZR (tile_z obs)).
    set (m := minDist (type obs)).
    assert (Hs : sqrt (dx * dx + dz * dz) * sqrt (dx * dx + dz * dz)
                 = dx * dx + dz * dz) by (apply sqrt_sqrt; nra).
    pose proof (sqrt_pos (dx * dx + dz * dz)) as Hp.
    set (d := sqrt (dx * dx + dz * dz)) in *.
    destruct (decide (d > 0)) as [Hd|Hd].
    - replace (x p + dx / d * (m - d + 0.01) - IZR (tile_x obs))
        with (dx * ((m + 0.01) / d)) by (unfold dx; field; lra).
      replace (z p + dz / d * (m - d + 0.01) - IZR (tile_z obs))
        with (dz * ((m + 0.01) / d)) by (unfold dz; field; lra).
      replace (dx * ((m + 0.01) / d) * (dx * ((m + 0.01) / d))
               + dz * ((m + 0.01) / d) * (dz * ((m + 0.01) / d)))
        with ((dx * dx + dz * dz) * ((m + 0.01) * (m + 0.01) / (d * d)))
        by (field; lra).
      rewrite <- Hs. field. lra.
    - assert (d = 0) by lra.
      assert (dx = 0) by nra. assert (dz = 0) by nra.
      replace (x p + 1 * (m - d + 0.01) - IZR (tile_x obs))
        with (dx + (m - d + 0.01)) by (unfold dx; ring).
      replace (z p + 0 * (m - d + 0.01) - IZR (tile_z obs))
        with dz by (unfold dz; ring).
      nra. }
  split; [exact Hd|]. split.
  - subst p'. apply (collideObstacle_y obs (p, v)).
  - intros [_ Hin]. fold (distSqTo obs p') in Hin. rewrite Hd in Hin.
    pose proof (minDist_bound (type obs)). nra.
Qed.

Lemma X6_push_out_witness :
  distSqTo rock
    (collideObstacle rock
       (mkVector3 0.5908 (0.5 - 0.0035) 0, mkVector3 (-9.92) (-0.35) 0)).1
  = (minDist (type rock) + 0.01) * (minDist (type rock) + 0.01).
Proof.
  apply (X6_push_out rock (mkVector3 0.5908 (0.5 - 0.0035) 0)
           (mkVector3 (-9.92) (-0.35) 0)).
  apply intoRock_fires. lra.
Defined.

(** Away from every collider the scan is the identity. *)
Lemma collideAll_outside (tileMap : gmap (Z * Z) Tile) (p v : Vector3) :
  outsideColliders tileMap p -> collideAll tileMap (p, v) = (p, v).
Proof.
  intros Hout. unfold collideAll; cbn [fst]. apply foldl_fixed.
  intros [i j] Hij. apply scanOffsets_bounds in Hij as [Hi Hj].
  unfold scanCell; cbn [fst snd].
  destruct (tileMap !! _) as [t|] eqn:E; [|reflexivity].
  destruct (isCollider (type t)) eqn:Hc; [|reflexivity].
  apply collideObstacle_misses. intros [_ Hin].
  pose proof (Hout i j t Hi Hj E Hc). lra.
Qed.

(** ** The whole step *)








Lemma groundResponse_floor (tileMap : gmap (Z * Z) Tile)
    (config : PhysicsConfig) (dt : R) (p v : Vector3) :
  y (pos (groundResponse tileMap config dt (p, v)))
  = Rmax (y p) (floorHeight (tileAt tileMap p))
  /\ x (pos (groundResponse tileMap config dt (p, v))) = x p
  /\ z (pos (groundResponse tileMap config dt (p, v))) = z p.
Proof.
  unfold groundResponse.
  destruct (decide (y p <= floorHeight (tileAt tileMap p))) as [H|H].
  - destruct (decide (type <$> tileAt tileMap p = Some WATER));
      cbn [pos x y z]; rewrite Rmax_right by exact H; auto.
  - cbn [pos]. rewrite Rmax_left by lra. auto.
Qed.

(** X8 (floor): the position a step returns is never below the floor of the
    tile under it (-10 without a tile): its height is the larger of the
    integrated height and that floor, and its horizontal position is the one
    the obstacle scan left. *)
Theorem X8_step_stays_above_floor (config : PhysicsConfig)
    (tileMap : gmap (Z * Z) Tile) (pos0 vel0 : Vector3) (dt : R) :
  let r := calculateNextState pos0 vel0 dt config tileMap in
  let floor := floorHeight (tileAt tileMap (pos r)) in
  floor <= y (pos r)
  /\ y (pos r) = Rmax (y (integrate pos0 vel0 dt config).1) floor
  /\ x (pos r) = x (scanned pos0 vel0 dt config tileMap).1
  /\ z (pos r) = z (scanned pos0 vel0 dt config tileMap).1.
Proof.
  intros r floor.
  assert (Ef : floor
               = floorHeight
                   (tileAt tileMap (scanned pos0 vel0 dt config tileMap).1)).
  { unfold floor, r.
    apply (f_equal floorHeight (step_tileAt pos0 vel0 dt config tileMap)). }
  assert (Hy : y (scanned pos0 vel0 dt config tileMap).1
               = y (integrate pos0 vel0 dt config).1).
  { unfold scanned. apply collideAll_y. }
  rewrite Ef, <- Hy. unfold r, calculateNextState. clear Ef Hy r floor.
  destruct (scanned pos0 vel0 dt config tileMap) as [p v]; cbn [fst].
  destruct (groundResponse_floor tileMap config dt p v) as (E & Ex & Ez).
  rewrite E, Ex, Ez. split; [apply Rmax_r|auto].
Qed.

Lemma groundResponse_events (tileMap : gmap (Z * Z) Tile)
    (config : PhysicsConfig) (dt : R) (st : Vector3 * Vector3) :
  let r := groundResponse tileMap config dt st in
  (collision r = None \/ collision r = Some "WATER"%string)
  /\ (collision r = Some "WATER"%string
      <-> y st.1 <= floorHeight (tileAt tileMap st.1)
          /\ type <$> tileAt tileMap st.1 = Some WATER)
  /\ (collision r = Some "WATER"%string ->
      vel r = zeroVector
      /\ exists t, tileAt tileMap (pos r) = Some t /\ type t = WATER
                   /\ y (pos r) = height t).
Proof.
  cbv zeta. split; [|split; [apply groundResponse_collision|]].
  - destruct st as [p v]. unfold groundResponse.
    repeat case_decide; cbn [collision]; auto.
  - intros Hw. apply groundResponse_collision in Hw as [Hy Ht].
    destruct st as [p v]; cbn [fst] in *.
    rewrite groundResponse_water by assumption. cbn [vel pos].
    split; [reflexivity|].
    assert (Hp : tileAt tileMap
                   (mkVector3 (x p) (floorHeight (tileAt tileMap p)) (z p))
                 = tileAt tileMap p) by reflexivity.
    rewrite Hp. destruct (tileAt tileMap p) as [t|]; [|discriminate].
    exists t. cbn in Ht. cbn [y floorHeight]. split; [reflexivity|].
    split; [congruence|reflexivity].
Qed.

(** X9 (events): the only event a step reports is WATER, and it reports it
    exactly when the ball, after integration and scan, is at or below the
    floor over a WATER tile; the step then returns the zero velocity and a
    position on the water surface. *)
Theorem X9_step_events (config : PhysicsConfig) (tileMap : gmap (Z * Z) Tile)
    (pos0 vel0 : Vector3) (dt : R) :
  let r := calculateNextState pos0 vel0 dt config tileMap in
  let st := scanned pos0 vel0 dt config tileMap in
  (collision r = None \/ collision r = Some "WATER"%string)
  /\ (collision r = Some "WATER"%string
      <-> y st.1 <= floorHeight (tileAt tileMap st.1)
          /\ type <$> tileAt tileMap st.1 = Some WATER)
  /\ (collision r = Some "WATER"%string ->
      vel r = zeroVector
      /\ exists t, tileAt tileMap (pos r) = Some t /\ type t = WATER
                   /\ y (pos r) = height t).
Proof.
  exact (groundResponse_events tileMap config dt
           (scanned pos0 vel0 dt config tileMap)).
Qed.

Lemma collideAll_rest (tileMap : gmap (Z * Z) Tile) (st : Vector3 * Vector3) :
  x st.2 = 0 /\ z st.2 = 0 ->
  x (collideAll tileMap st).2 = 0 /\ z (collideAll tileMap st).2 = 0.
Proof.
  refine (collideAll_ind (fun st' => x st'.2 = 0 /\ z st'.2 = 0) tileMap st
            _).
  intros obs [p v] [Hvx Hvz]; cbn [snd] in *.
  destruct (fires_dec obs p) as [Hf|Hf].
  - rewrite (collideObstacle_fires obs p v Hf). cbn [snd].
    unfold normalDot. rewrite Hvx, Hvz.
    destruct (decide (_ < 0)) as [H|H]; [lra|now split].
  - rewrite (collideObstacle_misses obs p v Hf). now split.
Qed.

Lemma groundResponse_rest (tileMap : gmap (Z * Z) Tile)
    (config : PhysicsConfig) (dt : R) (st : Vector3 * Vector3) :
  x st.2 = 0 /\ z st.2 = 0 ->
  x (vel (groundResponse tileMap config dt st)) = 0
  /\ z (vel (groundResponse tileMap config dt st)) = 0.
Proof.
  destruct st as [p v]; cbn [snd]. intros [Hvx Hvz].
  unfold groundResponse.
  destruct (decide (y p <= floorHeight (tileAt tileMap p))); [|now split].
  destruct (decide (type <$> tileAt tileMap p = Some WATER)); cbn [vel];
    [now split|].
  rewrite frictionUpdate_factor; cbn [x z].
  destruct (bounce_horizontal config v) as [-> ->]. rewrite Hvx, Hvz.
  split; ring.
Qed.

(** X10 (no sideways motion from rest): a ball without horizontal velocity
    leaves every step without horizontal velocity, for every configuration,
    time slice and tile map: neither drag, nor an obstacle, nor the ground
    sets it in horizontal motion. *)
Theorem X10_no_horizontal_velocity_from_rest (config : PhysicsConfig)
    (tileMap : gmap (Z * Z) Tile) (pos0 vel0 : Vector3) (dt : R) :
  x vel0 = 0 -> z vel0 = 0 ->
  x (vel (calculateNextState pos0 vel0 dt config tileMap)) = 0
  /\ z (vel (calculateNextState pos0 vel0 dt config tileMap)) = 0.
Proof.
  intros Hx Hz. unfold calculateNextState, scanned.
  apply (groundResponse_rest tileMap config dt
           (collideAll tileMap (integrate pos0 vel0 dt config))).
  apply (collideAll_rest tileMap (integrate pos0 vel0 dt config)).
  unfold integrate, stepForces, addVectors, scaleVector; cbn [snd x z].
  rewrite Hx, Hz. split; ring.
Qed.

Lemma X10_no_horizontal_velocity_from_rest_witness :
  x (vel (calculateNextState (mkVector3 0.55 0 0) (mkVector3 0 5 0) 0.01
            PHYSICS_CONFIG rockByWater)) = 0
  /\ z (vel (calculateNextState (mkVector3 0.55 0 0) (mkVector3 0 5 0) 0.01
               PHYSICS_CONFIG rockByWater)) = 0.
Proof.
  apply (X10_no_horizontal_velocity_from_rest PHYSICS_CONFIG rockByWater
           (mkVector3 0.55 0 0) (mkVector3 0 5 0) 0.01);
    reflexivity.
Defined.

(** X11 (rest is a fixed point): a ball lying still on the surface of its
    tile, the tile not WATER and no collider in reach, is returned unchanged
    and still by a step with 0 <= dt and 0 <= gravity * dt <= 0.5: the fall
    of the slice is clamped to the floor and is too slow to bounce. *)
Theorem X11_rest_is_a_fixed_point (config : PhysicsConfig)
    (tileMap : gmap (Z * Z) Tile) (p : Vector3) (t : Tile) (dt : R) :
  tileAt tileMap p = Some t ->
  type t <> WATER ->
  y p = height t ->
  outsideColliders tileMap p ->
  0 <= dt ->
  0 <= gravity config * dt <= 0.5 ->
  calculateNextState p zeroVector dt config tileMap
  = mkStepResult p zeroVector None.
Proof.
  intros Ht Hw Hy Hout Hdt Hg.
  assert (Ei : integrate p zeroVector dt config
               = (mkVector3 (x p) (y p - gravity config * dt * dt) (z p),
                  mkVector3 0 (- (gravity config * dt)) 0)).
  { unfold integrate, stepForces, addVectors, scaleVector, zeroVector;
      cbn [x y z]. f_equal; f_equal; ring. }
  unfold calculateNextState, scanned. rewrite Ei.
  rewrite collideAll_outside by exact Hout.
  assert (Ht' : tileAt tileMap
                  (mkVector3 (x p) (y p - gravity config * dt * dt) (z p))
                = Some t) by exact Ht.
  rewrite groundResponse_ground; rewrite ?Ht'; cbn [floorHeight fmap
    option_fmap option_map x y z].
  - rewrite frictionUpdate_factor.
    assert (Eb : bounce config (mkVector3 0 (- (gravity config * dt)) 0)
                 = zeroVector).
    { unfold bounce; cbn [x y z]. rewrite decide_False; [reflexivity|].
      rewrite Rabs_left1 by lra. lra. }
    rewrite Eb. unfold zeroVector; cbn [x y z]. destruct p as [a b c].
    cbn [x y z] in *. subst b. f_equal. f_equal; ring.
  - nra.
  - intros E. injection E as E. contradiction.
Qed.

Lemma X11_rest_is_a_fixed_point_witness :
  calculateNextState zeroVector zeroVector 0.0125 PHYSICS_CONFIG fairway
  = mkStepResult zeroVector zeroVector None.
Proof.
  apply (X11_rest_is_a_fixed_point PHYSICS_CONFIG fairway zeroVector
           fairwayTile 0.0125).
  - apply fairway_tileAt. lra.
  - discriminate.
  - reflexivity.
  - intros i j t _ _ E Hc. apply fairway_no_collider in E. congruence.
  - lra.
  - cbn [gravity PHYSICS_CONFIG]. lra.
Defined.

(** ** The predicted path and its metrics *)

(** The loop only appends: at most one point per step that is left, and at
    least one when a step is left. *)
Lemma predictLoop_shape (config : PhysicsConfig) (tileMap : gmap (Z * Z) Tile)
    (dt : R) (n i : nat) (cp cv : Vector3) (l : list Vector3) :
  exists rest,
    predictLoop config tileMap dt n i cp cv l = l ++ rest
    /\ (length rest <= n)%nat
    /\ (n <> O -> rest <> []).
Proof.
  revert i cp cv l. induction n as [|n IH]; intros i cp cv l.
  - exists []. cbn [predictLoop length]. rewrite app_nil_r. auto.
  - cbn [predictLoop].
    set (r := calculateNextState cp cv dt config tileMap).
    destruct (decide (y (pos r) <= checkFloor tileMap cp + 0.05 /\ y cv < 0)).
    { eexists. split; [reflexivity|]. cbn [length]. split; [lia|easy]. }
    destruct (decide (y (pos r) <= checkFloor tileMap cp
                      /\ Rabs (y (vel r)) < 0.1 /\ (0 < i)%nat)).
    { eexists. split; [reflexivity|]. cbn [length]. split; [lia|easy]. }
    destruct (IH (S i) (pos r) (vel r) (l ++ [pos r])) as (rest & E & Hl & _).
    exists (pos r :: rest). rewrite E, <- app_assoc. cbn [app length].
    split; [reflexivity|]. split; [lia|easy].
Qed.

Lemma predictTrajectory_cons (startPos startVel : Vector3)
    (config : PhysicsConfig) (levelTiles : list Tile) (steps : nat) (dt : R) :
  exists rest,
    predictTrajectory startPos startVel config levelTiles steps dt
    = startPos :: rest
    /\ (length rest <= steps)%nat
    /\ (steps <> O -> rest <> []).
Proof.
  unfold predictTrajectory.
  destruct (predictLoop_shape config (buildTileMap levelTiles) dt steps 0
              startPos startVel [startPos]) as (rest & E & Hl & Hn).
  exists rest. rewrite E. auto.
Qed.

(** X12 (shape of the predicted path): the path starts with the start
    position, holds at most steps further points, holds at least one further
    point when steps is not 0, and is the start position alone when steps is
    0. *)
Theorem X12_predictTrajectory_shape (startPos startVel : Vector3)
    (config : PhysicsConfig) (levelTiles : list Tile) (steps : nat) (dt : R) :
  exists rest,
    predictTrajectory startPos startVel config levelTiles steps dt
    = startPos :: rest
    /\ (length rest <= steps)%nat
    /\ (steps <> O -> rest <> [])
    /\ (steps = O -> rest = []).
Proof.
  destruct (predictTrajectory_cons startPos startVel config levelTiles steps
              dt) as (rest & E & Hl & Hn).
  exists rest. split; [exact E|]. split; [exact Hl|].
  split; [exact Hn|]. intros ->. destruct rest; [reflexivity|].
  cbn [length] in Hl. lia.
Qed.

Lemma raiseMaxHeight_snoc (m0 : R) (pts : list Vector3) (p : Vector3) :
  raiseMaxHeight m0 (pts ++ [p])
  = if decide (y p > raiseMaxHeight m0 pts) then y p
    else raiseMaxHeight m0 pts.
Proof. unfold raiseMaxHeight. now rewrite foldl_app. Qed.

Lemma raiseMaxHeight_spec (m0 : R) (pts : list Vector3) :
  m0 <= raiseMaxHeight m0 pts
  /\ (forall p, p ∈ pts -> y p <= raiseMaxHeight m0 pts)
  /\ (raiseMaxHeight m0 pts = m0
      \/ exists p, p ∈ pts /\ raiseMaxHeight m0 pts = y p).
Proof.
  induction pts as [|q pts (IH0 & IH1 & IH2)] using rev_ind.
  - cbn. split; [lra|]. split; [|now left].
    intros p Hp. now apply elem_of_nil in Hp.
  - rewrite raiseMaxHeight_snoc.
    destruct (decide (y q > raiseMaxHeight m0 pts)) as [H|H].
    + split; [lra|]. split.
      * intros p Hp. apply elem_of_app in Hp as [Hp|Hp].
        -- specialize (IH1 p Hp). lra.
        -- apply list_elem_of_singleton in Hp. subst. lra.
      * right. exists q. split; [|reflexivity].
        apply elem_of_app. right. now left.
    + split; [exact IH0|]. split.
      * intros p Hp. apply elem_of_app in Hp as [Hp|Hp].
        -- now apply IH1.
        -- apply list_elem_of_singleton in Hp. subst. lra.
      * destruct IH2 as [E|(p & Hp & E)]; [now left|].
        right. exists p. split; [|exact E]. apply elem_of_app. now left.
Qed.

(** X13 (trajectory data never fails): the path handed to the metrics is
    never empty, so the last point is always there and the data is always
    produced; its points are the predicted path, and its duration is 0.05
    times the number of points after the first, between 0 and
    0.05 * maxSteps. *)
Theorem X13_calculateTrajectoryData_total (startPos startVel : Vector3)
    (config : PhysicsConfig) (levelTiles : list Tile) (maxSteps : nat) :
  exists d,
    calculateTrajectoryData startPos startVel config levelTiles maxSteps
    = Some d
    /\ points d
       = predictTrajectory startPos startVel config levelTiles maxSteps 0.05
    /\ duration d = INR (length (points d) - 1) * 0.05
    /\ 0 <= duration d <= INR maxSteps * 0.05.
Proof.
  unfold calculateTrajectoryData, trajectoryMetrics.
  destruct (predictTrajectory_cons startPos startVel config levelTiles
              maxSteps 0.05) as (rest & E & Hl & _).
  rewrite E.
  destruct (last (startPos :: rest)) as [lp|] eqn:El.
  2:{ apply last_None in El. discriminate. }
  eexists. split; [reflexivity|]. cbn [points duration length].
  split; [reflexivity|].
  replace (S (length rest) - 1)%nat with (length rest) by lia.
  rewrite S_INR.
  replace (INR (length rest) + 1 - 1) with (INR (length rest)) by lra.
  pose proof (pos_INR (length rest)) as Hp.
  rewrite Rmax_right by exact Hp. split; [reflexivity|].
  apply le_INR in Hl. lra.
Qed.

(** X14 (maxHeight): calculateTrajectoryData returns data whose maxHeight is
    the height of the highest point of the path: no point of the path is
    higher, and some point of the path is that high; in particular it is at
    least the height of the start position. *)
Theorem X14_maxHeight_is_highest_point (startPos startVel : Vector3)
    (config : PhysicsConfig) (levelTiles : list Tile) (maxSteps : nat) :
  exists d,
    calculateTrajectoryData startPos startVel config levelTiles maxSteps
    = Some d
    /\ y startPos <= maxHeight d
    /\ (forall p, p ∈ points d -> y p <= maxHeight d)
    /\ (exists p, p ∈ points d /\ maxHeight d = y p).
Proof.
  unfold calculateTrajectoryData, trajectoryMetrics.
  destruct (predictTrajectory_cons startPos startVel config levelTiles
              maxSteps 0.05) as (rest & E & _).
  rewrite E.
  destruct (last (startPos :: rest)) as [lp|] eqn:El.
  2:{ apply last_None in El. discriminate. }
  eexists. split; [reflexivity|]. cbn [points maxHeight].
  destruct (raiseMaxHeight_spec (y startPos) (startPos :: rest))
    as (H0 & H1 & H2).
  split; [exact H0|]. split; [exact H1|].
  destruct H2 as [->|H2]; [|exact H2].
  exists startPos. split; [now left|reflexivity].
Qed.




(** ** Frames, checkpoints and the phase machine *)

Lemma subStep_checkpoint (config : PhysicsConfig)
    (tileMap : gmap (Z * Z) Tile) (hole : Vector3) (subDt : R)
    (s : BallState) :
  lastStablePosition (subStep config tileMap hole subDt s).1
  = lastStablePosition s
  /\ (inHole s = true
      -> inHole (subStep config tileMap hole subDt s).1 = true).
Proof.
  unfold subStep.
  destruct (isMoving s); cbn [negb]; [|now split].
  destruct (decide (y (position s) < -10)); [now split|].
  destruct (decide (collision _ = Some "WATER"%string)); [now split|].
  cbn [fst lastStablePosition inHole]. split; [reflexivity|].
  intros ->. unfold holeReached. now case_decide.
Qed.

Lemma subSteps_checkpoint (config : PhysicsConfig)
    (tileMap : gmap (Z * Z) Tile) (hole : Vector3) (subDt : R) (n : nat)
    (s : BallState) :
  lastStablePosition (subSteps config tileMap hole subDt n s)
  = lastStablePosition s
  /\ (inHole s = true
      -> inHole (subSteps config tileMap hole subDt n s) = true).
Proof.
  revert s. induction n as [|n IH]; intros s; [now split|].
  cbn [subSteps].
  pose proof (subStep_checkpoint config tileMap hole subDt s) as [Hc Hh].
  destruct (subStep config tileMap hole subDt s) as [s' stop].
  cbn [fst] in Hc, Hh. destruct stop; [now split|].
  destruct (IH s') as [Hc' Hh']. split; [congruence|auto].
Qed.

Lemma updatePhysics_checkpoint (elapsedMs : R) (g : Game) :
  lastStablePosition (ballState (updatePhysics elapsedMs g))
  = lastStablePosition (ballState g)
  /\ (inHole (ballState g) = true
      -> inHole (ballState (updatePhysics elapsedMs g)) = true).
Proof.
  unfold updatePhysics.
  destruct (negb (isPaused g) && isMoving (ballState g)); [|now split].
  cbn [ballState]. unfold shotLoop. apply subSteps_checkpoint.
Qed.

(** X16 (what a frame leaves alone): a frame changes nothing but the ball:
    level, phase, lives, score, pause flag and pending timers stay; on the
    ball it never moves the checkpoint lastStablePosition and never clears
    inHole; and it changes nothing at all while the game is paused or the
    ball is not moving. *)
Theorem X16_frame_leaves_alone (elapsedMs : R) (g : Game) :
  level (updatePhysics elapsedMs g) = level g
  /\ gamePhase (updatePhysics elapsedMs g) = gamePhase g
  /\ lives (updatePhysics elapsedMs g) = lives g
  /\ levelScore (updatePhysics elapsedMs g) = levelScore g
  /\ isPaused (updatePhysics elapsedMs g) = isPaused g
  /\ pendingResets (updatePhysics elapsedMs g) = pendingResets g
  /\ lastStablePosition (ballState (updatePhysics elapsedMs g))
     = lastStablePosition (ballState g)
  /\ (inHole (ballState g) = true
      -> inHole (ballState (updatePhysics elapsedMs g)) = true)
  /\ (isPaused g = true \/ isMoving (ballState g) = false
      -> updatePhysics elapsedMs g = g).
Proof.
  destruct (updatePhysics_checkpoint elapsedMs g) as [Hc Hh].
  split_all; try exact Hc; try exact Hh;
    try (unfold updatePhysics;
         now destruct (negb (isPaused g) && isMoving (ballState g))).
  unfold updatePhysics. intros [-> | ->]; cbn [negb andb];
    [reflexivity|now rewrite andb_false_r].
Qed.

Lemma playStep_checkpoint (g g' : Game) :
  playStep g g' ->
  lastStablePosition (ballState g') = lastStablePosition (ballState g).
Proof.
  intros [ms g0|g0|g0|g0].
  - apply updatePhysics_checkpoint.
  - unfold phaseTransition. repeat case_decide;
      repeat (destruct (inHole _) || destruct (negb _)
              || destruct (outOfBounds _ _)); reflexivity.
  - unfold timerFires. now destruct (pendingResets g0).
  - reflexivity.
Qed.

(** X17 (a reset returns to where the shot was taken): a shot taken while
    AIMING records the position of the ball; whatever frames, phase effects,
    timer firings and pauses follow, resetBall puts the ball back on that
    position, with zero velocity, not moving, and with that position as its
    checkpoint. *)
Theorem X17_reset_returns_to_shot_position (v : Vector3) (g g' : Game) :
  gamePhase g = AIMING ->
  rtc playStep (handleShoot v g) g' ->
  position (ballState (resetBall g')) = position (ballState g)
  /\ velocity (ballState (resetBall g')) = zeroVector
  /\ isMoving (ballState (resetBall g')) = false
  /\ lastStablePosition (ballState (resetBall g')) = position (ballState g)
  /\ gamePhase (resetBall g') = AIMING.
Proof.
  intros Hph Hrun.
  assert (Hc : lastStablePosition (ballState g') = position (ballState g)).
  { revert g' Hrun.
    apply (rtc_ind_r (fun g' => lastStablePosition (ballState g')
                                = position (ballState g))).
    - unfold handleShoot. now rewrite decide_True by exact Hph.
    - intros g1 g2 _ Hstep IH.
      now rewrite (playStep_checkpoint g1 g2 Hstep). }
  unfold resetBall, resetBallState.
  cbn [ballState position velocity isMoving lastStablePosition gamePhase].
  auto.
Qed.

Lemma X17_reset_returns_to_shot_position_witness :
  position
    (ballState
       (resetBall
          (phaseTransition
             (updatePhysics 80
                (handleShoot (mkVector3 1 0 0) (initialGame pondLevel))))))
  = mkVector3 0 0.003 0.
Proof.
  refine (proj1 (X17_reset_returns_to_shot_position (mkVector3 1 0 0)
                   (initialGame pondLevel) _ eq_refl _)).
  eapply rtc_l; [apply play_frame|].
  eapply rtc_l; [apply play_phase|]. apply rtc_refl.
Defined.

(** X18 (a stopped ball has no velocity, an aimed ball is at rest): in every
    state the game can reach from its initial state, by shots, frames, phase
    effects, reset timers, restarts, level changes and pauses in any order,
    a ball with isMoving = false has the zero velocity, the ball moves only
    in the phases EXECUTING and LEVEL_COMPLETE, and so the ball of a game
    that is AIMING has the zero velocity. *)
Theorem X18_stopped_ball_has_no_velocity (l : Level) (g : Game) :
  reachable l g ->
  (isMoving (ballState g) = false -> velocity (ballState g) = zeroVector)
  /\ (isMoving (ballState g) = true ->
      gamePhase g = EXECUTING \/ gamePhase g = LEVEL_COMPLETE)
  /\ (gamePhase g = AIMING -> velocity (ballState g) = zeroVector).
Proof.
  intros H. pose proof (stoppedInv_reachable l g H) as Hs.
  assert (Hm : isMoving (ballState g) = true ->
               gamePhase g = EXECUTING \/ gamePhase g = LEVEL_COMPLETE).
  { clear Hs. unfold reachable in H. revert g H.
    apply (rtc_ind_r (fun g => isMoving (ballState g) = true ->
                       gamePhase g = EXECUTING \/ gamePhase g = LEVEL_COMPLETE)).
    - cbn. discriminate.
    - intros g g' _ Hstep IH.
      destruct Hstep as [v g|ms g|g|g|nl g|nl g|g].
      + unfold handleShoot. case_decide; [now left|exact IH].
      + unfold updatePhysics.
        destruct (isMoving (ballState g)) eqn:Em in |- *.
        * destruct (negb (isPaused g)); cbn [andb gamePhase]; auto.
        * rewrite andb_false_r. congruence.
      + unfold phaseTransition. case_decide; [|exact IH].
        destruct (inHole (ballState g)); [now right|].
        destruct (isMoving (ballState g)) eqn:Em in |- *; cbn [negb];
          [auto|].
        destruct (outOfBounds _ _); [cbn [ballState]; congruence|].
        case_decide; cbn [ballState]; congruence.
      + unfold timerFires. destruct (pendingResets g); [exact IH|].
        cbn. discriminate.
      + cbn. discriminate.
      + cbn. discriminate.
      + exact IH. }
  split; [exact Hs|]. split; [exact Hm|].
  intros Hph. apply Hs. destruct (isMoving (ballState g)); [|reflexivity].
  destruct Hm as [Hm|Hm]; [reflexivity| |]; congruence.
Qed.

Lemma X18_stopped_ball_has_no_velocity_witness :
  velocity (ballState (timerFires afterSink)) = zeroVector.
Proof.
  refine (proj1 (X18_stopped_ball_has_no_velocity pondLevel _ _) _).
  - unfold reachable, afterSink.
    eapply rtc_l; [apply (step_shoot (mkVector3 1 0 0))|].
    eapply rtc_l; [apply (step_frame 80)|].
    eapply rtc_l; [apply step_phase|].
    eapply rtc_l; [apply step_timer|]. apply rtc_refl.
  - rewrite afterSink_eval. reflexivity.
Defined.

Lemma safeRun_inv (l : Level) (g : Game) :
  rtc safeStep (initialGame l) g ->
  gameInv g
  /\ (isMoving (ballState g) = true -> gamePhase g = EXECUTING).
Proof.
  revert g.
  apply (rtc_ind_r (fun g => gameInv g
           /\ (isMoving (ballState g) = true -> gamePhase g = EXECUTING))).
  - split; [apply gameInv_initial|]. cbn. discriminate.
  - intros g g' _ Hstep [Hi Hm].
    split; [now apply (gameInv_step g g')|].
    destruct Hi as ((_ & _ & Hhm) & _ & _).
    destruct Hstep as [v g|ms g|g|g|nl g E|nl g E|g].
    + unfold handleShoot. now case_decide.
    + unfold updatePhysics.
      destruct (isMoving (ballState g)) eqn:Em in |- *.
      * destruct (negb (isPaused g)); cbn [andb gamePhase]; auto.
      * now rewrite andb_false_r.
    + unfold phaseTransition. case_decide; [|exact Hm].
      destruct (inHole (ballState g)) eqn:Eh in |- *.
      { cbn [ballState]. rewrite (Hhm Eh). discriminate. }
      destruct (isMoving (ballState g)) eqn:Em in |- *; cbn [negb];
        [auto|].
      destruct (outOfBounds _ _); [cbn [ballState]; congruence|].
      case_decide; cbn [ballState]; congruence.
    + unfold timerFires. destruct (pendingResets g); [exact Hm|].
      cbn. discriminate.
    + cbn. discriminate.
    + cbn. discriminate.
    + exact Hm.
Qed.

(** X19 (runs without a restart during a pending reset): along runs in which
    the player never restarts or changes level while a reset timer is
    pending, every state satisfies the BallState invariant (a stopped ball
    has zero velocity; a holed ball sits on the hole with zero velocity), a
    holed ball does not move, the ball moves only in phase EXECUTING, while
    AIMING the ball is neither holed nor moving, and at most one reset timer
    is pending, only in phase OUT_OF_BOUNDS. *)
Theorem X19_safe_run_invariant (l : Level) (g : Game) :
  rtc safeStep (initialGame l) g ->
  ballInvariant g
  /\ (inHole (ballState g) = true -> isMoving (ballState g) = false)
  /\ (isMoving (ballState g) = true -> gamePhase g = EXECUTING)
  /\ (gamePhase g = AIMING ->
      inHole (ballState g) = false /\ isMoving (ballState g) = false)
  /\ (pendingResets g <= 1)%nat
  /\ (pendingResets g <> O -> gamePhase g = OUT_OF_BOUNDS).
Proof.
  intros H. destruct (safeRun_inv l g H) as [((Hs & Hh & Hm) & Ha & Hp) He].
  split; [now split|]. split; [exact Hm|]. split; [exact He|].
  split; [exact Ha|]. split.
  - destruct (pendingResets g) as [|n] eqn:En; [lia|].
    destruct Hp as (_ & _ & _ & H1); [discriminate|]. lia.
  - intros Hn. now destruct (Hp Hn).
Qed.

Lemma X19_safe_run_invariant_witness : ballInvariant afterSink.
Proof.
  refine (proj1 (X19_safe_run_invariant pondLevel afterSink _)).
  unfold afterSink.
  eapply rtc_l; [apply (safe_shoot (mkVector3 1 0 0))|].
  eapply rtc_l; [apply (safe_frame 80)|].
  eapply rtc_l; [apply safe_phase|]. apply rtc_refl.
Defined.

Lemma phaseInv_step (g g' : Game) : gameStep g g' -> phaseInv g -> phaseInv g'.
Proof.
  unfold phaseInv, STARTING_LIVES.
  intros Hstep (Hi & Hh & Hl & Hs & Hg & Hc).
  destruct Hstep as [v g|ms g|g|g|nl g|nl g|g].
  - unfold handleShoot. case_decide as Hph; [|now split_all].
    cbn [gamePhase lives levelScore].
    split_all; try discriminate; lia || auto.
  - unfold updatePhysics.
    destruct (negb (isPaused g) && isMoving (ballState g));
      cbn [gamePhase lives levelScore]; now split_all.
  - unfold phaseTransition. case_decide as Hph; [|now split_all].
    destruct (inHole (ballState g)).
    { cbn [gamePhase lives levelScore].
      split_all; try discriminate; lia || auto. }
    destruct (negb (isMoving (ballState g))); [|now split_all].
    destruct (outOfBounds _ _).
    { cbn [gamePhase lives levelScore].
      split_all; try discriminate; lia || auto. }
    case_decide; cbn [gamePhase lives levelScore];
      split_all; try discriminate; lia || auto.
  - unfold timerFires. destruct (pendingResets g); [now split_all|].
    cbn [resetBall gamePhase lives levelScore].
    split_all; try discriminate; lia || auto.
  - cbn [handleRestart gamePhase lives levelScore].
    split_all; try discriminate; lia || auto.
  - cbn [handleNextLevel gamePhase lives levelScore].
    split_all; try discriminate; lia || auto.
  - cbn [togglePause gamePhase lives levelScore]. now split_all.
Qed.

(** X20 (phase, lives and score): in every state the game can reach, the
    phase is never IDLE or HOLED, lives is at most STARTING_LIVES, the score
    is not negative, the phase GAME_OVER comes with lives <= 0 and the phase
    LEVEL_COMPLETE with a score of at least 1. *)
Theorem X20_phase_lives_score (l : Level) (g : Game) :
  reachable l g ->
  gamePhase g <> IDLE /\ gamePhase g <> HOLED
  /\ (lives g <= STARTING_LIVES)%Z
  /\ (0 <= levelScore g)%Z
  /\ (gamePhase g = GAME_OVER -> (lives g <= 0)%Z)
  /\ (gamePhase g = LEVEL_COMPLETE -> (1 <= levelScore g)%Z).
Proof.
  unfold reachable. revert g. apply (rtc_ind_r phaseInv).
  - unfold phaseInv, initialGame, STARTING_LIVES.
    cbn [gamePhase lives levelScore].
    split_all; try discriminate; lia.
  - intros g g' _ Hstep IH. now apply (phaseInv_step g g').
Qed.

Lemma X20_phase_lives_score_witness : (lives afterSink <= STARTING_LIVES)%Z.
Proof.
  refine (proj1 (proj2 (proj2 (X20_phase_lives_score pondLevel afterSink _)))).
  unfold reachable, afterSink.
  eapply rtc_l; [apply (step_shoot (mkVector3 1 0 0))|].
  eapply rtc_l; [apply (step_frame 80)|].
  eapply rtc_l; [apply step_phase|]. apply rtc_refl.
Defined.

(** X21 (an out-of-bounds stop never ends the game): when the ball of an
    EXECUTING game has stopped out of bounds without being holed, the phase
    effect followed by its reset timer leads to AIMING with the lives
    unchanged, whatever their number, and the next shot is accepted and takes
    one more life: lives <= 0 leads to GAME_OVER only for a ball that stopped
    in bounds. *)
Theorem X21_out_of_bounds_never_ends_game (g : Game) (v : Vector3) :
  gamePhase g = EXECUTING ->
  inHole (ballState g) = false ->
  isMoving (ballState g) = false ->
  outOfBounds (gameTileMap g) (ballState g) = true ->
  gamePhase (phaseTransition g) = OUT_OF_BOUNDS
  /\ gamePhase (timerFires (phaseTransition g)) = AIMING
  /\ lives (timerFires (phaseTransition g)) = lives g
  /\ pendingResets (timerFires (phaseTransition g)) = pendingResets g
  /\ gamePhase (handleShoot v (timerFires (phaseTransition g))) = EXECUTING
  /\ lives (handleShoot v (timerFires (phaseTransition g)))
     = (lives g - 1)%Z.
Proof.
  intros Hph Hh Hm Hoob.
  assert (E : phaseTransition g
              = mkGame (level g) (ballState g) OUT_OF_BOUNDS (lives g)
                  (levelScore g) (isPaused g) (S (pendingResets g))).
  { unfold phaseTransition.
    rewrite decide_True by exact Hph. now rewrite Hh, Hm, Hoob. }
  rewrite E. unfold timerFires, resetBall, handleShoot.
  cbn [pendingResets gamePhase lives level ballState levelScore isPaused].
  rewrite decide_True by reflexivity. cbn [gamePhase lives]. now split_all.
Qed.

Lemma X21_out_of_bounds_never_ends_game_witness :
  lives
    (handleShoot (mkVector3 1 0 0)
       (timerFires
          (phaseTransition
             (mkGame pondLevel
                (mkBallState (mkVector3 9 0 9) zeroVector false false
                   (mkVector3 0 0.003 0)) EXECUTING 0 0 false 0))))
  = (-1)%Z.
Proof.
  refine (proj2 (proj2 (proj2 (proj2 (proj2
    (X21_out_of_bounds_never_ends_game
       (mkGame pondLevel
          (mkBallState (mkVector3 9 0 9) zeroVector false false
             (mkVector3 0 0.003 0)) EXECUTING 0 0 false 0)
       (mkVector3 1 0 0) eq_refl eq_refl eq_refl _)))))).
  unfold outOfBounds, gameTileMap. cbn [level ballState position].
  rewrite pondLevel_map.
  destruct (tileAt pond (mkVector3 9 0 9)) as [t|] eqn:Et; [|reflexivity].
  unfold tileAt, pond, tileKey in Et.
  apply lookup_singleton_Some in Et as [_ <-]. reflexivity.
Defined.

(** ** The projection of the canvas *)

Lemma cos_sin_one (r : R) : cos r * cos r + sin r * sin r = 1.
Proof. pose proof (sin2_cos2 r) as H. unfold Rsqr in H. lra. Qed.

Lemma ISO_X_SCALE_pos : 0 < ISO_X_SCALE.
Proof.
  unfold ISO_X_SCALE, TILE_SIZE. rewrite cos_PI6.
  assert (0 < sqrt 3) by (apply sqrt_lt_R0; lra). lra.
Qed.

Lemma ISO_Y_SCALE_eq : ISO_Y_SCALE = 20.
Proof. unfold ISO_Y_SCALE, TILE_SIZE. rewrite sin_PI6. lra. Qed.

(** The inverse projection undoes the projection of a ground point. *)
Lemma screenToWorldIso_worldToScreen (cam : CameraState) (a b : R) :
  zoom cam <> 0 ->
  screenToWorldIso cam
    (screen_x (worldToScreen cam (mkVector3 a 0 b)))
    (screen_y (worldToScreen cam (mkVector3 a 0 b)))
  = (a, b).
Proof.
  intros Hk. pose proof ISO_X_SCALE_pos as HA.
  pose proof (cos_sin_one (rotation cam)) as H.
  unfold screenToWorldIso, worldToScreen. cbn [x y z screen_x screen_y].
  rewrite cos_neg, sin_neg, ISO_Y_SCALE_eq.
  set (c := cos (rotation cam)) in *. set (s := sin (rotation cam)) in *.
  f_equal.
  - transitivity (a * (c * c + s * s)); [field; lra|rewrite H; ring].
  - transitivity (b * (c * c + s * s)); [field; lra|rewrite H; ring].
Qed.

(** The projection undoes the inverse projection. *)
Lemma worldToScreen_screenToWorldIso (cam : CameraState) (sx sy : R) :
  zoom cam <> 0 ->
  screen_x (worldToScreen cam
              (mkVector3 (screenToWorldIso cam sx sy).1 0
                 (screenToWorldIso cam sx sy).2)) = sx
  /\ screen_y (worldToScreen cam
                 (mkVector3 (screenToWorldIso cam sx sy).1 0
                    (screenToWorldIso cam sx sy).2)) = sy.
Proof.
  intros Hk. pose proof ISO_X_SCALE_pos as HA.
  pose proof (cos_sin_one (rotation cam)) as H.
  unfold screenToWorldIso, worldToScreen.
  cbn [x y z screen_x screen_y fst snd].
  rewrite cos_neg, sin_neg, ISO_Y_SCALE_eq.
  set (c := cos (rotation cam)) in *. set (s := sin (rotation cam)) in *.
  set (A := ISO_X_SCALE) in *.
  set (ox := px (offset cam)). set (oy := py (offset cam)).
  set (k := zoom cam) in *.
  split.
  - transitivity ((sx - ox) * (c * c + s * s) + ox);
      [field; lra|rewrite H; ring].
  - transitivity ((sy - oy) * (c * c + s * s) + oy);
      [field; lra|rewrite H; ring].
Qed.

(** X22 (screen and ground): for a camera whose zoom is not 0, the inverse
    projection screenToWorldIso gives back the ground point (height 0) that
    worldToScreen projected, and worldToScreen gives back the screen point
    whose ground point screenToWorldIso computed. *)
Theorem X22_projection_round_trip (cam : CameraState) (a b sx sy : R) :
  zoom cam <> 0 ->
  screenToWorldIso cam
    (screen_x (worldToScreen cam (mkVector3 a 0 b)))
    (screen_y (worldToScreen cam (mkVector3 a 0 b)))
  = (a, b)
  /\ screen_x (worldToScreen cam
                 (mkVector3 (screenToWorldIso cam sx sy).1 0
                    (screenToWorldIso cam sx sy).2)) = sx
  /\ screen_y (worldToScreen cam
                 (mkVector3 (screenToWorldIso cam sx sy).1 0
                    (screenToWorldIso cam sx sy).2)) = sy.
Proof.
  intros Hk. split.
  - now apply screenToWorldIso_worldToScreen.
  - now apply worldToScreen_screenToWorldIso.
Qed.

Lemma X22_projection_round_trip_witness :
  screenToWorldIso initialCamera
    (screen_x (worldToScreen initialCamera (mkVector3 3 0 4)))
    (screen_y (worldToScreen initialCamera (mkVector3 3 0 4)))
  = (3, 4).
Proof.
  refine (proj1 (X22_projection_round_trip initialCamera 3 4 0 0 _)).
  cbn [initialCamera zoom]. lra.
Defined.

(** ** The rotation of the camera *)

(** The camera after a rotation, with the offset written out. *)
Lemma rotateCamera_eq (cam : CameraState) (cx cy : R) (dir : Direction)
    (prev : CameraState) :
  rotateCamera false cam cx cy dir prev
  = mkCameraState
      (mkPoint2
         (cx - ((screenToWorldIso cam cx cy).1
                  * cos (rotation prev
                         + PI / 4 * match dir with LEFT => 1 | RIGHT => -1 end)
                - (screenToWorldIso cam cx cy).2
                  * sin (rotation prev
                         + PI / 4 * match dir with LEFT => 1 | RIGHT => -1 end)
                - ((screenToWorldIso cam cx cy).1
                   * sin (rotation prev
                          + PI / 4 * match dir with LEFT => 1 | RIGHT => -1 end)
                   + (screenToWorldIso cam cx cy).2
                     * cos (rotation prev
                            + PI / 4
                              * match dir with LEFT => 1 | RIGHT => -1 end)))
               * ISO_X_SCALE * zoom prev)
         (cy - ((screenToWorldIso cam cx cy).1
                  * cos (rotation prev
                         + PI / 4 * match dir with LEFT => 1 | RIGHT => -1 end)
                - (screenToWorldIso cam cx cy).2
                  * sin (rotation prev
                         + PI / 4 * match dir with LEFT => 1 | RIGHT => -1 end)
                + ((screenToWorldIso cam cx cy).1
                   * sin (rotation prev
                          + PI / 4 * match dir with LEFT => 1 | RIGHT => -1 end)
                   + (screenToWorldIso cam cx cy).2
                     * cos (rotation prev
                            + PI / 4
                              * match dir with LEFT => 1 | RIGHT => -1 end)))
               * ISO_Y_SCALE * zoom prev))
      (zoom prev)
      (rotation prev + PI / 4 * match dir with LEFT => 1 | RIGHT => -1 end).
Proof. unfold rotateCamera. cbv zeta. f_equal. f_equal; ring. Qed.

(** After a rotation the pivot is projected onto the screen centre. *)
Lemma rotateCamera_centre (cam : CameraState) (cx cy : R) (dir : Direction)
    (prev : CameraState) :
  screen_x (worldToScreen (rotateCamera false cam cx cy dir prev)
              (mkVector3 (screenToWorldIso cam cx cy).1 0
                 (screenToWorldIso cam cx cy).2)) = cx
  /\ screen_y (worldToScreen (rotateCamera false cam cx cy dir prev)
                 (mkVector3 (screenToWorldIso cam cx cy).1 0
                    (screenToWorldIso cam cx cy).2)) = cy.
Proof.
  rewrite rotateCamera_eq. unfold worldToScreen.
  cbn [x y z screen_x screen_y zoom rotation offset px py].
  split; ring.
Qed.

Lemma rotateCamera_pivot (cam : CameraState) (cx cy : R) (dir : Direction) :
  zoom cam <> 0 ->
  screenToWorldIso (rotateCamera false cam cx cy dir cam) cx cy
  = screenToWorldIso cam cx cy.
Proof.
  intros Hk.
  destruct (rotateCamera_centre cam cx cy dir cam) as [Hx Hy].
  assert (Hk' : zoom (rotateCamera false cam cx cy dir cam) <> 0)
    by now rewrite rotateCamera_eq.
  pose proof (screenToWorldIso_worldToScreen
                (rotateCamera false cam cx cy dir cam)
                (screenToWorldIso cam cx cy).1
                (screenToWorldIso cam cx cy).2 Hk') as H.
  rewrite Hx, Hy in H. rewrite H.
  now destruct (screenToWorldIso cam cx cy).
Qed.

(** X23 (rotation about the screen centre): for a camera whose zoom is not 0,
    rotateCamera turns the camera by 45 degrees, to the left or to the
    right, keeps the zoom, and keeps the ground point under the screen
    centre where it is; and rotating back the other way restores the camera
    it started from. *)
Theorem X23_rotation_about_centre (cam : CameraState) (cx cy : R)
    (dir : Direction) :
  zoom cam <> 0 ->
  rotation (rotateCamera false cam cx cy dir cam)
  = rotation cam + PI / 4 * match dir with LEFT => 1 | RIGHT => -1 end
  /\ zoom (rotateCamera false cam cx cy dir cam) = zoom cam
  /\ screenToWorldIso (rotateCamera false cam cx cy dir cam) cx cy
     = screenToWorldIso cam cx cy
  /\ rotateCamera false (rotateCamera false cam cx cy dir cam) cx cy
       match dir with LEFT => RIGHT | RIGHT => LEFT end
       (rotateCamera false cam cx cy dir cam)
     = cam.
Proof.
  intros Hk.
  split; [now rewrite rotateCamera_eq|].
  split; [now rewrite rotateCamera_eq|].
  split; [now apply rotateCamera_pivot|].
  rewrite (rotateCamera_eq (rotateCamera false cam cx cy dir cam)).
  rewrite rotateCamera_pivot by exact Hk.
  destruct (worldToScreen_screenToWorldIso cam cx cy Hk) as [Hx Hy].
  unfold worldToScreen in Hx, Hy. cbn [x y z screen_x screen_y] in Hx, Hy.
  rewrite (rotateCamera_eq cam). cbn [zoom rotation].
  set (P := screenToWorldIso cam cx cy) in *.
  replace (rotation cam
           + PI / 4 * match dir with LEFT => 1 | RIGHT => -1 end
           + PI / 4 * match match dir with LEFT => RIGHT | RIGHT => LEFT end
                      with LEFT => 1 | RIGHT => -1 end)
    with (rotation cam) by (destruct dir; lra).
  destruct cam as [[ox oy] k r]. cbn [zoom rotation offset px py] in *.
  f_equal. f_equal; lra.
Qed.

Lemma X23_rotation_about_centre_witness :
  rotateCamera false (rotateCamera false initialCamera 400 300 LEFT initialCamera)
    400 300 RIGHT (rotateCamera false initialCamera 400 300 LEFT initialCamera)
  = initialCamera.
Proof.
  refine (proj2 (proj2 (proj2
    (X23_rotation_about_centre initialCamera 400 300 LEFT _)))).
  cbn [initialCamera zoom]. lra.
Defined.

(** ** The shot of a drag *)

Lemma powerRatio_bounds (dragLen : R) :
  0 <= dragLen ->
  0 <= Rmin dragLen MAX_DRAG_DISTANCE / MAX_DRAG_DISTANCE <= 1
  /\ (0 < dragLen -> 0 < Rmin dragLen MAX_DRAG_DISTANCE / MAX_DRAG_DISTANCE)
  /\ (dragLen = 0 -> Rmin dragLen MAX_DRAG_DISTANCE / MAX_DRAG_DISTANCE = 0).
Proof.
  intros H. unfold MAX_DRAG_DISTANCE, Rmin.
  destruct (Rle_dec dragLen 150); split_all; intros; lra.
Qed.

(** The drag in world space has length 0 only for a drag of length 0. *)
Lemma drag_direction_zero (r sx sy : R) :
  sqrt (((sx / ISO_X_SCALE + sy / ISO_Y_SCALE) / 2 * cos (- r)
         - (sy / ISO_Y_SCALE - sx / ISO_X_SCALE) / 2 * sin (- r))
        * ((sx / ISO_X_SCALE + sy / ISO_Y_SCALE) / 2 * cos (- r)
           - (sy / ISO_Y_SCALE - sx / ISO_X_SCALE) / 2 * sin (- r))
        + ((sx / ISO_X_SCALE + sy / ISO_Y_SCALE) / 2 * sin (- r)
           + (sy / ISO_Y_SCALE - sx / ISO_X_SCALE) / 2 * cos (- r))
          * ((sx / ISO_X_SCALE + sy / ISO_Y_SCALE) / 2 * sin (- r)
             + (sy / ISO_Y_SCALE - sx / ISO_X_SCALE) / 2 * cos (- r))) = 0 ->
  sx = 0 /\ sy = 0.
Proof.
  pose proof ISO_X_SCALE_pos as HA. rewrite ISO_Y_SCALE_eq.
  pose proof (cos_sin_one (- r)) as H.
  set (c := cos (- r)) in *. set (s := sin (- r)) in *.
  set (t1 := sx / ISO_X_SCALE). set (t2 := sy / 20).
  intros Hz. apply sqrt_eq_0 in Hz; [|nra].
  assert (E : ((t1 + t2) / 2 * c - (t2 - t1) / 2 * s)
              * ((t1 + t2) / 2 * c - (t2 - t1) / 2 * s)
              + ((t1 + t2) / 2 * s + (t2 - t1) / 2 * c)
                * ((t1 + t2) / 2 * s + (t2 - t1) / 2 * c)
              = (t1 * t1 + t2 * t2) / 2 * (c * c + s * s)) by field.
  rewrite E, H in Hz.
  assert (H1 : t1 = 0) by nra. assert (H2 : t2 = 0) by nra.
  unfold t1 in H1. unfold t2 in H2. split.
  - replace sx with (sx / ISO_X_SCALE * ISO_X_SCALE) by (field; lra).
    rewrite H1. ring.
  - lra.
Qed.

(** The speed of a vector of vertical part [M sin a] and of horizontal part
    [M cos a] along a direction that is normalized, or zero when [M] is. *)
Lemma shot_vector_speed (vx vz M a : R) :
  0 <= M ->
  (sqrt (vx * vx + vz * vz) = 0 -> M = 0) ->
  magnitude
    (mkVector3
       ((if decide (sqrt (vx * vx + vz * vz) = 0) then 0
         else vx / sqrt (vx * vx + vz * vz)) * (M * cos a))
       (M * sin a)
       ((if decide (sqrt (vx * vx + vz * vz) = 0) then 0
         else vz / sqrt (vx * vx + vz * vz)) * (M * cos a)))
  = M
  /\ sqrt (((if decide (sqrt (vx * vx + vz * vz) = 0) then 0
             else vx / sqrt (vx * vx + vz * vz)) * (M * cos a))
           * ((if decide (sqrt (vx * vx + vz * vz) = 0) then 0
               else vx / sqrt (vx * vx + vz * vz)) * (M * cos a))
           + ((if decide (sqrt (vx * vx + vz * vz) = 0) then 0
               else vz / sqrt (vx * vx + vz * vz)) * (M * cos a))
             * ((if decide (sqrt (vx * vx + vz * vz) = 0) then 0
                 else vz / sqrt (vx * vx + vz * vz)) * (M * cos a)))
     = Rabs (M * cos a).
Proof.
  intros HM Hz. pose proof (cos_sin_one a) as H. unfold magnitude.
  cbn [x y z]. set (w := sqrt (vx * vx + vz * vz)) in *.
  destruct (decide (w = 0)) as [E|E].
  - rewrite (Hz E). split.
    + replace (0 * (0 * cos a) * (0 * (0 * cos a)) + 0 * sin a * (0 * sin a)
               + 0 * (0 * cos a) * (0 * (0 * cos a))) with 0 by ring.
      apply sqrt_0.
    + replace (0 * (0 * cos a) * (0 * (0 * cos a))
               + 0 * (0 * cos a) * (0 * (0 * cos a))) with 0 by ring.
      replace (0 * cos a) with 0 by ring. rewrite Rabs_R0. apply sqrt_0.
  - assert (Hw : w * w = vx * vx + vz * vz).
    { unfold w. apply sqrt_sqrt. nra. }
    assert (Hd : vx / w * (vx / w) + vz / w * (vz / w) = 1).
    { transitivity ((vx * vx + vz * vz) / (w * w)); [field; exact E|].
      rewrite Hw. field. rewrite <- Hw. nra. }
    split.
    + replace (vx / w * (M * cos a) * (vx / w * (M * cos a))
               + M * sin a * (M * sin a)
               + vz / w * (M * cos a) * (vz / w * (M * cos a)))
        with ((vx / w * (vx / w) + vz / w * (vz / w)) * (M * cos a * (M * cos a))
              + M * sin a * (M * sin a)) by ring.
      rewrite Hd.
      replace (1 * (M * cos a * (M * cos a)) + M * sin a * (M * sin a))
        with (M * M * (cos a * cos a + sin a * sin a)) by ring.
      rewrite H, Rmult_1_r. now apply sqrt_square.
    + replace (vx / w * (M * cos a) * (vx / w * (M * cos a))
               + vz / w * (M * cos a) * (vz / w * (M * cos a)))
        with ((vx / w * (vx / w) + vz / w * (vz / w))
              * (M * cos a * (M * cos a))) by ring.
      rewrite Hd, Rmult_1_l. fold (Rsqr (M * cos a)). apply sqrt_Rsqr_abs.
Qed.

(** The launch angle of a club, in radians, lies in the first quadrant. *)
Lemma club_angle_bounds (club : ClubType) (powerRatio : R) :
  0 <= powerRatio <= 1 ->
  minAngle (CLUB_STATS club)
  <= minAngle (CLUB_STATS club) + (1 - powerRatio) * angleRange (CLUB_STATS club)
  <= minAngle (CLUB_STATS club) + angleRange (CLUB_STATS club)
  /\ 0 <= (minAngle (CLUB_STATS club)
           + (1 - powerRatio) * angleRange (CLUB_STATS club)) * (PI / 180)
       <= 65 * (PI / 180).
Proof.
  intros Hp. pose proof PI_RGT_0 as Hpi.
  assert (Hk : 0 < PI / 180) by lra.
  destruct club; cbn [CLUB_STATS minAngle angleRange]; split; try nra.
Qed.

(** What [calculateShotPhysics] returns for a drag, in terms of the fields
    of the result. *)
Lemma calculateShotPhysics_spec (cam : CameraState) (club : ClubType)
    (ds dc : Point2) :
  exists phys,
    calculateShotPhysics cam club (Some ds) (Some dc) = Some phys
    /\ shot_powerRatio phys
       = Rmin (sqrt ((px ds - px dc) * (px ds - px dc)
                     + (py ds - py dc) * (py ds - py dc)))
           MAX_DRAG_DISTANCE / MAX_DRAG_DISTANCE
    /\ shot_force phys = shot_powerRatio phys * maxForce (CLUB_STATS club)
    /\ shot_launchAngle phys
       = minAngle (CLUB_STATS club)
         + (1 - shot_powerRatio phys) * angleRange (CLUB_STATS club)
    /\ y (shot_velocity phys)
       = shot_force phys * PHYSICS_CONSTANTS.CONTACT_TIME
         / PHYSICS_CONSTANTS.BALL_MASS
         * sin (shot_launchAngle phys * (PI / 180))
    /\ magnitude (shot_velocity phys)
       = shot_force phys * PHYSICS_CONSTANTS.CONTACT_TIME
         / PHYSICS_CONSTANTS.BALL_MASS
    /\ sqrt (x (shot_velocity phys) * x (shot_velocity phys)
             + z (shot_velocity phys) * z (shot_velocity phys))
       = Rabs (shot_force phys * PHYSICS_CONSTANTS.CONTACT_TIME
               / PHYSICS_CONSTANTS.BALL_MASS
               * cos (shot_launchAngle phys * (PI / 180))).
Proof.
  unfold calculateShotPhysics. cbv zeta. eexists. split; [reflexivity|].
  cbn [shot_velocity shot_force shot_powerRatio shot_launchAngle x y z].
  split; [reflexivity|]. split; [reflexivity|]. split; [reflexivity|].
  split; [reflexivity|].
  set (sx := px ds - px dc). set (sy := py ds - py dc).
  assert (Hlen : 0 <= sqrt (sx * sx + sy * sy)) by apply sqrt_pos.
  destruct (powerRatio_bounds _ Hlen) as ([Hp0 Hp1] & _ & Hpz).
  set (pr := Rmin (sqrt (sx * sx + sy * sy)) MAX_DRAG_DISTANCE
             / MAX_DRAG_DISTANCE) in *.
  set (M := pr * maxForce (CLUB_STATS club) * PHYSICS_CONSTANTS.CONTACT_TIME
            / PHYSICS_CONSTANTS.BALL_MASS).
  assert (HF : 0 <= maxForce (CLUB_STATS club))
    by (destruct club; cbn [CLUB_STATS maxForce]; lra).
  assert (HM : 0 <= M).
  { unfold M, PHYSICS_CONSTANTS.CONTACT_TIME, PHYSICS_CONSTANTS.BALL_MASS.
    assert (0 <= pr * maxForce (CLUB_STATS club))
      by now apply Rmult_le_pos.
    lra. }
  apply shot_vector_speed; [exact HM|].
  intros Hz. apply drag_direction_zero in Hz as [Hx Hy].
  assert (E : pr = 0).
  { apply Hpz. rewrite Hx, Hy.
    replace (0 * 0 + 0 * 0) with 0 by ring. apply sqrt_0. }
  unfold M. rewrite E. unfold Rdiv. ring.
Qed.

(** The power ratio and the speed of the shot of a drag. *)
Lemma calculateShotPhysics_speed (cam : CameraState) (club : ClubType)
    (ds dc : Point2) :
  exists phys,
    calculateShotPhysics cam club (Some ds) (Some dc) = Some phys
    /\ 0 <= shot_powerRatio phys <= 1
    /\ shot_force phys = shot_powerRatio phys * maxForce (CLUB_STATS club)
    /\ 0 <= y (shot_velocity phys)
    /\ magnitude (shot_velocity phys)
       = shot_force phys * PHYSICS_CONSTANTS.CONTACT_TIME
         / PHYSICS_CONSTANTS.BALL_MASS.
Proof.
  destruct (calculateShotPhysics_spec cam club ds dc)
    as (phys & E & Hpr & Hf & Ha & Hy & Hm & _).
  exists phys. split; [exact E|].
  assert (Hp : 0 <= shot_powerRatio phys <= 1).
  { rewrite Hpr. apply powerRatio_bounds. apply sqrt_pos. }
  split; [exact Hp|]. split; [exact Hf|]. split; [|exact Hm].
  assert (HF : 0 <= maxForce (CLUB_STATS club))
    by (destruct club; cbn [CLUB_STATS maxForce]; lra).
  destruct (club_angle_bounds club (shot_powerRatio phys) Hp) as [_ Hrad].
  rewrite <- Ha in Hrad. rewrite Hy. apply Rmult_le_pos.
  - unfold PHYSICS_CONSTANTS.CONTACT_TIME, PHYSICS_CONSTANTS.BALL_MASS.
    assert (0 <= shot_force phys) by (rewrite Hf; now apply Rmult_le_pos).
    lra.
  - pose proof PI_RGT_0. apply sin_ge_0; lra.
Qed.

(** X24 (the shot of a drag): for every drag, camera and club
    calculateShotPhysics returns a shot whose power ratio lies between 0 and
    1, whose force is that ratio of the club's maxForce, whose launch angle
    lies between the club's minAngle and minAngle + angleRange, whose
    velocity does not point downwards, and whose speed is
    force * CONTACT_TIME / BALL_MASS, below 24 and so below the maxVelocity
    of the configuration. *)
Theorem X24_shot_physics (cam : CameraState) (club : ClubType)
    (ds dc : Point2) :
  exists phys,
    calculateShotPhysics cam club (Some ds) (Some dc) = Some phys
    /\ 0 <= shot_powerRatio phys <= 1
    /\ shot_force phys = shot_powerRatio phys * maxForce (CLUB_STATS club)
    /\ 0 <= shot_force phys <= maxForce (CLUB_STATS club)
    /\ minAngle (CLUB_STATS club) <= shot_launchAngle phys
       <= minAngle (CLUB_STATS club) + angleRange (CLUB_STATS club)
    /\ 0 <= y (shot_velocity phys)
    /\ magnitude (shot_velocity phys)
       = shot_force phys * PHYSICS_CONSTANTS.CONTACT_TIME
         / PHYSICS_CONSTANTS.BALL_MASS
    /\ magnitude (shot_velocity phys) < 24
    /\ 24 < maxVelocity PHYSICS_CONFIG.
Proof.
  destruct (calculateShotPhysics_speed cam club ds dc)
    as (phys & E & Hp & Hf & Hy & Hm).
  exists phys. split; [exact E|].
  assert (HF : 0 <= maxForce (CLUB_STATS club) <= 2200)
    by (destruct club; cbn [CLUB_STATS maxForce]; lra).
  assert (Hfb : 0 <= shot_force phys <= maxForce (CLUB_STATS club))
    by (rewrite Hf; nra).
  split; [exact Hp|]. split; [exact Hf|]. split; [exact Hfb|].
  split.
  { destruct (calculateShotPhysics_spec cam club ds dc)
      as (phys' & E' & _ & _ & Ha & _).
    assert (phys' = phys) by congruence. subst phys'. rewrite Ha.
    apply club_angle_bounds. exact Hp. }
  split; [exact Hy|]. split; [exact Hm|]. split.
  - rewrite Hm.
    unfold PHYSICS_CONSTANTS.CONTACT_TIME, PHYSICS_CONSTANTS.BALL_MASS. lra.
  - cbn [PHYSICS_CONFIG maxVelocity]. lra.
Qed.

(** X25 (the launch angle shown for a shot): for a drag that is not of
    length 0, the launch angle that calculateTrajectoryData computes from
    the velocity of the shot is the launch angle that calculateShotPhysics
    derived from the club and the power. *)
Theorem X25_shot_launch_angle (cam : CameraState) (club : ClubType)
    (ds dc : Point2) (phys : ShotPhysics) (startPos : Vector3)
    (config : PhysicsConfig) (levelTiles : list Tile) (maxSteps : nat) :
  calculateShotPhysics cam club (Some ds) (Some dc) = Some phys ->
  0 < shot_powerRatio phys ->
  exists d,
    calculateTrajectoryData startPos (shot_velocity phys) config levelTiles
      maxSteps = Some d
    /\ launchAngle d = shot_launchAngle phys.
Proof.
  intros E Hpos.
  destruct (calculateShotPhysics_spec cam club ds dc)
    as (phys' & E' & Hpr & Hf & Ha & Hy & _ & Hh).
  assert (phys' = phys) by congruence. subst phys'.
  assert (Hp : 0 <= shot_powerRatio phys <= 1).
  { rewrite Hpr. apply powerRatio_bounds. apply sqrt_pos. }
  destruct (club_angle_bounds club (shot_powerRatio phys) Hp) as [_ Hrad].
  rewrite <- Ha in Hrad.
  pose proof PI_RGT_0 as Hpi.
  set (a := shot_launchAngle phys * (PI / 180)) in *.
  set (M := shot_force phys * PHYSICS_CONSTANTS.CONTACT_TIME
            / PHYSICS_CONSTANTS.BALL_MASS) in *.
  assert (HM : 0 < M).
  { unfold M, PHYSICS_CONSTANTS.CONTACT_TIME, PHYSICS_CONSTANTS.BALL_MASS.
    assert (0 < shot_force phys).
    { rewrite Hf. apply Rmult_lt_0_compat; [exact Hpos|].
      destruct club; cbn [CLUB_STATS maxForce]; lra. }
    lra. }
  assert (Hc : 0 < cos a) by (apply cos_gt_0; lra).
  assert (HMc : 0 < M * cos a) by now apply Rmult_lt_0_compat.
  rewrite Rabs_pos_eq in Hh by lra.
  unfold calculateTrajectoryData, trajectoryMetrics.
  destruct (predictTrajectory_cons startPos (shot_velocity phys) config
              levelTiles maxSteps 0.05) as (rest & Er & _).
  rewrite Er.
  destruct (last (startPos :: rest)) as [lp|] eqn:El.
  2:{ apply last_None in El. discriminate. }
  eexists. split; [reflexivity|]. cbn [launchAngle].
  rewrite Hh, Hy. unfold atan2. rewrite decide_True by lra.
  replace (M * sin a / (M * cos a)) with (tan a)
    by (unfold tan; field; lra).
  rewrite atan_tan by lra. unfold a. field. lra.
Qed.

Lemma X25_shot_launch_angle_witness :
  match calculateShotPhysics initialCamera IRON (Some (mkPoint2 100 0))
          (Some (mkPoint2 0 0)) with
  | Some phys =>
    exists d,
      calculateTrajectoryData zeroVector (shot_velocity phys) PHYSICS_CONFIG
        [] 1 = Some d
      /\ launchAngle d = shot_launchAngle phys
  | None => False
  end.
Proof.
  destruct (calculateShotPhysics_spec initialCamera IRON (mkPoint2 100 0)
              (mkPoint2 0 0)) as (phys & E & Hpr & _).
  rewrite E.
  apply (X25_shot_launch_angle initialCamera IRON (mkPoint2 100 0)
           (mkPoint2 0 0) phys zeroVector PHYSICS_CONFIG [] 1 E).
  rewrite Hpr. cbn [px py].
  replace ((100 - 0) * (100 - 0) + (0 - 0) * (0 - 0)) with (100 * 100)
    by ring.
  rewrite sqrt_square by lra. unfold MAX_DRAG_DISTANCE, Rmin.
  destruct (Rle_dec 100 150); lra.
Defined.

(** ** The pointer handlers *)

(** X26 (the shot handed to onShoot): releasing the pointer hands a velocity
    to onShoot only when the game is not paused and an AIM drag is in
    progress whose power ratio exceeds 0.1; that velocity is the one of
    calculateShotPhysics, its speed lies between 1 and 24, it does not point
    downwards, and the drag is over afterwards. *)
Theorem X26_released_shot (props : CanvasProps) (c c' : Canvas)
    (v : Vector3) :
  handlePointerUp props c = (c', Some v) ->
  prop_isPaused props = false
  /\ dragMode c = AIM
  /\ (exists phys,
        calculateShotPhysics (camera c) (prop_selectedClub props)
          (dragStart c) (dragCurrent c) = Some phys
        /\ v = shot_velocity phys /\ 0.1 < shot_powerRatio phys)
  /\ 1 < magnitude v < 24
  /\ 0 <= y v
  /\ c' = mkCanvas (camera c) NONE None None (isHoveringBall c).
Proof.
  unfold handlePointerUp.
  destruct (prop_isPaused props); [discriminate|].
  destruct (dragMode c); try discriminate.
  destruct (dragStart c) as [ds|]; [|discriminate].
  destruct (dragCurrent c) as [dc|]; [|destruct ds; discriminate].
  destruct (calculateShotPhysics_speed (camera c) (prop_selectedClub props)
              ds dc) as (phys & E & Hp & Hf & Hy & Hm).
  rewrite E. destruct (decide (shot_powerRatio phys > 0.1)) as [Hr|Hr];
    [|discriminate].
  intros H. injection H as <- <-.
  split; [reflexivity|]. split; [reflexivity|].
  split; [exists phys; split_all; (reflexivity || lra)|].
  split; [|split; [exact Hy|reflexivity]].
  rewrite Hm, Hf.
  assert (HF : 950 <= maxForce (CLUB_STATS (prop_selectedClub props)) <= 2200)
    by (destruct (prop_selectedClub props); cbn [CLUB_STATS maxForce]; lra).
  assert (95 < shot_powerRatio phys
               * maxForce (CLUB_STATS (prop_selectedClub props)) <= 2200)
    by nra.
  unfold PHYSICS_CONSTANTS.CONTACT_TIME, PHYSICS_CONSTANTS.BALL_MASS. lra.
Qed.

Lemma X26_released_shot_witness :
  match (handlePointerUp (mkCanvasProps zeroVector AIMING IRON false)
           (mkCanvas initialCamera AIM (Some (mkPoint2 100 0))
              (Some (mkPoint2 0 0)) false)).2 with
  | Some v => 1 < magnitude v < 24
  | None => False
  end.
Proof.
  destruct (calculateShotPhysics_spec initialCamera IRON (mkPoint2 100 0)
              (mkPoint2 0 0)) as (phys & E & Hpr & _).
  assert (Hup : handlePointerUp (mkCanvasProps zeroVector AIMING IRON false)
                  (mkCanvas initialCamera AIM (Some (mkPoint2 100 0))
                     (Some (mkPoint2 0 0)) false)
                = (mkCanvas initialCamera NONE None None false,
                   Some (shot_velocity phys))).
  { unfold handlePointerUp.
    cbn [prop_isPaused dragMode camera prop_selectedClub dragStart
         dragCurrent isHoveringBall].
    rewrite E. rewrite decide_True; [reflexivity|].
    rewrite Hpr. cbn [px py].
    replace ((100 - 0) * (100 - 0) + (0 - 0) * (0 - 0)) with (100 * 100)
      by ring.
    rewrite sqrt_square by lra. unfold MAX_DRAG_DISTANCE, Rmin.
    destruct (Rle_dec 100 150); lra. }
  rewrite Hup. cbn [snd].
  exact (proj1 (proj2 (proj2 (proj2
    (X26_released_shot _ _ _ _ Hup))))).
Defined.

Lemma clamp_bounds (lo hi v : R) :
  lo <= hi -> lo <= Rmax lo (Rmin hi v) <= hi.
Proof.
  intros H. unfold Rmax, Rmin.
  destruct (Rle_dec hi v); destruct (Rle_dec lo _); lra.
Qed.

Lemma canvasInv_step (c c' : Canvas) :
  canvasStep c c' -> canvasInv c -> canvasInv c'.
Proof.
  intros Hstep [Hz Hd].
  destruct Hstep as [ball hole w h c|paused cx cy dir c|paused delta c
                    |paused deltaY c|props X Y c|props X Y c c' Hmove
                    |props c].
  - split; [cbn; lra|exact Hd].
  - split; [|exact Hd]. destruct paused; [exact Hz|].
    cbn [setCamera camera]. now rewrite rotateCamera_eq.
  - split; [|exact Hd]. destruct paused; [exact Hz|].
    cbn [setCamera camera handleZoom zoom]. apply clamp_bounds. lra.
  - split; [|exact Hd]. destruct paused; [exact Hz|].
    cbn [setCamera camera handleWheel zoom].
    pose proof (clamp_bounds 0.5 3 (zoom (camera c) - deltaY * 0.001)).
    lra.
  - unfold handlePointerDown.
    destruct (prop_isPaused props); [now split|].
    split; [exact Hz|]. intros _. cbn [dragStart dragCurrent]. split; eauto.
  - unfold handlePointerMove in Hmove.
    destruct (prop_isPaused props); [injection Hmove as <-; now split|].
    destruct (dragMode c) eqn:Em.
    + injection Hmove as <-. split; [exact Hz|].
      cbn [dragMode dragStart dragCurrent]. congruence.
    + destruct (dragCurrent c) as [cur|] eqn:Ec; [|discriminate].
      injection Hmove as <-. split; [exact Hz|].
      cbn [dragMode dragStart dragCurrent]. intros _.
      split; [apply Hd; congruence|eauto].
    + injection Hmove as <-. split; [exact Hz|].
      cbn [dragMode dragStart dragCurrent]. intros _.
      split; [apply Hd; congruence|eauto].
  - unfold handlePointerUp.
    destruct (prop_isPaused props); [now split|].
    split; [exact Hz|]. cbn [fst dragMode]. congruence.
Qed.

(** X27 (the canvas never divides by a zero zoom and never reads a missing
    drag point): in every state the canvas reaches from its initial state by
    its events, the zoom lies between 0.3 and 3, a drag in progress has its
    start and its current point, handlePointerMove does not fail on the
    non-null assertion of dragCurrent, and an AIM drag always yields a
    shot. *)
Theorem X27_canvas_invariant (c : Canvas) :
  canvasReachable c ->
  0.3 <= zoom (camera c) <= 3
  /\ (dragMode c <> NONE -> is_Some (dragStart c) /\ is_Some (dragCurrent c))
  /\ (forall props clientX clientY,
        is_Some (handlePointerMove props clientX clientY c))
  /\ (forall club,
        dragMode c = AIM ->
        is_Some (calculateShotPhysics (camera c) club (dragStart c)
                   (dragCurrent c))).
Proof.
  intros H.
  assert (Hi : canvasInv c).
  { revert c H. apply (rtc_ind_r canvasInv).
    - split; [cbn; lra|]. cbn. congruence.
    - intros c c' _ Hstep IH. now apply (canvasInv_step c c'). }
  destruct Hi as [Hz Hd]. split; [exact Hz|]. split; [exact Hd|]. split.
  - intros props X Y. unfold handlePointerMove.
    destruct (prop_isPaused props); [eauto|].
    destruct (dragMode c) eqn:Em; eauto.
    destruct Hd as [_ [cur ->]]; [congruence|]. eauto.
  - intros club Em.
    destruct Hd as [[ds ->] [dc ->]]; [congruence|].
    destruct (calculateShotPhysics_spec (camera c) club ds dc)
      as (phys & -> & _). eauto.
Qed.

Lemma X27_canvas_invariant_witness :
  0.3 <= zoom (camera (setCamera (handleZoom false 5 initialCamera)
                         initialCanvas)) <= 3.
Proof.
  refine (proj1 (X27_canvas_invariant _ _)).
  eapply rtc_l; [apply (canvas_zoom false 5)|]. apply rtc_refl.
Defined.

(** ** The last phase of the level generator *)

Lemma cellsAround_elem (cx cz r a b : Z) :
  (a, b) ∈ cellsAround cx cz r <-> around cx cz r a b.
Proof.
  unfold cellsAround, around. rewrite list_elem_of_bind. split.
  - intros (i & Hj & Hi). apply list_elem_of_bind in Hj as (j & Hab & Hj).
    apply list_elem_of_singleton in Hab. injection Hab as -> ->.
    apply elem_of_seqZ in Hi, Hj. lia.
  - intros [Ha Hb]. exists (a - cx)%Z. split; [|apply elem_of_seqZ; lia].
    apply list_elem_of_bind. exists (b - cz)%Z.
    split; [|apply elem_of_seqZ; lia].
    apply list_elem_of_singleton. f_equal; lia.
Qed.

(** The grid after the loops of [clearRadius] over a list of cells. *)
Lemma clearCells_grid (bg : TileType) (cells : list (Z * Z)) (t : Terrain)
    (a b : Z) :
  grid (foldl (clearCell bg) t cells) a b
  = if decide ((a, b) ∈ cells /\ inGrid a b /\ hazard (grid t a b))
    then bg else grid t a b.
Proof.
  revert t. induction cells as [|c cells IH]; intros t.
  - cbn [foldl]. rewrite decide_False; [reflexivity|].
    intros [H _]. now apply elem_of_nil in H.
  - cbn [foldl]. rewrite IH. destruct c as [ca cb].
    unfold clearCell, inGrid, hazard; cbn [fst snd].
    destruct (decide ((0 <= ca < gridSize)%Z /\ (0 <= cb < gridSize)%Z))
      as [Hg|Hg].
    + destruct (decide (grid t ca cb = TREE \/ grid t ca cb = OBSTACLE
                        \/ grid t ca cb = WATER)) as [Hh|Hh].
      * cbn [grid]. unfold setCell.
        destruct (decide (a = ca /\ b = cb)) as [[-> ->]|Hne].
        -- rewrite (decide_True (P := (ca, cb) ∈ (ca, cb) :: cells /\ _)).
           ++ now destruct (decide _).
           ++ split; [now left|]. now split.
        -- apply decide_ext. rewrite elem_of_cons. split.
           ++ intros (H & H1 & H2). split; [now right|]. now split.
           ++ intros ([H|H] & H1 & H2); [|now split].
              injection H as -> ->. now destruct Hne.
      * apply decide_ext. rewrite elem_of_cons. split.
        -- intros (H & H1 & H2). split; [now right|]. now split.
        -- intros ([H|H] & H1 & H2); [|now split].
           injection H as -> ->. now destruct Hh.
    + apply decide_ext. rewrite elem_of_cons. split.
      * intros (H & H1 & H2). split; [now right|]. now split.
      * intros ([H|H] & H1 & H2); [|now split].
        injection H as -> ->. now destruct Hg.
Qed.

Lemma clearRadius_grid (bg : TileType) (cx cz r : Z) (t : Terrain)
    (a b : Z) :
  grid (clearRadius bg cx cz r t) a b
  = if decide (around cx cz r a b /\ inGrid a b /\ hazard (grid t a b))
    then bg else grid t a b.
Proof.
  unfold clearRadius. rewrite clearCells_grid. apply decide_ext.
  now rewrite cellsAround_elem.
Qed.

Lemma fmap_bind_list {A B C : Type} (f : B -> C) (g : A -> list B)
    (l : list A) :
  f <$> (l ≫= g) = l ≫= (fun a => f <$> g a).
Proof.
  induction l as [|a l IH]; [reflexivity|].
  cbn [mbind list_bind]. now rewrite fmap_app, <- IH.
Qed.

Lemma length_bind_const {A B : Type} (g : A -> list B) (l : list A)
    (n : nat) :
  (forall a, a ∈ l -> length (g a) = n) ->
  length (l ≫= g) = (length l * n)%nat.
Proof.
  induction l as [|a l IH]; intros H; [reflexivity|].
  cbn [mbind list_bind length]. rewrite length_app, (H a) by now left.
  rewrite IH; [lia|]. intros a' Ha'. apply H. now right.
Qed.

Lemma flattenTiles_elem (t : Terrain) (tile : Tile) :
  tile ∈ flattenTiles t
  <-> exists a b,
        inGrid a b /\ tile = mkTile a b (heightMap t a b) (grid t a b).
Proof.
  unfold flattenTiles, inGrid. rewrite list_elem_of_bind. split.
  - intros (a & Hb & Ha). apply list_elem_of_bind in Hb as (b & Ht & Hb).
    apply list_elem_of_singleton in Ht. apply elem_of_seqZ in Ha, Hb.
    exists a, b. split; [lia|exact Ht].
  - intros (a & b & [Ha Hb] & ->). exists a.
    split; [|apply elem_of_seqZ; lia]. apply list_elem_of_bind. exists b.
    split; [now apply list_elem_of_singleton|apply elem_of_seqZ; lia].
Qed.

Lemma flattenTiles_NoDup (t : Terrain) :
  NoDup (tileCoords <$> flattenTiles t).
Proof.
  unfold flattenTiles. rewrite fmap_bind_list. apply NoDup_bind.
  - intros a1 a2 c _ _ H1 H2.
    apply list_elem_of_fmap in H1 as (t1 & -> & H1).
    apply list_elem_of_fmap in H2 as (t2 & E & H2).
    apply list_elem_of_bind in H1 as (b1 & H1 & _).
    apply list_elem_of_bind in H2 as (b2 & H2 & _).
    apply list_elem_of_singleton in H1, H2. subst t1 t2.
    now injection E.
  - intros a _. rewrite fmap_bind_list. apply NoDup_bind.
    + intros b1 b2 c _ _ H1 H2. cbn in H1, H2.
      apply list_elem_of_singleton in H1, H2. subst c. now injection H2.
    + intros b _. cbn. apply NoDup_singleton.
    + apply NoDup_seqZ.
  - apply NoDup_seqZ.
Qed.

Lemma flattenTiles_lookup (t : Terrain) (a b : Z) :
  inGrid a b ->
  buildTileMap (flattenTiles t) !! tileKey a b
  = Some (mkTile a b (heightMap t a b) (grid t a b)).
Proof.
  intros Hg.
  apply (buildTileMap_lookup_NoDup (flattenTiles t)
           (mkTile a b (heightMap t a b) (grid t a b))).
  - apply flattenTiles_NoDup.
  - apply flattenTiles_elem. now exists a, b.
Qed.

(** X28 (the tile array of a level): the tile array built at the end of
    generateLevel holds exactly one tile for each of the 32 x 32 cells and
    nothing else: it has 1024 tiles with pairwise distinct coordinates, the
    tile map built from it has, at each cell of the grid, the tile of that
    cell with the height and the type of the arrays, and has no tile
    outside the grid. *)
Theorem X28_level_tiles (t : Terrain) (a b : Z) :
  length (flattenTiles t) = 1024%nat
  /\ NoDup (tileCoords <$> flattenTiles t)
  /\ (inGrid a b ->
      buildTileMap (flattenTiles t) !! tileKey a b
      = Some (mkTile a b (heightMap t a b) (grid t a b)))
  /\ (~ inGrid a b -> buildTileMap (flattenTiles t) !! tileKey a b = None).
Proof.
  split.
  { unfold flattenTiles.
    rewrite (length_bind_const _ _ 32), length_seqZ; [reflexivity|].
    intros a' _. rewrite (length_bind_const _ _ 1), length_seqZ;
      [reflexivity|]. reflexivity. }
  split; [apply flattenTiles_NoDup|].
  split; [apply flattenTiles_lookup|].
  intros Hout. apply buildTileMap_lookup_None. intros tile Hin Hk.
  apply flattenTiles_elem in Hin as (a' & b' & Hg & ->).
  unfold tileCoords, tileKey in Hk; cbn [tile_x tile_z] in Hk.
  injection Hk as -> ->. now apply Hout.
Qed.

Lemma round_IZR (k : Z) : round (IZR k) = k.
Proof. apply round_eq. lra. Qed.

Lemma baseGroundOf_no_hazard (biome : Biome) : ~ hazard (baseGroundOf biome).
Proof. destruct biome; intros [H|[H|H]]; discriminate. Qed.

(** The fields of a finished level. *)
Lemma finalizeLevel_tiles (bg : TileType) (startX startZ endX endZ : Z)
    (t : Terrain) :
  tiles (finalizeLevel bg startX startZ endX endZ t)
  = flattenTiles
      (mkTerrain
         (setCell
            (setCell
               (grid (clearRadius bg endX endZ 2
                        (clearRadius bg startX startZ 2 t)))
               startX startZ GREEN)
            endX endZ GREEN)
         (heightMap (clearRadius bg endX endZ 2
                       (clearRadius bg startX startZ 2 t)))).
Proof. reflexivity. Qed.

Lemma finalizeLevel_startPosition (bg : TileType)
    (startX startZ endX endZ : Z) (t : Terrain) :
  startPosition (finalizeLevel bg startX startZ endX endZ t)
  = mkVector3 (IZR startX) 0.15 (IZR startZ).
Proof. reflexivity. Qed.

Lemma finalizeLevel_holePosition (bg : TileType)
    (startX startZ endX endZ : Z) (t : Terrain) :
  holePosition (finalizeLevel bg startX startZ endX endZ t)
  = mkVector3 (IZR endX) 0 (IZR endZ).
Proof. reflexivity. Qed.

(** The tile of a cell in the map of a finished level. *)
Lemma finalizeLevel_lookup (bg : TileType) (startX startZ endX endZ : Z)
    (t : Terrain) (a b : Z) :
  inGrid a b ->
  buildTileMap (tiles (finalizeLevel bg startX startZ endX endZ t))
    !! tileKey a b
  = Some (mkTile a b
            (heightMap (clearRadius bg endX endZ 2
                          (clearRadius bg startX startZ 2 t)) a b)
            (setCell
               (setCell
                  (grid (clearRadius bg endX endZ 2
                           (clearRadius bg startX startZ 2 t)))
                  startX startZ GREEN)
               endX endZ GREEN a b)).
Proof.
  intros Hg. rewrite finalizeLevel_tiles.
  generalize (clearRadius bg endX endZ 2 (clearRadius bg startX startZ 2 t)).
  intros t2. now rewrite (flattenTiles_lookup _ a b Hg).
Qed.

(** Around the tee and around the hole no tile of a finished level is a
    TREE, an OBSTACLE or WATER. *)
Lemma finalizeLevel_clear (biome : Biome) (startX startZ endX endZ : Z)
    (t : Terrain) (a b : Z) (tile : Tile) :
  around startX startZ 2 a b \/ around endX endZ 2 a b ->
  buildTileMap
    (tiles (finalizeLevel (baseGroundOf biome) startX startZ endX endZ t))
    !! tileKey a b = Some tile ->
  ~ hazard (type tile).
Proof.
  intros Hnear Hl.
  assert (Hg : inGrid a b).
  { apply buildTileMap_lookup_Some in Hl as [Hin Hk].
    rewrite finalizeLevel_tiles in Hin.
    apply flattenTiles_elem in Hin as (a' & b' & Hg & ->).
    unfold tileCoords, tileKey in Hk. cbn [tile_x tile_z] in Hk.
    now injection Hk as -> ->. }
  rewrite finalizeLevel_lookup in Hl by exact Hg.
  injection Hl as <-. cbn [type]. unfold setCell.
  pose proof (baseGroundOf_no_hazard biome) as Hbg.
  destruct (decide (a = endX /\ b = endZ));
    [intros [H|[H|H]]; discriminate|].
  destruct (decide (a = startX /\ b = startZ));
    [intros [H|[H|H]]; discriminate|].
  rewrite !clearRadius_grid.
  destruct (decide (around startX startZ 2 a b /\ inGrid a b
                    /\ hazard (grid t a b))) as [H1|H1].
  - now destruct (decide _).
  - destruct (decide (around endX endZ 2 a b /\ inGrid a b
                      /\ hazard (grid t a b))) as [H2|H2]; [exact Hbg|].
    intros Hh. destruct Hnear as [Hn|Hn]; [apply H1|apply H2]; now split.
Qed.

(** X29 (tee and hole of a level): when the tee and the hole lie in the
    grid, the level that generateLevel returns has a GREEN tile under its
    start position and a GREEN tile under its hole position, and no tile
    within two rows and two columns of the tee or of the hole is a TREE, an
    OBSTACLE or WATER, whatever the terrain the random phases drew and
    whatever the biome. *)
Theorem X29_tee_and_hole (biome : Biome) (startX startZ endX endZ : Z)
    (t : Terrain) (a b : Z) :
  inGrid startX startZ -> inGrid endX endZ ->
  (exists tile,
     tileAt
       (buildTileMap
          (tiles (finalizeLevel (baseGroundOf biome) startX startZ endX endZ
                    t)))
       (startPosition
          (finalizeLevel (baseGroundOf biome) startX startZ endX endZ t))
     = Some tile
     /\ type tile = GREEN /\ tile_x tile = startX /\ tile_z tile = startZ)
  /\ (exists tile,
        tileAt
          (buildTileMap
             (tiles (finalizeLevel (baseGroundOf biome) startX startZ endX
                       endZ t)))
          (holePosition
             (finalizeLevel (baseGroundOf biome) startX startZ endX endZ t))
        = Some tile
        /\ type tile = GREEN /\ tile_x tile = endX /\ tile_z tile = endZ)
  /\ (around startX startZ 2 a b \/ around endX endZ 2 a b ->
      forall tile,
        buildTileMap
          (tiles (finalizeLevel (baseGroundOf biome) startX startZ endX endZ
                    t))
          !! tileKey a b = Some tile ->
        type tile <> TREE /\ type tile <> OBSTACLE /\ type tile <> WATER).
Proof.
  intros Hs He. split; [|split].
  - eexists. unfold tileAt. rewrite finalizeLevel_startPosition.
    cbn [x z]. rewrite !round_IZR.
    rewrite finalizeLevel_lookup by exact Hs.
    split; [reflexivity|]. cbn [type tile_x tile_z]. unfold setCell.
    split; [|now split].
    destruct (decide (startX = endX /\ startZ = endZ)); [reflexivity|].
    now rewrite decide_True.
  - eexists. unfold tileAt. rewrite finalizeLevel_holePosition.
    cbn [x z]. rewrite !round_IZR.
    rewrite finalizeLevel_lookup by exact He.
    split; [reflexivity|]. cbn [type tile_x tile_z]. unfold setCell.
    split; [|now split]. now rewrite decide_True.
  - intros Hnear tile Hl.
    pose proof (finalizeLevel_clear biome startX startZ endX endZ t a b tile
                  Hnear Hl) as Hh.
    unfold hazard in Hh. tauto.
Qed.

Lemma X29_tee_and_hole_witness :
  exists tile,
    tileAt
      (buildTileMap
         (tiles (finalizeLevel (baseGroundOf MEADOW) 4 4 28 28
                   (mkTerrain (fun _ _ => WATER) (fun _ _ => -0.5)))))
      (startPosition
         (finalizeLevel (baseGroundOf MEADOW) 4 4 28 28
            (mkTerrain (fun _ _ => WATER) (fun _ _ => -0.5))))
    = Some tile
    /\ type tile = GREEN /\ tile_x tile = 4%Z /\ tile_z tile = 4%Z.
Proof.
  refine (proj1 (X29_tee_and_hole MEADOW 4 4 28 28
                   (mkTerrain (fun _ _ => WATER) (fun _ _ => -0.5)) 0 0 _ _));
    unfold inGrid, gridSize; lia.
Defined.

(** The heights after the loops of [clearRadius] over a list of cells. *)
Lemma clearCells_heightMap (bg : TileType) (cells : list (Z * Z))
    (t : Terrain) (a b : Z) :
  heightMap (foldl (clearCell bg) t cells) a b
  = if decide ((a, b) ∈ cells /\ inGrid a b /\ hazard (grid t a b))
    then 0 else heightMap t a b.
Proof.
  revert t. induction cells as [|c cells IH]; intros t.
  - cbn [foldl]. rewrite decide_False; [reflexivity|].
    intros [H _]. now apply elem_of_nil in H.
  - cbn [foldl]. rewrite IH. destruct c as [ca cb].
    unfold clearCell, inGrid, hazard; cbn [fst snd].
    destruct (decide ((0 <= ca < gridSize)%Z /\ (0 <= cb < gridSize)%Z))
      as [Hg|Hg].
    + destruct (decide (grid t ca cb = TREE \/ grid t ca cb = OBSTACLE
                        \/ grid t ca cb = WATER)) as [Hh|Hh].
      * cbn [grid heightMap]. unfold setCell.
        destruct (decide (a = ca /\ b = cb)) as [[-> ->]|Hne].
        -- rewrite (decide_True (P := (ca, cb) ∈ (ca, cb) :: cells /\ _)).
           ++ now destruct (decide _).
           ++ split; [now left|]. now split.
        -- apply decide_ext. rewrite elem_of_cons. split.
           ++ intros (H & H1 & H2). split; [now right|]. now split.
           ++ intros ([H|H] & H1 & H2); [|now split].
              injection H as -> ->. now destruct Hne.
      * apply decide_ext. rewrite elem_of_cons. split.
        -- intros (H & H1 & H2). split; [now right|]. now split.
        -- intros ([H|H] & H1 & H2); [|now split].
           injection H as -> ->. now destruct Hh.
    + apply decide_ext. rewrite elem_of_cons. split.
      * intros (H & H1 & H2). split; [now right|]. now split.
      * intros ([H|H] & H1 & H2); [|now split].
        injection H as -> ->. now destruct Hg.
Qed.

Lemma clearRadius_heightMap (bg : TileType) (cx cz r : Z) (t : Terrain)
    (a b : Z) :
  heightMap (clearRadius bg cx cz r t) a b
  = if decide (around cx cz r a b /\ inGrid a b /\ hazard (grid t a b))
    then 0 else heightMap t a b.
Proof.
  unfold clearRadius. rewrite clearCells_heightMap. apply decide_ext.
  now rewrite cellsAround_elem.
Qed.

(** Over the tee tile and over the hole tile of a finished level the obstacle
    scan finds no collider. *)
Lemma finalizeLevel_scan (biome : Biome) (startX startZ endX endZ : Z)
    (t : Terrain) (p v : Vector3) :
  round (x p) = startX /\ round (z p) = startZ
  \/ round (x p) = endX /\ round (z p) = endZ ->
  collideAll
    (buildTileMap
       (tiles (finalizeLevel (baseGroundOf biome) startX startZ endX endZ t)))
    (p, v) = (p, v).
Proof.
  intros Hover. unfold collideAll; cbn [fst]. apply foldl_fixed.
  intros [i j] Hij. apply scanOffsets_bounds in Hij as [Hi Hj].
  unfold scanCell; cbn [fst snd].
  destruct (_ !! _) as [tile|] eqn:E; [|reflexivity].
  destruct (isCollider (type tile)) eqn:Hc; [|reflexivity].
  exfalso.
  apply (finalizeLevel_clear biome startX startZ endX endZ t
           (round (x p) + i) (round (z p) + j) tile).
  - unfold around. destruct Hover as [[-> ->]|[-> ->]]; [left|right]; lia.
  - exact E.
  - unfold hazard. clear E. destruct (type tile); try discriminate Hc; auto.
Qed.

(** X30 (play on the tee and on the hole of a level): on a level that
    generateLevel returns, with the tee and the hole in the grid, the
    obstacle scan of a physics step leaves a ball over the tee tile or over
    the hole tile as it is, whatever its velocity, and the ball a game starts
    with is not out of bounds. *)
Theorem X30_tee_and_hole_in_play (biome : Biome)
    (startX startZ endX endZ : Z) (t : Terrain) (p v : Vector3) :
  inGrid startX startZ -> inGrid endX endZ ->
  (round (x p) = startX /\ round (z p) = startZ
   \/ round (x p) = endX /\ round (z p) = endZ ->
   collideAll
     (buildTileMap
        (tiles (finalizeLevel (baseGroundOf biome) startX startZ endX endZ
                  t)))
     (p, v) = (p, v))
  /\ outOfBounds
       (gameTileMap
          (initialGame
             (finalizeLevel (baseGroundOf biome) startX startZ endX endZ t)))
       (ballState
          (initialGame
             (finalizeLevel (baseGroundOf biome) startX startZ endX endZ t)))
     = false.
Proof.
  intros Hs He. split.
  - intros Hover.
    exact (finalizeLevel_scan biome startX startZ endX endZ t p v Hover).
  - unfold outOfBounds, gameTileMap, initialGame, freshBall.
    cbn [level ballState position]. unfold tileAt.
    rewrite finalizeLevel_startPosition.
    cbn [x y z]. rewrite !round_IZR.
    rewrite finalizeLevel_lookup by exact Hs. cbn [type].
    rewrite orb_false_iff, !bool_decide_eq_false. split; [|lra].
    unfold setCell.
    destruct (decide (startX = endX /\ startZ = endZ)); [discriminate|].
    rewrite decide_True by easy. discriminate.
Qed.

Lemma X30_tee_and_hole_in_play_witness :
  outOfBounds
    (gameTileMap
       (initialGame
          (finalizeLevel (baseGroundOf DESERT) 4 4 28 28
             (mkTerrain (fun _ _ => WATER) (fun _ _ => -0.5)))))
    (ballState
       (initialGame
          (finalizeLevel (baseGroundOf DESERT) 4 4 28 28
             (mkTerrain (fun _ _ => WATER) (fun _ _ => -0.5)))))
  = false.
Proof.
  refine (proj2 (X30_tee_and_hole_in_play DESERT 4 4 28 28
                   (mkTerrain (fun _ _ => WATER) (fun _ _ => -0.5))
                   zeroVector zeroVector _ _));
    unfold inGrid, gridSize; lia.
Defined.

(** * Hole capture, first touchdown and obstacle bounce *)

(** ** C1 *)

(** A point within 0.3 of the hole centre lies within 0.3 of it along each
    axis. *)
Lemma distToHole_near (hole p : Vector3) :
  distToHole hole p < 0.3 ->
  Rabs (x p - x hole) < 0.3 /\ Rabs (z p - z hole) < 0.3.
Proof.
  unfold distToHole, magnitude; cbn [x y z]. intros H.
  set (dx := x p - x hole) in *. set (dz := z p - z hole) in *.
  assert (Hs : dx * dx + 0 * 0 + dz * dz < 0.3 * 0.3).
  { apply Rnot_le_lt. intros Hle. apply sqrt_le_1_alt in Hle.
    rewrite sqrt_square in Hle by lra. lra. }
  split; apply Rabs_def1; nra.
Qed.

(** No tile of a finished level under a point of the hole cell is WATER. *)
Lemma finalizeLevel_hole_not_water (bg : TileType)
    (startX startZ endX endZ : Z) (t : Terrain) (p : Vector3) (tile : Tile) :
  round (x p) = endX -> round (z p) = endZ ->
  tileAt (buildTileMap (tiles (finalizeLevel bg startX startZ endX endZ t))) p
  = Some tile ->
  type tile = GREEN.
Proof.
  unfold tileAt. intros -> -> Hl.
  assert (Hg : inGrid endX endZ).
  { apply buildTileMap_lookup_Some in Hl as [Hin Hk].
    rewrite finalizeLevel_tiles in Hin.
    apply flattenTiles_elem in Hin as (a' & b' & Hg & ->).
    unfold tileCoords, tileKey in Hk. cbn [tile_x tile_z] in Hk.
    now injection Hk as -> ->. }
  rewrite finalizeLevel_lookup in Hl by exact Hg.
  injection Hl as <-. cbn [type]. unfold setCell.
  destruct (decide (endX = endX /\ endZ = endZ)) as [_|H]; [reflexivity|].
  exfalso. apply H. now split.
Qed.

(** The event of a step, read off its result. *)
Lemma step_water_tile (pos0 vel0 : Vector3) (dt : R) (config : PhysicsConfig)
    (tileMap : gmap (Z * Z) Tile) :
  collision (calculateNextState pos0 vel0 dt config tileMap)
  = Some "WATER"%string ->
  exists t,
    tileAt tileMap (pos (calculateNextState pos0 vel0 dt config tileMap))
    = Some t
    /\ type t = WATER.
Proof.
  unfold calculateNextState.
  generalize (scanned pos0 vel0 dt config tileMap). intros st Hw.
  pose proof (groundResponse_events tileMap config dt st) as H.
  cbv zeta in H. destruct H as (_ & _ & H).
  destruct (H Hw) as (_ & t & Ht & Hty & _). exists t. split; assumption.
Qed.

(** C1 (hole capture): on every level that generateLevel returns, in a
    sub-step of a moving ball that passed the void guard, if after the step
    the horizontal distance from the ball to the hole centre is below 0.3
    and the speed is below 5, the sub-step sets inHole, puts the ball on
    the hole centre with zero velocity and isMoving = false and ends the
    loop of the frame; no later run of the loop changes that state.  (The
    hole centre has integer coordinates and the tile of its cell is GREEN,
    so a step that ends within 0.3 of it does not report WATER.) *)
Theorem C1_hole_capture (biome : Biome) (startX startZ endX endZ : Z)
    (t : Terrain) (config : PhysicsConfig) (subDt : R) (s : BallState) :
  let lvl := finalizeLevel (baseGroundOf biome) startX startZ endX endZ t in
  let tileMap := buildTileMap (tiles lvl) in
  let hole := holePosition lvl in
  isMoving s = true ->
  ~ y (position s) < -10 ->
  let r := calculateNextState (position s) (velocity s) subDt config tileMap in
  distToHole hole (pos r) < 0.3 ->
  magnitude (vel r) < 5 ->
  let captured :=
    mkBallState hole zeroVector false true (lastStablePosition s) in
  subStep config tileMap hole subDt s = (captured, true)
  /\ (forall n, subSteps config tileMap hole subDt (S n) s = captured)
  /\ (forall config' tileMap' hole' dt' n,
        subSteps config' tileMap' hole' dt' n captured = captured).
Proof.
  intros lvl tileMap hole.
  assert (Hhole : hole = mkVector3 (IZR endX) 0 (IZR endZ))
    by apply finalizeLevel_holePosition.
  assert (Hgreen : forall p tile,
            round (x p) = endX -> round (z p) = endZ ->
            tileAt tileMap p = Some tile -> type tile = GREEN)
    by (intros p tile; apply finalizeLevel_hole_not_water).
  clearbody tileMap hole. clear lvl.
  intros Hm Hv r Hd Hs captured.
  assert (Hw : collision r <> Some "WATER"%string).
  { intros Hw. apply step_water_tile in Hw as (tile & Ht & Hty).
    apply distToHole_near in Hd as [Hx Hz].
    rewrite Hhole in Hx, Hz. cbn [x z] in Hx, Hz.
    apply Rabs_def2 in Hx, Hz.
    assert (Ex : round (x (pos r)) = endX) by (apply round_eq; lra).
    assert (Ez : round (z (pos r)) = endZ) by (apply round_eq; lra).
    rewrite (Hgreen (pos r) tile Ex Ez Ht) in Hty. discriminate Hty. }
  assert (E : subStep config tileMap hole subDt s = (captured, true))
    by (now apply subStep_capture).
  split; [exact E|]. split.
  - intros n. now apply subSteps_break.
  - intros. now apply subSteps_stopped.
Qed.

(** A step that ends in the air over the hole cell of a finished level
    returns the integrated state. *)
Lemma step_over_hole (biome : Biome) (startX startZ endX endZ : Z)
    (t : Terrain) (config : PhysicsConfig) (pos0 vel0 : Vector3) (dt : R) :
  inGrid endX endZ ->
  round (x (integrate pos0 vel0 dt config).1) = endX ->
  round (z (integrate pos0 vel0 dt config).1) = endZ ->
  heightMap
    (clearRadius (baseGroundOf biome) endX endZ 2
       (clearRadius (baseGroundOf biome) startX startZ 2 t)) endX endZ
  < y (integrate pos0 vel0 dt config).1 ->
  calculateNextState pos0 vel0 dt config
    (buildTileMap
       (tiles (finalizeLevel (baseGroundOf biome) startX startZ endX endZ t)))
  = mkStepResult (integrate pos0 vel0 dt config).1
      (integrate pos0 vel0 dt config).2 None.
Proof.
  intros Hg Ex Ez Hy. unfold calculateNextState, scanned.
  destruct (integrate pos0 vel0 dt config) as [p v]. cbn [fst snd] in *.
  rewrite finalizeLevel_scan by (right; now split).
  apply groundResponse_airborne. unfold tileAt. rewrite Ex, Ez.
  rewrite finalizeLevel_lookup by exact Hg. exact Hy.
Qed.

(** Scenario C on a level of the generator: the arrays as they are before
    any land is drawn (all WATER, height -0.5), the tee at (4, 4) and the
    hole at (28, 28); a ball 0.1 from the hole centre, launched at speed
    2. *)
Lemma C1_hole_capture_witness :
  subStep PHYSICS_CONFIG
    (buildTileMap
       (tiles (finalizeLevel (baseGroundOf MEADOW) 4 4 28 28
                 (mkTerrain (fun _ _ => WATER) (fun _ _ => -0.5)))))
    (holePosition
       (finalizeLevel (baseGroundOf MEADOW) 4 4 28 28
          (mkTerrain (fun _ _ => WATER) (fun _ _ => -0.5))))
    0.01
    (mkBallState (mkVector3 27.9 1 28) (mkVector3 2 0 0) true false
       (mkVector3 4 0.15 4))
  = (mkBallState
       (holePosition
          (finalizeLevel (baseGroundOf MEADOW) 4 4 28 28
             (mkTerrain (fun _ _ => WATER) (fun _ _ => -0.5))))
       zeroVector false true (mkVector3 4 0.15 4), true).
Proof.
  assert (Ei : integrate (mkVector3 27.9 1 28) (mkVector3 2 0 0) 0.01
                 PHYSICS_CONFIG
               = (mkVector3 27.91984 0.9965 28, mkVector3 1.984 (-0.35) 0))
    by (unfold_integrate; f_equal; f_equal; lra).
  assert (Es : calculateNextState (mkVector3 27.9 1 28) (mkVector3 2 0 0) 0.01
                 PHYSICS_CONFIG
                 (buildTileMap
                    (tiles (finalizeLevel (baseGroundOf MEADOW) 4 4 28 28
                              (mkTerrain (fun _ _ => WATER)
                                 (fun _ _ => -0.5)))))
               = mkStepResult (mkVector3 27.91984 0.9965 28)
                   (mkVector3 1.984 (-0.35) 0) None).
  { rewrite step_over_hole; rewrite ?Ei; cbn [fst snd x y z].
    - reflexivity.
    - unfold inGrid, gridSize. lia.
    - apply round_eq. simpl. lra.
    - apply round_eq. simpl. lra.
    - rewrite clearRadius_heightMap, decide_True; [lra|].
      split; [unfold around; lia|]. split; [unfold inGrid, gridSize; lia|].
      rewrite clearRadius_grid, decide_False; [right; now right|].
      intros [[H _] _]. lia. }
  refine (proj1 (C1_hole_capture MEADOW 4 4 28 28
                   (mkTerrain (fun _ _ => WATER) (fun _ _ => -0.5))
                   PHYSICS_CONFIG 0.01
                   (mkBallState (mkVector3 27.9 1 28) (mkVector3 2 0 0) true
                      false (mkVector3 4 0.15 4)) eq_refl _ _ _));
    cbn [position velocity]; rewrite ?Es; cbn [pos vel].
  - cbn [y]. lra.
  - rewrite finalizeLevel_holePosition. unfold distToHole.
    apply magnitude_lt; cbn [x y z]; lra.
  - apply magnitude_lt; cbn [x y z]; lra.
Defined.

(** ** C3 *)

(** C3 (first touchdown): at every iteration the prediction loop goes
    through, if the stepped position is at or below the floor under the
    pre-step position, which is the height of the tile under the pre-step
    position (0 when there is no tile there), and the pre-step vertical
    velocity is negative, the loop stops there: the returned sequence is the
    path so far followed by the stepped point with y set to that height,
    which is its last element. *)
Theorem C3_first_touchdown (startPos startVel : Vector3)
    (config : PhysicsConfig) (levelTiles : list Tile) (steps : nat) (dt : R)
    (n i : nat) (cp cv : Vector3) (l : list Vector3) :
  loopReaches startPos startVel config levelTiles steps dt
    (mkLoopState (S n) i cp cv l) ->
  let tileMap := buildTileMap levelTiles in
  let r := calculateNextState cp cv dt config tileMap in
  let floor :=
    match tileAt tileMap cp with
    | Some preStepTile => height preStepTile
    | None => 0
    end in
  y (pos r) <= floor ->
  y cv < 0 ->
  let landing := mkVector3 (x (pos r)) floor (z (pos r)) in
  predictTrajectory startPos startVel config levelTiles steps dt
  = l ++ [landing]
  /\ last (predictTrajectory startPos startVel config levelTiles steps dt)
     = Some landing.
Proof.
  intros Hreach tileMap r floor Hy Hv landing.
  assert (Hf : checkFloor tileMap cp = floor).
  { unfold checkFloor, floor.
    destruct (tileAt tileMap cp) as [tile|]; [apply orZero_Some|reflexivity]. }
  rewrite (loopReaches_result _ _ _ _ _ _ _ Hreach).
  unfold runLoop; cbn [fuel iteration currentPos currentVel path predictLoop].
  fold tileMap r. rewrite Hf.
  case_decide as H; [|exfalso; apply H; split; lra].
  split; [reflexivity|apply last_snoc].
Qed.

Lemma plateau_lookup (k : Z * Z) :
  buildTileMap [plateauTile] !! k
  = if decide (k = tileKey 0 0) then Some plateauTile else None.
Proof.
  unfold buildTileMap; cbn [foldl plateauTile tile_x tile_z].
  case_decide as H.
  - subst k. apply lookup_insert_eq.
  - rewrite lookup_insert_ne by congruence. apply lookup_empty.
Qed.

(** A ball leaving the plateau: the step ends in the air beyond the edge,
    below the height of the plateau. *)
Lemma plateau_step :
  calculateNextState (mkVector3 0.4 1.01 0) (mkVector3 5 (-1) 0) 0.05
    PHYSICS_CONFIG (buildTileMap [plateauTile])
  = mkStepResult (mkVector3 0.64 0.8745 0) (mkVector3 4.8 (-2.71) 0) None.
Proof.
  assert (E : integrate (mkVector3 0.4 1.01 0) (mkVector3 5 (-1) 0) 0.05
                PHYSICS_CONFIG
              = (mkVector3 0.64 0.8745 0, mkVector3 4.8 (-2.71) 0)).
  { unfold_integrate. f_equal; f_equal; lra. }
  rewrite step_airborne; rewrite ?E; cbn [fst snd]; try reflexivity.
  - intros k t. rewrite plateau_lookup. case_decide; [|discriminate].
    intros Ht. injection Ht as <-. reflexivity.
  - unfold tileAt; cbn [x z].
    rewrite (round_eq 1 0.64), round_0 by (simpl; lra).
    rewrite plateau_lookup, decide_False by discriminate.
    cbn [floorHeight y]. lra.
Qed.

(** The ball leaves a tile of height 1 and is predicted to land at height 1,
    the height of the tile under the position before the step, though no
    tile lies under the position after it. *)
Lemma C3_first_touchdown_witness :
  predictTrajectory (mkVector3 0.4 1.01 0) (mkVector3 5 (-1) 0) PHYSICS_CONFIG
    [plateauTile] 1 0.05
  = [mkVector3 0.4 1.01 0; mkVector3 0.64 1 0].
Proof.
  assert (F : tileAt (buildTileMap [plateauTile]) (mkVector3 0.4 1.01 0)
              = Some plateauTile).
  { unfold tileAt; cbn [x z].
    rewrite (round_eq 0 0.4), round_0 by (simpl; lra).
    rewrite plateau_lookup. now rewrite decide_True. }
  pose proof (C3_first_touchdown (mkVector3 0.4 1.01 0) (mkVector3 5 (-1) 0)
                PHYSICS_CONFIG [plateauTile] 1 0.05 0 0
                (mkVector3 0.4 1.01 0) (mkVector3 5 (-1) 0)
                [mkVector3 0.4 1.01 0]) as H.
  cbv zeta in H. rewrite F, plateau_step in H.
  cbn [pos x y z app plateauTile height] in H.
  apply H.
  - apply rtc_refl.
  - lra.
  - lra.
Defined.

(** ** C8: the bounce when no other collider fires *)

Lemma foldl_single_at {A B} (f : A -> B -> A) (l : list B) (b : B) (a : A) :
  NoDup l -> b ∈ l ->
  (forall b', b' ∈ l -> b' <> b -> f a b' = a /\ f (f a b) b' = f a b) ->
  foldl f a l = f a b.
Proof.
  induction l as [|c l IH]; intros Hnd Hin Hid.
  - now apply elem_of_nil in Hin.
  - apply NoDup_cons in Hnd as [Hc Hnd]. cbn [foldl].
    apply elem_of_cons in Hin as [->|Hin].
    + apply foldl_fixed. intros b' Hb'. apply Hid; [now right|].
      intros ->. contradiction.
    + assert (Hcb : c <> b) by (intros ->; contradiction).
      assert (Hcl : c ∈ c :: l) by left.
      destruct (Hid c Hcl Hcb) as [-> _].
      apply IH; auto. intros b' Hb' Hne. apply Hid; [now right|exact Hne].
Qed.

(** A scan in which the collision with [obs] fires and no other collider
    fires, before or after the push-out, is one collision response. *)
Lemma collideAll_one_fires (tileMap : gmap (Z * Z) Tile) (obs : Tile)
    (p v : Vector3) :
  tileMap !! tileKey (tile_x obs) (tile_z obs) = Some obs ->
  isCollider (type obs) = true ->
  noOtherFires tileMap obs p (collideObstacle obs (p, v)).1 ->
  fires obs p ->
  collideAll tileMap (p, v) = collideObstacle obs (p, v).
Proof.
  intros Hobs Hcol Hno [_ Hin]. unfold collideAll; cbn [fst].
  pose proof (minDist_bound (type obs)) as Hm.
  set (dx := x p - IZR (tile_x obs)) in *.
  set (dz := z p - IZR (tile_z obs)) in *.
  assert (Hx : (-1 <= round (x p) - tile_x obs <= 1)%Z).
  { apply round_near. fold dx. nra. }
  assert (Hz : (-1 <= round (z p) - tile_z obs <= 1)%Z).
  { apply round_near. fold dz. nra. }
  assert (Hcell : scanCell tileMap (round (x p)) (round (z p)) (p, v)
                    ((tile_x obs - round (x p))%Z,
                     (tile_z obs - round (z p))%Z)
                  = collideObstacle obs (p, v)).
  { unfold scanCell; cbn [fst snd].
    replace (round (x p) + (tile_x obs - round (x p)))%Z with (tile_x obs)
      by lia.
    replace (round (z p) + (tile_z obs - round (z p)))%Z with (tile_z obs)
      by lia.
    now rewrite Hobs, Hcol. }
  rewrite (foldl_single_at _ _
             ((tile_x obs - round (x p))%Z, (tile_z obs - round (z p))%Z)).
  - exact Hcell.
  - apply scanOffsets_NoDup.
  - apply scanOffsets_elem; lia.
  - intros [i j] Hij Hne. rewrite Hcell.
    apply scanOffsets_bounds in Hij as [Hi Hj].
    destruct (collideObstacle obs (p, v)) as [p' v'] eqn:Est.
    cbn [fst] in Hno. unfold scanCell; cbn [fst snd].
    destruct (tileMap !! tileKey (round (x p) + i) (round (z p) + j))
      as [t|] eqn:E; [|now split].
    destruct (isCollider (type t)) eqn:Ht; [|now split].
    destruct (Hno i j t Hi Hj E Ht) as [H1 H2].
    + unfold tileKey. intros Hk. apply Hne. injection Hk as Hki Hkj.
      f_equal; lia.
    + split; now apply collideObstacle_misses.
Qed.

Lemma onlyColliderNear_noOtherFires (tileMap : gmap (Z * Z) Tile)
    (obs : Tile) (p p' : Vector3) :
  onlyColliderNear tileMap obs p -> noOtherFires tileMap obs p p'.
Proof.
  intros Honly i j t Hi Hj E Hc Hne. now pose proof (Honly i j t Hi Hj E Hc).
Qed.

(** C8 (obstacle bounce, amended): in a step in which the collision with a
    TREE or OBSTACLE fires against a ball moving into it (negative dot
    product with the collision normal) and no other TREE or OBSTACLE of the
    scan fires, neither at the integrated position nor at the pushed-out
    position, the velocity after the collision response has the component
    -(0.7 * 0.9) * dot along the normal; and when the ground response neither
    lands the ball in WATER, nor stops a rolling ball by friction
    (0 <= mu * gravity * dt < horizontal speed), nor drags a bouncing ball
    with a time slice outside [0, 1), the returned velocity has a component
    along the normal of reversed sign and strictly smaller magnitude. *)
Theorem C8_obstacle_bounce (config : PhysicsConfig)
    (tileMap : gmap (Z * Z) Tile) (obs : Tile) (pos0 vel0 : Vector3) (dt : R) :
  tileMap !! tileKey (tile_x obs) (tile_z obs) = Some obs ->
  isCollider (type obs) = true ->
  let p := (integrate pos0 vel0 dt config).1 in
  let v := (integrate pos0 vel0 dt config).2 in
  let n := collisionNormal obs p in
  let st := collideObstacle obs (p, v) in
  noOtherFires tileMap obs p st.1 ->
  fires obs p ->
  normalDot n v < 0 ->
  let finalTile := tileAt tileMap st.1 in
  let frictionMag :=
    getFrictionForTile (type <$> finalTile) config * gravity config * dt in
  ~ (y p <= floorHeight finalTile /\ type <$> finalTile = Some WATER) ->
  (y p <= floorHeight finalTile -> y (bounce config st.2) = 0 ->
   0 <= frictionMag < horizontalSpeed st.2) ->
  (y p <= floorHeight finalTile -> y (bounce config st.2) <> 0 ->
   0 <= dt < 1) ->
  let r := calculateNextState pos0 vel0 dt config tileMap in
  normalDot n st.2 = - (0.7 * 0.9) * normalDot n v
  /\ 0 < normalDot n (vel r)
  /\ Rabs (normalDot n (vel r)) < Rabs (normalDot n v).
Proof.
  intros Hobs Hcol p v n st Honly Hfire Hdot finalTile frictionMag Hw Hfr Hdt r.
  assert (Hst : normalDot n st.2 = - (0.7 * 0.9) * normalDot n v)
    by (now apply collideObstacle_bounce).
  split; [exact Hst|].
  assert (Hk : exists k, 0 < k <= 1
                 /\ normalDot n (vel r) = k * normalDot n st.2).
  { subst r. unfold calculateNextState, scanned.
    rewrite (surjective_pairing (integrate pos0 vel0 dt config)).
    fold p v. rewrite (collideAll_one_fires tileMap obs) by assumption.
    fold st. destruct (collideObstacle_y obs (p, v)) as [Hyp _].
    fold st in Hyp. cbn [fst] in Hyp.
    destruct st as [p' v'] eqn:Est; cbn [fst snd] in *.
    destruct (decide (y p' <= floorHeight finalTile)) as [Hy|Hy].
    - rewrite groundResponse_ground; [|exact Hy|].
      2:{ intros W. apply Hw. split; [lra|exact W]. }
      cbn [vel]. rewrite frictionUpdate_factor. fold finalTile.
      exists (frictionFactor finalTile config dt (bounce config v')).
      split.
      + unfold frictionFactor. case_decide as H0.
        * assert (Hh : horizontalSpeed (bounce config v')
                       = horizontalSpeed v').
          { unfold horizontalSpeed.
            now destruct (bounce_horizontal config v') as [-> ->]. }
          rewrite Hh. fold frictionMag.
          destruct Hfr as [Hf0 Hf1]; [lra|exact H0|].
          case_decide; [|lra]. case_decide; [lra|].
          split.
          -- apply Rdiv_lt_0_compat; lra.
          -- apply (Rmult_le_reg_r (horizontalSpeed v')); [lra|].
             unfold Rdiv. rewrite Rmult_assoc, Rinv_l by lra. lra.
        * destruct Hdt as [Hd0 Hd1]; [lra|exact H0|]. lra.
      + unfold normalDot; cbn [x z].
        destruct (bounce_horizontal config v') as [-> ->]. lra.
    - rewrite groundResponse_airborne by (now apply Rnot_le_lt).
      cbn [vel]. exists 1. split; lra. }
  destruct Hk as (k & Hk & ->). rewrite Hst.
  assert (Hpos : 0 < - (0.7 * 0.9) * normalDot n v) by lra.
  split; [nra|].
  rewrite (Rabs_right (k * _)) by nra.
  rewrite (Rabs_left (normalDot n v)) by lra. nra.
Qed.

(** The rock with a tree inside the scan that the ball does not touch. *)
Lemma rockAndTree_noOtherFires (h : R) (p' : Vector3) :
  x p' = 0.61 -> z p' = 0 ->
  noOtherFires rockAndTree rock (mkVector3 0.5908 h 0) p'.
Proof.
  intros Hx Hz i j t _ _ E Hc Hne. unfold rockAndTree in E.
  apply lookup_insert_Some in E as [[Hk _]|[_ E]]; [now destruct Hne|].
  apply lookup_singleton_Some in E as [_ <-].
  unfold fires, minDist, colliderRadius, ballRadius;
    cbn [x z tile_x tile_z type]. rewrite Hx, Hz.
  split; intros [_ H]; lra.
Qed.

Lemma C8_obstacle_bounce_witness :
  0 < normalDot (1, 0)
        (vel (calculateNextState (mkVector3 0.69 0.5 0) (mkVector3 (-10) 0 0)
                0.01 PHYSICS_CONFIG rockAndTree)).
Proof.
  pose proof (C8_obstacle_bounce PHYSICS_CONFIG rockAndTree rock
                (mkVector3 0.69 0.5 0) (mkVector3 (-10) 0 0) 0.01) as H.
  cbv zeta in H. rewrite (intoRock_integrate 0.5) in H. cbn [fst snd] in H.
  rewrite intoRock_response in H by lra.
  rewrite collisionNormal_east in H
    by (cbn [x z rock tile_x tile_z]; (reflexivity || lra)).
  cbn [fst snd] in H.
  assert (Ht : tileAt rockAndTree (mkVector3 0.61 (0.5 - 0.0035) 0) = None).
  { unfold tileAt, rockAndTree; cbn [x z]. rewrite round_061, round_0.
    rewrite lookup_insert_ne by discriminate.
    apply lookup_singleton_ne. discriminate. }
  rewrite Ht in H. cbn [floorHeight y] in H.
  apply H.
  - apply lookup_insert_eq.
  - reflexivity.
  - now apply rockAndTree_noOtherFires.
  - apply intoRock_fires. lra.
  - unfold normalDot; cbn [x z fst snd]. lra.
  - intros [Hy _]. lra.
  - intros Hy. lra.
  - intros Hy. lra.
Defined.

(** The scan skips the cells on which it does nothing. *)
Lemma foldl_skip {A B} (f : A -> B -> A) (keep : B -> bool) (l : list B)
    (a : A) :
  (forall a' b', b' ∈ l -> keep b' = false -> f a' b' = a') ->
  foldl f a l = foldl f a (List.filter keep l).
Proof.
  revert a. induction l as [|b l IH]; intros a H; [reflexivity|].
  cbn [foldl List.filter]. destruct (keep b) eqn:Ek.
  - cbn [foldl]. apply IH. intros a' b' Hb'. apply H. now right.
  - rewrite (H a b) by (left || exact Ek).
    apply IH. intros a' b' Hb'. apply H. now right.
Qed.

(** The response of the second rock to the ball that the first one pushed
    out. *)
Lemma rockPair_second (h : R) :
  h <= 3 ->
  collideObstacle (mkTile 1 0 0 OBSTACLE)
    (mkVector3 0.61 h 0, mkVector3 6.2496 (-0.35) 0)
  = (mkVector3 0.39 h 0, mkVector3 (-3.937248) (-0.35) 0).
Proof.
  intros Hh. unfold collideObstacle, minDist, colliderRadius, ballRadius.
  cbn [x y z tile_x tile_z height type].
  destruct (decide (h > 0 + 3)); [lra|].
  destruct (decide (_ < (0.45 + 0.15) * (0.45 + 0.15))) as [_|Hn];
    [|exfalso; apply Hn; lra].
  assert (Hd : sqrt ((0.61 - 1) * (0.61 - 1) + (0 - 0) * (0 - 0)) = 0.39).
  { replace ((0.61 - 1) * (0.61 - 1) + (0 - 0) * (0 - 0)) with (0.39 * 0.39)
      by lra.
    apply sqrt_square. lra. }
  rewrite Hd. destruct (decide (0.39 > 0)); [|lra].
  destruct (decide (_ < 0)) as [_|Hn]; [|exfalso; apply Hn; lra].
  f_equal; f_equal; lra.
Qed.

(** The hypothesis that no other collider fires cannot be dropped: with a
    second rock on the next cell, the ball that the first rock pushed out
    is inside the second, which throws it back; the returned velocity
    points into the first rock again, its component along the normal of the
    first collision is not of reversed sign. *)
Lemma second_collider_undoes_bounce :
  let p := (integrate (mkVector3 0.69 0.5 0) (mkVector3 (-10) 0 0) 0.01
              PHYSICS_CONFIG).1 in
  let v := (integrate (mkVector3 0.69 0.5 0) (mkVector3 (-10) 0 0) 0.01
              PHYSICS_CONFIG).2 in
  let n := collisionNormal rock p in
  let r := calculateNextState (mkVector3 0.69 0.5 0) (mkVector3 (-10) 0 0)
             0.01 PHYSICS_CONFIG rockPair in
  rockPair !! tileKey (tile_x rock) (tile_z rock) = Some rock
  /\ type rock = OBSTACLE
  /\ fires rock p
  /\ normalDot n v < 0
  /\ collision r = None
  /\ normalDot n (vel r) < 0.
Proof.
  cbv zeta.
  assert (Hl : rockPair !! tileKey (tile_x rock) (tile_z rock) = Some rock)
    by apply lookup_insert_eq.
  assert (Hf : fires rock (mkVector3 0.5908 (0.5 - 0.0035) 0))
    by (apply intoRock_fires; lra).
  assert (Hr : calculateNextState (mkVector3 0.69 0.5 0)
                 (mkVector3 (-10) 0 0) 0.01 PHYSICS_CONFIG rockPair
               = mkStepResult (mkVector3 0.39 (0.5 - 0.0035) 0)
                   (mkVector3 (-3.937248) (-0.35) 0) None).
  { unfold calculateNextState, scanned.
    rewrite (intoRock_integrate 0.5).
    assert (Hscan : collideAll rockPair
                      (mkVector3 0.5908 (0.5 - 0.0035) 0,
                       mkVector3 (-9.92) (-0.35) 0)
                    = (mkVector3 0.39 (0.5 - 0.0035) 0,
                       mkVector3 (-3.937248) (-0.35) 0)).
    { unfold collideAll; cbn [fst x z].
      rewrite (round_eq 1 0.5908), round_0 by (simpl; lra).
      rewrite (foldl_skip _
                 (fun ij => bool_decide (ij = ((-1)%Z, 0%Z)
                                         \/ ij = (0%Z, 0%Z)))).
      - change (List.filter _ scanOffsets) with [((-1)%Z, 0%Z); (0%Z, 0%Z)].
        cbn [foldl]. unfold scanCell at 2; cbn [fst snd].
        change (rockPair !! tileKey (1 + -1) (0 + 0)) with
          (rockPair !! tileKey 0 0).
        unfold rockPair at 2. rewrite lookup_insert_eq. cbn [rock type isCollider].
        fold rock. rewrite intoRock_response by lra.
        unfold scanCell; cbn [fst snd].
        change (rockPair !! tileKey (1 + 0) (0 + 0)) with
          (rockPair !! tileKey 1 0).
        unfold rockPair. rewrite lookup_insert_ne by discriminate.
        rewrite lookup_singleton_eq. cbn [type isCollider].
        apply rockPair_second. lra.
      - intros st [i j] _ Hk. apply bool_decide_eq_false in Hk.
        unfold scanCell; cbn [fst snd]. unfold rockPair.
        rewrite lookup_insert_ne.
        + rewrite lookup_singleton_ne; [reflexivity|].
          unfold tileKey. intros Hq. apply Hk. right.
          injection Hq as Hi Hj. f_equal; lia.
        + unfold tileKey. intros Hq. apply Hk. left.
          injection Hq as Hi Hj. f_equal; lia. }
    rewrite Hscan. apply groundResponse_airborne.
    unfold tileAt, rockPair; cbn [x z y].
    rewrite (round_eq 0 0.39), round_0 by (simpl; lra).
    rewrite lookup_insert_eq. cbn [floorHeight rock height]. lra. }
  rewrite Hr, (intoRock_integrate 0.5); cbn [fst snd collision vel].
  rewrite collisionNormal_east
    by (cbn [x z rock tile_x tile_z]; (reflexivity || lra)).
  unfold normalDot; cbn [x z fst snd].
  split; [exact Hl|]. split; [reflexivity|]. split; [exact Hf|].
  split; [lra|]. split; [reflexivity|lra].
Qed.
